(** * srcd: node discovery database and header chain

    A shallow embedding of two components of the srcd full node:

    - [Discover]: the node database of [p2p/discover5/database.go]
      (key encoding, expiry sweep, expirer goroutine, seed sampling);
    - [Chain]: the header chain of the [blockchain] package
      (header lookup through the LRU caches, ancestor walk, [SetHead]).

    Go integers are [Z] or [N] with their wrap-around written out, byte
    slices are [list byte], Go strings are [string], a nil pointer is
    [None].  A run-time panic of the Go code is an explicit outcome of
    the model.

    Part I holds the model, Part II the proofs. *)

From Stdlib Require Import ZArith NArith List Bool Lia.
From Stdlib Require Import Strings.String Strings.Byte.
From stdpp Require Import base option list gmap.
Import ListNotations.
#[local] Open Scope Z_scope.

#[global] Instance byte_eq_decision : EqDecision byte := byte_eq_dec.

(** ** Byte slices (package [bytes]) *)

Definition bytes_Equal (a b : list byte) : bool := bool_decide (a = b).

Fixpoint bytes_HasPrefix (s prefix : list byte) : bool :=
  match prefix, s with
  | [], _ => true
  | p :: ps, c :: cs => Byte.eqb p c && bytes_HasPrefix cs ps
  | _ :: _, [] => false
  end.

(** Lexicographic byte order, the key order of the store. *)
Fixpoint bytes_Compare (a b : list byte) : comparison :=
  match a, b with
  | [], [] => Eq
  | [], _ :: _ => Lt
  | _ :: _, [] => Gt
  | x :: a', y :: b' =>
      match N.compare (Byte.to_N x) (Byte.to_N y) with
      | Eq => bytes_Compare a' b'
      | c => c
      end
  end.

(** ** Machine integers *)

Definition wrap_int64 (z : Z) : Z := (z + 2 ^ 63) mod 2 ^ 64 - 2 ^ 63.
Definition wrap_uint64 (z : Z) : Z := z mod 2 ^ 64.

(** ** Variable-length integers (package [encoding/binary]) *)

Definition MaxVarintLen64 : nat := 10.

(** [Uvarint]: base-128 little-endian groups; the second component is the
    number of bytes read, [0] when the buffer is too short and negative on
    overflow. *)
Fixpoint Uvarint_loop (buf : list byte) (i : nat) (x s : Z) : Z * Z :=
  match buf with
  | [] => (0, 0)
  | b :: rest =>
      if Nat.eqb i MaxVarintLen64 then (0, - (Z.of_nat i + 1))
      else
        let bz := Z.of_N (Byte.to_N b) in
        if bz <? 128 then
          if Nat.eqb i (MaxVarintLen64 - 1) && (1 <? bz)
          then (0, - (Z.of_nat i + 1))
          else (wrap_uint64 (Z.lor x (Z.shiftl bz s)), Z.of_nat i + 1)
        else Uvarint_loop rest (S i) (Z.lor x (Z.shiftl (Z.land bz 127) s)) (s + 7)
  end.

Definition Uvarint (buf : list byte) : Z * Z := Uvarint_loop buf 0 0 0.

(** [Varint]: zig-zag decoding of [Uvarint]. *)
Definition Varint (buf : list byte) : Z * Z :=
  let '(ux, n) := Uvarint buf in
  let x := Z.shiftr ux 1 in
  (if Z.testbit ux 0 then - x - 1 else x, n).

(** [PutUvarint] and [PutVarint], the encoders. *)
Fixpoint PutUvarint_loop (k : nat) (x : Z) : list byte :=
  match k with
  | O => []
  | S k' =>
      if 128 <=? x then
        default Byte.x00 (Byte.of_N (Z.to_N (Z.lor (x mod 128) 128)))
          :: PutUvarint_loop k' (Z.shiftr x 7)
      else [default Byte.x00 (Byte.of_N (Z.to_N x))]
  end.

Definition PutVarint (x : Z) : list byte :=
  let ux := wrap_uint64 (Z.shiftl x 1) in
  let ux := if x <? 0 then wrap_uint64 (Z.lnot ux) else ux in
  PutUvarint_loop MaxVarintLen64 ux.

(** ** Big-endian words (package [encoding/binary]) and slice expressions *)

(** [byte(v)]: the low eight bits of an unsigned word. *)
Definition byte_of_Z (v : Z) : byte :=
  default Byte.x00 (Byte.of_N (Z.to_N (v mod 256))).

Definition Z_of_byte (b : byte) : Z := Z.of_N (Byte.to_N b).

(** [BigEndian.PutUint32]: the four bytes written, most significant first. *)
Definition BigEndian_PutUint32 (v : Z) : list byte :=
  [byte_of_Z (Z.shiftr v 24); byte_of_Z (Z.shiftr v 16);
   byte_of_Z (Z.shiftr v 8); byte_of_Z v].

(** [BigEndian.Uint32]: [None] is the index panic on fewer than four bytes. *)
Definition BigEndian_Uint32 (b : list byte) : option Z :=
  match b with
  | b0 :: b1 :: b2 :: b3 :: _ =>
      Some (Z.lor (Z.lor (Z.lor (Z_of_byte b3) (Z.shiftl (Z_of_byte b2) 8))
                         (Z.shiftl (Z_of_byte b1) 16))
                  (Z.shiftl (Z_of_byte b0) 24))
  | _ => None
  end.

(** The slice expression [b[lo:hi]]: [None] is the bounds panic. *)
Definition bytes_slice (b : list byte) (lo hi : nat) : option (list byte) :=
  if (lo <=? hi)%nat && (hi <=? length b)%nat
  then Some (firstn (hi - lo) (skipn lo b))
  else None.

(** ** Slice allocation (runtime [makeslice])

    The model is of a 64-bit platform: [int] is [int64] and a pointer has
    eight bytes.  [make([]T, 0, cap)] panics when [cap], as an [int], is
    negative or when [cap] elements of [size] bytes are more than
    [maxAlloc] bytes, which is [2^48] there.  Running out of memory below
    that limit is not part of the model. *)

Definition maxAlloc : Z := 2 ^ 48.
Definition ptrSize : Z := 8.

(** [true] when the allocation goes through. *)
Definition makeslice_ok (size cap : Z) : bool :=
  (0 <=? cap) && (size * cap <=? maxAlloc).

(** ** Wall-clock time (package [time])

    An instant is its number of nanoseconds since the Unix epoch; a
    [Duration] is a signed 64-bit count of nanoseconds.  A [time.Time]
    holds its seconds since January 1 of year 1 in an [int64]:
    [unixToInternal] is that count at the Unix epoch.  The clock readings
    [now] are instants of the wall clock, far from the ends of that
    range. *)

Definition Second : Z := 1000000000.
Definition Hour : Z := 3600 * Second.
Definition maxDuration : Z := 2 ^ 63 - 1.
Definition minDuration : Z := - 2 ^ 63.
Definition unixToInternal : Z := 62135596800.

(** [time.Unix(sec, 0)]: the sum [sec + unixToInternal] is taken in
    [int64], so the seconds of the last years before the largest [int64]
    wrap around to instants far in the past. *)
Definition time_Unix (sec : Z) : Z :=
  (wrap_int64 (sec + unixToInternal) - unixToInternal) * Second.

(** [t.Unix()]: the whole seconds since the epoch, rounded down. *)
Definition Time_Unix (t : Z) : Z := t / Second.
Definition time_Add (t d : Z) : Z := t + d.
Definition time_After (t u : Z) : bool := u <? t.

(** [t.Sub(u)] saturates at the largest and smallest [Duration]. *)
Definition time_Sub (t u : Z) : Z :=
  Z.max minDuration (Z.min maxDuration (t - u)).

(** ** The ordered key-value store (goleveldb)

    A store is the list of its entries in ascending key order.  An
    iterator is the list of the entries from its position on, read from
    the snapshot taken when it was created. *)

Definition Store : Type := list (list byte * list byte).

Definition lvl_Get (db : Store) (key : list byte) : option (list byte) :=
  snd <$> find (fun e => bytes_Equal (fst e) key) db.

Definition lvl_Delete (db : Store) (key : list byte) : Store :=
  List.filter (fun e => negb (bytes_Equal (fst e) key)) db.

(** [Put]: the entry goes to its place in the key order and replaces the
    entry of an equal key. *)
Fixpoint lvl_Put (db : Store) (key value : list byte) : Store :=
  match db with
  | [] => [(key, value)]
  | e :: rest =>
      match bytes_Compare (fst e) key with
      | Lt => e :: lvl_Put rest key value
      | Eq => (key, value) :: rest
      | Gt => (key, value) :: db
      end
  end.

(** [NewIterator(util.BytesPrefix(p))]: the entries whose key starts with [p]. *)
Definition lvl_prefix_iterator (db : Store) (p : list byte) : Store :=
  List.filter (fun e => bytes_HasPrefix (fst e) p) db.

(** [it.Seek(key)]: the entries at or after [key]. *)
Fixpoint lvl_Seek (it : Store) (key : list byte) : Store :=
  match it with
  | [] => []
  | e :: rest =>
      match bytes_Compare (fst e) key with
      | Lt => lvl_Seek rest key
      | _ => it
      end
  end.

(** ** Bounded LRU cache (hashicorp/golang-lru)

    The entries are kept most recently used first. *)

Section LRU.

Context {K V : Type} `{EqDecision K}.

Record lruCache : Type := mkLru { lru_size : nat; lru_items : list (K * V) }.

Definition lru_New (size : nat) : lruCache := mkLru size [].

Definition lru_find (c : lruCache) (k : K) : option V :=
  snd <$> find (fun e => bool_decide (fst e = k)) (lru_items c).

Definition lru_others (c : lruCache) (k : K) : list (K * V) :=
  List.filter (fun e => negb (bool_decide (fst e = k))) (lru_items c).

(** [Get]: a hit moves the entry to the front. *)
Definition lru_Get (c : lruCache) (k : K) : option V * lruCache :=
  match lru_find c k with
  | Some v => (Some v, mkLru (lru_size c) ((k, v) :: lru_others c k))
  | None => (None, c)
  end.

(** [Add]: an existing key is updated and moved to the front; a new one is
    pushed to the front and the oldest entry is evicted when the cache is
    over its size. *)
Definition lru_Add (c : lruCache) (k : K) (v : V) : lruCache :=
  match lru_find c k with
  | Some _ => mkLru (lru_size c) ((k, v) :: lru_others c k)
  | None =>
      let items := (k, v) :: lru_items c in
      if (lru_size c <? length items)%nat
      then mkLru (lru_size c) (removelast items)
      else mkLru (lru_size c) items
  end.

End LRU.

Arguments lruCache : clear implicits.

(** Result of running a function that may panic or whose loop is given a
    step budget. *)
Inductive outcome (A : Type) : Type :=
| Done (a : A)
| Panic
| OutOfFuel.

Arguments Done {A} a.
Arguments Panic {A}.
Arguments OutOfFuel {A}.

(** * Part I (a): the node database, [p2p/discover5/database.go] *)

Module Discover.

Definition NodeID : Type := list byte.

(** What the file uses and does not declare. [NodeID] is a byte array of
    fixed length [idLen]; [Node] and the RLP decoder live elsewhere in the
    repository.  [nonNilKey] is the value of [makeKey] at a non-nil
    identity: the source function ends without a [return] on that path,
    so what it yields there is left open and every statement of Part II
    holds whatever it is. *)
Class NodeSig : Type := {
  idLen : nat;
  nonNilKey : NodeID -> string -> list byte;
  Node : Type;
  Node_ID : Node -> NodeID;
  rlp_DecodeNode : list byte -> option Node
}.

Section NodeDB.

Context `{NodeSig}.

Definition nodeDBNilNodeID : NodeID := repeat Byte.x00 idLen.
Definition nodeDBNodeExpiration : Z := 24 * Hour.
Definition nodeDBItemPrefix : list byte := list_byte_of_string "n:"%string.
Definition nodeDBDiscoverRoot : string := ":discover"%string.
Definition nodeDBDiscoverPong : string :=
  String.append nodeDBDiscoverRoot ":lastpong"%string.
Definition nodeDBVersionKey : list byte := list_byte_of_string "version"%string.
Definition nodeDBDiscoverPing : string :=
  String.append nodeDBDiscoverRoot ":lastping"%string.
Definition nodeDBDiscoverFindFails : string :=
  String.append nodeDBDiscoverRoot ":findfail"%string.
Definition nodeDBTopicRegTickets : string := ":tickets"%string.

(** [runner] is the [sync.Once] ([true] once used); [quit] is [true] once
    the quit channel is closed. *)
Record nodeDB : Type := mkNodeDB {
  lvl : Store;
  self : NodeID;
  runner : bool;
  quit : bool
}.

Definition with_lvl (db : nodeDB) (s : Store) : nodeDB :=
  mkNodeDB s (self db) (runner db) (quit db).

(** *** Opening a database

    The store of a path is [None] when nothing is there; [OpenFile]
    creates an empty store then.  Opening and writing are taken to
    succeed: the model has no I/O failure and no corrupted file. *)

Definition leveldb_OpenFile (disk : option Store) : Store := default [] disk.

Definition newMemoryNodeDB (self : NodeID) : nodeDB := mkNodeDB [] self false false.

(** [newPersistentNodeDB]: on a version blob that differs, the store is
    closed, removed from the disk, and the function calls itself on the
    emptied path; [fuel] bounds these calls. *)
Fixpoint newPersistentNodeDB (fuel : nat) (disk : option Store) (version : Z)
    (self : NodeID) : outcome nodeDB :=
  match fuel with
  | O => OutOfFuel
  | S fuel' =>
      let db := leveldb_OpenFile disk in
      let currentVer := PutVarint version in
      match lvl_Get db nodeDBVersionKey with
      | None =>
          Done (mkNodeDB (lvl_Put db nodeDBVersionKey currentVer) self false false)
      | Some blob =>
          if negb (bytes_Equal blob currentVer)
          then newPersistentNodeDB fuel' None version self
          else Done (mkNodeDB db self false false)
      end
  end.

Definition newNodeDB (fuel : nat) (path : string) (disk : option Store) (version : Z)
    (self : NodeID) : outcome nodeDB :=
  if String.eqb path EmptyString then Done (newMemoryNodeDB self)
  else newPersistentNodeDB fuel disk version self.

(** [makeKey] as the file has it: the [if] on the nil identity returns
    the field name, and the function body ends there, with no [return]
    for another identity.  [None] is that end without a value. *)
Definition makeKey_body (id : NodeID) (field : string) : option (list byte) :=
  if bytes_Equal id nodeDBNilNodeID then Some (list_byte_of_string field)
  else None.

(** [makeKey] as its callers use it, with [nonNilKey] for the value the
    body does not give. *)
Definition makeKey (id : NodeID) (field : string) : list byte :=
  if bytes_Equal id nodeDBNilNodeID then list_byte_of_string field
  else nonNilKey id field.

(** [None]: the slice expression [item[len(id):]] is out of range. *)
Definition splitKey (key : list byte) : option (NodeID * string) :=
  if negb (bytes_HasPrefix key nodeDBItemPrefix) then
    Some (nodeDBNilNodeID, string_of_list_byte key)
  else
    let item := skipn (length nodeDBItemPrefix) key in
    if (length item <? idLen)%nat then None
    else Some (firstn idLen item, string_of_list_byte (skipn idLen item)).

Definition fetchInt64 (db : nodeDB) (key : list byte) : Z :=
  match lvl_Get (lvl db) key with
  | None => 0
  | Some blob =>
      let '(val, read) := Varint blob in
      if read <=? 0 then 0 else val
  end.

Definition storeInt64 (db : nodeDB) (key : list byte) (n : Z) : nodeDB :=
  with_lvl db (lvl_Put (lvl db) key (PutVarint n)).

Definition lastPong (db : nodeDB) (id : NodeID) : Z :=
  time_Unix (fetchInt64 db (makeKey id nodeDBDiscoverPong)).

Definition lastPing (db : nodeDB) (id : NodeID) : Z :=
  time_Unix (fetchInt64 db (makeKey id nodeDBDiscoverPing)).

Definition updateLastPing (db : nodeDB) (id : NodeID) (instance : Z) : nodeDB :=
  storeInt64 db (makeKey id nodeDBDiscoverPing) (Time_Unix instance).

(** [int] is 64 bits wide: the conversions from and to [int64] change
    nothing. *)
Definition findFails (db : nodeDB) (id : NodeID) : Z :=
  fetchInt64 db (makeKey id nodeDBDiscoverFindFails).

Definition updateFindFails (db : nodeDB) (id : NodeID) (fails : Z) : nodeDB :=
  storeInt64 db (makeKey id nodeDBDiscoverFindFails) fails.

(** [fetchTopicRegTickets]: a failed [Get] leaves the blob nil; [None]
    is a panic of a slice expression or of [Uint32]. *)
Definition fetchTopicRegTickets (db : nodeDB) (id : NodeID) : option (Z * Z) :=
  let key := makeKey id nodeDBTopicRegTickets in
  let blob := default [] (lvl_Get (lvl db) key) in
  if negb (length blob =? 8)%nat then Some (0, 0)
  else
    match bytes_slice blob 0 4, bytes_slice blob 4 8 with
    | Some hi, Some lo =>
        match BigEndian_Uint32 hi, BigEndian_Uint32 lo with
        | Some issued, Some used => Some (issued, used)
        | _, _ => None
        end
    | _, _ => None
    end.

Definition updateTopicRegTickets (db : nodeDB) (id : NodeID) (issued used : Z) : nodeDB :=
  let key := makeKey id nodeDBTopicRegTickets in
  let blob := BigEndian_PutUint32 issued ++ BigEndian_PutUint32 used in
  with_lvl db (lvl_Put (lvl db) key blob).

(** Every key under the prefix [makeKey id] of the empty field is deleted. *)
Definition deleteNode (db : nodeDB) (id : NodeID) : nodeDB :=
  let deleter := lvl_prefix_iterator (lvl db) (makeKey id EmptyString) in
  fold_left (fun d e => with_lvl d (lvl_Delete (lvl d) (fst e))) deleter db.

(** The sweep over the iterator [it]; [deleted] records, in order, the
    identities [deleteNode] was called with. *)
Fixpoint expireNodes_loop (threshold : Z) (it : Store) (db : nodeDB)
    (deleted : list NodeID) : option (nodeDB * list NodeID) :=
  match it with
  | [] => Some (db, deleted)
  | e :: rest =>
      match splitKey (fst e) with
      | None => None
      | Some (id, field) =>
          if negb (String.eqb field nodeDBDiscoverRoot) then
            expireNodes_loop threshold rest db deleted
          else if negb (bytes_Equal id (self db))
                  && time_After (lastPong db id) threshold then
            expireNodes_loop threshold rest db deleted
          else
            expireNodes_loop threshold rest (deleteNode db id) (deleted ++ [id])
      end
  end.

(** [now] is the reading of [time.Now()]. *)
Definition expireNodes (now : Z) (db : nodeDB) : option (nodeDB * list NodeID) :=
  let threshold := time_Add now (- nodeDBNodeExpiration) in
  expireNodes_loop threshold (lvl db) db [].

(** [nextNode]: [Some None] is the nil result; an exhausted iterator has
    the nil key, which [splitKey] reads as the empty field. *)
Fixpoint nextNode (it : Store) : option (option Node) :=
  match it with
  | [] => Some None
  | e :: rest =>
      match splitKey (fst e) with
      | None => None
      | Some (_, field) =>
          if negb (String.eqb field nodeDBDiscoverRoot) then nextNode rest
          else
            match rlp_DecodeNode (snd e) with
            | None => nextNode rest
            | Some n => Some (Some n)
            end
      end
  end.

Definition byte_add (a b : byte) : byte :=
  default Byte.x00 (Byte.of_N ((Byte.to_N a + Byte.to_N b) mod 256)%N).

Definition byte_mod16 (b : byte) : byte :=
  default Byte.x00 (Byte.of_N (Byte.to_N b mod 16)%N).

Definition set_first (id : NodeID) (b : byte) : NodeID :=
  match id with
  | [] => []
  | _ :: tl => b :: tl
  end.

(** The seek loop with [k] seeks left of its budget of [n*5]; [rnd s] is
    what [rand.Read] delivers at seek number [s].  The result carries the
    number of seeks made. *)
Fixpoint querySeeds_loop (rnd : nat -> NodeID) (now maxAge n : Z) (db : nodeDB)
    (k seeks : nat) (id : NodeID) (nodes : list Node) : option (list Node * nat) :=
  match k with
  | O => Some (nodes, seeks)
  | S k' =>
      if negb (Z.of_nat (length nodes) <? n) then Some (nodes, seeks)
      else
        let ctr := hd Byte.x00 id in
        let id := rnd seeks in
        let id := set_first id (byte_add ctr (byte_mod16 (hd Byte.x00 id))) in
        let it := lvl_Seek (lvl db) (makeKey id nodeDBDiscoverRoot) in
        match nextNode it with
        | None => None
        | Some None =>
            querySeeds_loop rnd now maxAge n db k' (S seeks) (set_first id Byte.x00) nodes
        | Some (Some nd) =>
            if bytes_Equal (Node_ID nd) (self db) then
              querySeeds_loop rnd now maxAge n db k' (S seeks) id nodes
            else if maxAge <? time_Sub now (lastPong db (Node_ID nd)) then
              querySeeds_loop rnd now maxAge n db k' (S seeks) id nodes
            else if existsb (fun m => bytes_Equal (Node_ID m) (Node_ID nd)) nodes then
              querySeeds_loop rnd now maxAge n db k' (S seeks) id nodes
            else
              querySeeds_loop rnd now maxAge n db k' (S seeks) id (nodes ++ [nd])
        end
  end.

(** [None] is a panic: [make([]*Node, 0, n)] with [n] negative or
    larger than the runtime allocates, before any seek, or [splitKey] on
    a key too short. *)
Definition querySeeds (rnd : nat -> NodeID) (now : Z) (db : nodeDB)
    (n maxAge : Z) : option (list Node * nat) :=
  if negb (makeslice_ok ptrSize n) then None
  else
    querySeeds_loop rnd now maxAge n db
      (Z.to_nat (wrap_int64 (n * 5))) 0%nat nodeDBNilNodeID [].

(** What the loop keeps true of the nodes selected so far. *)
Definition selected_ok (now maxAge n : Z) (db : nodeDB) (nodes : list Node) : Prop :=
  Z.of_nat (length nodes) <= n /\
  NoDup (map Node_ID nodes) /\
  ~ In (self db) (map Node_ID nodes) /\
  Forall (fun nd => time_Sub now (lastPong db (Node_ID nd)) <= maxAge) nodes.

(** Keys of the persisted layout: those [splitKey] can slice. *)
Definition wf_store (s : Store) : bool :=
  forallb (fun e => bool_decide (is_Some (splitKey (fst e)))) s.

(** The node an entry holds: its key has the root field and its value
    decodes. *)
Definition node_record (e : list byte * list byte) : option Node :=
  match splitKey (fst e) with
  | Some (_, field) =>
      if String.eqb field nodeDBDiscoverRoot then rlp_DecodeNode (snd e) else None
  | None => None
  end.

(** *** The expirer goroutine

    The goroutine loops over one [select] statement.  [expirer_select]
    lists its cases as the source has them: the channel received from,
    and what the case does. *)

Inductive channel : Type := TickC | QuitC.
Inductive caseBody : Type := CallExpireNodes | ReturnFromExpirer.
Inductive goroutine : Type := NotStarted | InSelect | Returned.

#[global] Instance channel_eq_decision : EqDecision channel.
Proof. solve_decision. Defined.

Definition expirer_select : list (channel * caseBody) :=
  [(TickC, CallExpireNodes)].

(** The database with its expirer; [sweeps] counts the calls of
    [expireNodes]. *)
Record system : Type := mkSystem {
  sys_db : nodeDB;
  sys_expirer : goroutine;
  sys_sweeps : nat
}.

(** What can happen: a caller runs [ensureExpirer] or [close], or a
    channel of the [select] becomes ready ([now] is the clock reading
    when the ticker fires). *)
Inductive event : Type :=
| CallEnsureExpirer
| CallClose
| Ready (c : channel) (now : Z).

Definition ensureExpirer (s : system) : system :=
  let db := sys_db s in
  if runner db then s
  else mkSystem (mkNodeDB (lvl db) (self db) true (quit db)) InSelect (sys_sweeps s).

(** [close]: closing a closed channel panics.  The store handle is
    released: later iterators over it are empty. *)
Definition close (s : system) : option system :=
  let db := sys_db s in
  if quit db then None
  else Some (mkSystem (mkNodeDB (lvl db) (self db) (runner db) true)
                      (sys_expirer s) (sys_sweeps s)).

(** One turn of the expirer loop when channel [c] is ready: the matching
    case of the [select] runs; with no case for [c] the goroutine stays
    blocked in the [select]. *)
Definition expirer_turn (c : channel) (now : Z) (s : system) : option system :=
  match sys_expirer s with
  | InSelect =>
      match snd <$> find (fun cs => bool_decide (fst cs = c)) expirer_select with
      | Some CallExpireNodes =>
          if quit (sys_db s) then
            Some (mkSystem (sys_db s) InSelect (S (sys_sweeps s)))
          else
            match expireNodes now (sys_db s) with
            | Some (db', _) => Some (mkSystem db' InSelect (S (sys_sweeps s)))
            | None => None
            end
      | Some ReturnFromExpirer =>
          Some (mkSystem (sys_db s) Returned (sys_sweeps s))
      | None => Some s
      end
  | _ => Some s
  end.

Definition step (s : system) (e : event) : option system :=
  match e with
  | CallEnsureExpirer => Some (ensureExpirer s)
  | CallClose => close s
  | Ready c now =>
      match c with
      | QuitC => if quit (sys_db s) then expirer_turn c now s else Some s
      | TickC => expirer_turn c now s
      end
  end.

Fixpoint run (s : system) (es : list event) : option system :=
  match es with
  | [] => Some s
  | e :: es' =>
      match step s e with
      | Some s' => run s' es'
      | None => None
      end
  end.

End NodeDB.


(** *** Sample data

    A concrete signature with 64-byte identities, used by the closed
    examples of Part II. *)

(** Modelled from the spec: the per-node key layout of the persisted
    store, item prefix, then identity, then field name; [makeKey] itself
    leaves this path without a result. *)
Definition itemKey (id : NodeID) (field : string) : list byte :=
  list_byte_of_string "n:"%string ++ id ++ list_byte_of_string field.

(** A node record that holds its identity only, encoded as these bytes. *)
Definition sampleSig : NodeSig := {|
  idLen := 64;
  nonNilKey := itemKey;
  Node := NodeID;
  Node_ID := fun n => n;
  rlp_DecodeNode := fun blob => if (length blob =? 64)%nat then Some blob else None
|}.

Definition idSelf : NodeID := repeat "S"%byte 64.
Definition idPeer : NodeID := repeat "A"%byte 64.
Definition idOld : NodeID := repeat "B"%byte 64.

(** The clock reads 1700000000 s; the peer answered 1000 s ago, the
    local node's own record 60 s ago, the old peer three years ago. *)
Definition sampleNow : Z := time_Unix 1700000000.

Definition sampleStore : Store :=
  [ (@makeKey sampleSig idPeer nodeDBDiscoverRoot, idPeer);
    (@makeKey sampleSig idPeer nodeDBDiscoverPong, PutVarint 1699999000);
    (@makeKey sampleSig idOld nodeDBDiscoverRoot, idOld);
    (@makeKey sampleSig idOld nodeDBDiscoverPong, PutVarint 1600000000);
    (@makeKey sampleSig idSelf nodeDBDiscoverRoot, idSelf);
    (@makeKey sampleSig idSelf nodeDBDiscoverPong, PutVarint 1699999940) ].

Definition sampleDB : @nodeDB := mkNodeDB sampleStore idSelf false false.

(** A database whose own identity is the nil identity, as
    [newNodeDB] takes it when handed [NodeID{}]: its record and its last
    pong, 60 s old, sit under the bare field names. *)
Definition nilSelfStore : Store :=
  [ (list_byte_of_string nodeDBDiscoverRoot, @nodeDBNilNodeID sampleSig);
    (list_byte_of_string nodeDBDiscoverPong, PutVarint 1699999940) ].

Definition nilSelfDB : @nodeDB :=
  mkNodeDB nilSelfStore (@nodeDBNilNodeID sampleSig) false false.

(** The store after the sweep: only the peer's two entries are left. *)
Definition sampleSwept : Store :=
  [ (@makeKey sampleSig idPeer nodeDBDiscoverRoot, idPeer);
    (@makeKey sampleSig idPeer nodeDBDiscoverPong, PutVarint 1699999000) ].

(** A database that holds the fresh peer only. *)
Definition freshDB : @nodeDB := mkNodeDB sampleSwept idSelf false false.

(** A store with a record under the bare root key, as the nil identity
    has it, next to the peer's entries; no last pong is recorded for the
    nil identity. *)
Definition bareRootStore : Store :=
  [ (list_byte_of_string nodeDBDiscoverRoot, idOld);
    (@makeKey sampleSig idPeer nodeDBDiscoverRoot, idPeer);
    (@makeKey sampleSig idPeer nodeDBDiscoverPong, PutVarint 1699999000) ].

Definition bareRootDB : @nodeDB := mkNodeDB bareRootStore idSelf false false.

(** A store that holds its version entry only. *)
Definition versionOnlyDB : @nodeDB :=
  mkNodeDB [(@nodeDBVersionKey, PutVarint 5)] idSelf false false.

End Discover.

(** * Part I (b): the header chain, package [blockchain] *)

Module Chain.

(** What the file uses of [common.Hash] and [types.Header]: the zero
    hash, the size in bytes of a hash, the parent hash and number fields,
    and the [Hash()] method.  The method is declared outside the file;
    [nilHash] is what it yields on a nil header, [None] when it panics
    there: every statement of Part II holds whichever it is. *)
Class HeaderSig (Hash Header : Type) : Type := {
  zeroHash : Hash;
  HashLength : nat;
  ParentHash : Header -> Hash;
  Number : Header -> Z;
  HashOf : Header -> Hash;
  nilHash : option Hash
}.

(** [Uint64] of [big.Int]: the low 64 bits of the magnitude. *)
Definition big_Uint64 (x : Z) : N := (Z.to_N (Z.abs x) mod 2 ^ 64)%N.

(** [Sign] of [big.Int]. *)
Definition big_Sign (x : Z) : Z := Z.sgn x.

(** [n - 1] on [uint64]. *)
Definition uint64_pred (n : N) : N := ((n + (2 ^ 64 - 1)) mod 2 ^ 64)%N.

Definition headerCacheLimit : nat := 512.
Definition numberCacheLimit : nat := 2048.

Section HeaderChain.

Context {Hash Header : Type} `{Countable Hash} `{EqDecision Header}.
Context `{!HeaderSig Hash Header}.

(** Modelled from the spec: the chain database behind the header store
    accessor ([rawdb], not among the sources).  It holds the headers by
    (hash, number), the hash-to-number index, the canonical
    number-to-hash index, the two head pointers, and the collaborators'
    data ([db_foreign], block bodies and the like) that a delete callback
    removes. *)
Record ChainDb : Type := mkChainDb {
  db_headers : gmap (Hash * N) Header;
  db_numbers : gmap Hash N;
  db_canonical : gmap N Hash;
  db_headHeaderHash : option Hash;
  db_headBlockHash : option Hash;
  db_foreign : gset N
}.

(** Modelled from the spec: [ReadHeader(hash, number)]. *)
Definition ReadHeader (db : ChainDb) (hash : Hash) (number : N) : option Header :=
  db_headers db !! (hash, number).

(** Modelled from the spec: [ReadHeaderNumber(hash)]. *)
Definition ReadHeaderNumber (db : ChainDb) (hash : Hash) : option N :=
  db_numbers db !! hash.

(** Modelled from the spec: [ReadCanonicalHash(number)], the zero hash
    when the index has no entry. *)
Definition ReadCanonicalHash (db : ChainDb) (number : N) : Hash :=
  default zeroHash (db_canonical db !! number).

(** Modelled from the spec: [ReadHeadBlockHash()], the zero hash when unset. *)
Definition ReadHeadBlockHash (db : ChainDb) : Hash :=
  default zeroHash (db_headBlockHash db).

(** Modelled from the spec: [WriteHeadHeaderHash(hash)]. *)
Definition WriteHeadHeaderHash (db : ChainDb) (hash : Hash) : ChainDb :=
  mkChainDb (db_headers db) (db_numbers db) (db_canonical db)
            (Some hash) (db_headBlockHash db) (db_foreign db).

(** Modelled from the spec: a batch is the list of the deletions put
    into it, applied together by [Write]. *)
Inductive BatchOp : Type :=
| OpDeleteHeader (hash : Hash) (number : N)
| OpDeleteCanonicalHash (number : N)
| OpDeleteForeign (key : N).

Definition Batch : Type := list BatchOp.

Definition NewBatch : Batch := [].

(** Modelled from the spec: [DeleteHeader(batch, hash, number)]. *)
Definition DeleteHeader (b : Batch) (hash : Hash) (number : N) : Batch :=
  b ++ [OpDeleteHeader hash number].

(** Modelled from the spec: [DeleteCanonicalHash(batch, number)]. *)
Definition DeleteCanonicalHash (b : Batch) (number : N) : Batch :=
  b ++ [OpDeleteCanonicalHash number].

Definition apply_op (db : ChainDb) (op : BatchOp) : ChainDb :=
  match op with
  | OpDeleteHeader hash number =>
      mkChainDb (delete (hash, number) (db_headers db)) (db_numbers db)
                (db_canonical db) (db_headHeaderHash db) (db_headBlockHash db)
                (db_foreign db)
  | OpDeleteCanonicalHash number =>
      mkChainDb (db_headers db) (db_numbers db)
                (delete number (db_canonical db)) (db_headHeaderHash db)
                (db_headBlockHash db) (db_foreign db)
  | OpDeleteForeign key =>
      mkChainDb (db_headers db) (db_numbers db) (db_canonical db)
                (db_headHeaderHash db) (db_headBlockHash db)
                (db_foreign db ∖ {[ key ]})
  end.

(** Modelled from the spec: [batch.Write()], one atomic commit. *)
Definition batch_Write (db : ChainDb) (b : Batch) : ChainDb :=
  fold_left apply_op b db.

(** [DeleteCallback]: called with the batch, the hash and the number, it
    puts the deletions of the caller's own data into the batch.  The
    model has it return the keys it deletes. *)
Definition DeleteCallback : Type := Hash -> N -> list N.

(** The fields of [HeaderChain] that the modelled functions read or
    write.  A nil header pointer is [None]. *)
Record HeaderChain : Type := mkHeaderChain {
  chainDb : ChainDb;
  genesisHeader : option Header;
  currentHeader : option Header;
  currentHeaderHash : Hash;
  headerCache : lruCache Hash Header;
  numberCache : lruCache Hash N
}.

Definition with_chainDb (hc : HeaderChain) (db : ChainDb) : HeaderChain :=
  mkHeaderChain db (genesisHeader hc) (currentHeader hc) (currentHeaderHash hc)
                (headerCache hc) (numberCache hc).

Definition with_headerCache (hc : HeaderChain) (c : lruCache Hash Header) : HeaderChain :=
  mkHeaderChain (chainDb hc) (genesisHeader hc) (currentHeader hc)
                (currentHeaderHash hc) c (numberCache hc).

Definition with_numberCache (hc : HeaderChain) (c : lruCache Hash N) : HeaderChain :=
  mkHeaderChain (chainDb hc) (genesisHeader hc) (currentHeader hc)
                (currentHeaderHash hc) (headerCache hc) c.

(** [hc.currentHeader.Store(h)] *)
Definition store_currentHeader (hc : HeaderChain) (h : option Header) : HeaderChain :=
  mkHeaderChain (chainDb hc) (genesisHeader hc) h (currentHeaderHash hc)
                (headerCache hc) (numberCache hc).

Definition with_currentHeaderHash (hc : HeaderChain) (h : Hash) : HeaderChain :=
  mkHeaderChain (chainDb hc) (genesisHeader hc) (currentHeader hc) h
                (headerCache hc) (numberCache hc).

Definition GetBlockNumber (hc : HeaderChain) (hash : Hash) : option N * HeaderChain :=
  match lru_Get (numberCache hc) hash with
  | (Some number, c) => (Some number, with_numberCache hc c)
  | (None, _) =>
      match ReadHeaderNumber (chainDb hc) hash with
      | Some number =>
          (Some number, with_numberCache hc (lru_Add (numberCache hc) hash number))
      | None => (None, hc)
      end
  end.

Definition GetHeader (hc : HeaderChain) (hash : Hash) (number : N)
    : option Header * HeaderChain :=
  match lru_Get (headerCache hc) hash with
  | (Some header, c) => (Some header, with_headerCache hc c)
  | (None, _) =>
      match ReadHeader (chainDb hc) hash number with
      | None => (None, hc)
      | Some header =>
          (Some header, with_headerCache hc (lru_Add (headerCache hc) hash header))
      end
  end.

Definition GetHeaderByHash (hc : HeaderChain) (hash : Hash)
    : option Header * HeaderChain :=
  match GetBlockNumber hc hash with
  | (None, hc1) => (None, hc1)
  | (Some number, hc1) => GetHeader hc1 hash number
  end.

Definition GetHeaderByNumber (hc : HeaderChain) (number : N)
    : option Header * HeaderChain :=
  let hash := ReadCanonicalHash (chainDb hc) number in
  if bool_decide (hash = zeroHash) then (None, hc)
  else GetHeader hc hash number.

(** The loop of [GetBlockHashesFromHash] with [k] iterations left of
    [max]; [header] is the header walked from. *)
Fixpoint GetBlockHashesFromHash_loop (k : nat) (hc : HeaderChain) (header : Header)
    (chain : list Hash) : list Hash * HeaderChain :=
  match k with
  | O => (chain, hc)
  | S k' =>
      let next := ParentHash header in
      match GetHeader hc next (uint64_pred (big_Uint64 (Number header))) with
      | (None, hc1) => (chain, hc1)
      | (Some header', hc1) =>
          let chain := chain ++ [next] in
          if big_Sign (Number header') =? 0 then (chain, hc1)
          else GetBlockHashesFromHash_loop k' hc1 header' chain
      end
  end.

(** [None] is the panic of [make([]common.Hash, 0, max)], reached when
    the origin header is there: [max] is converted to [int] for it. *)
Definition GetBlockHashesFromHash (hc : HeaderChain) (hash : Hash) (max : N)
    : option (list Hash * HeaderChain) :=
  match GetHeaderByHash hc hash with
  | (None, hc1) => Some ([], hc1)
  | (Some header, hc1) =>
      if negb (makeslice_ok (Z.of_nat HashLength) (wrap_int64 (Z.of_N max))) then None
      else Some (GetBlockHashesFromHash_loop (N.to_nat max) hc1 header [])
  end.

Definition CurrentHeader (hc : HeaderChain) : option Header := currentHeader hc.

(** [h.Hash()] on a header pointer; [None] is a panic. *)
Definition Hash_of_ptr (h : option Header) : option Hash :=
  match h with
  | Some hdr => Some (HashOf hdr)
  | None => nilHash
  end.

(** [SetCurrentHeader]; [None] is a panic of [head.Hash()]. *)
Definition SetCurrentHeader (hc : HeaderChain) (head : option Header)
    : option HeaderChain :=
  match Hash_of_ptr head with
  | None => None
  | Some hash =>
      let hc1 := with_chainDb hc (WriteHeadHeaderHash (chainDb hc) hash) in
      Some (with_currentHeaderHash (store_currentHeader hc1 head) hash)
  end.

Definition SetGenesis (hc : HeaderChain) (head : option Header) : HeaderChain :=
  mkHeaderChain (chainDb hc) head (currentHeader hc) (currentHeaderHash hc)
                (headerCache hc) (numberCache hc).

(** [NewHeaderChain], with the random seed taken as read: [None] is
    [ErrNoGenesis]. *)
Definition NewHeaderChain (db : ChainDb) : option HeaderChain :=
  let hc := mkHeaderChain db None None zeroHash
              (lru_New headerCacheLimit) (lru_New numberCacheLimit) in
  match GetHeaderByNumber hc 0%N with
  | (None, _) => None
  | (Some genesis, hc1) =>
      let hc2 := store_currentHeader (SetGenesis hc1 (Some genesis)) (Some genesis) in
      let head := ReadHeadBlockHash db in
      let hc3 :=
        if bool_decide (head = zeroHash) then hc2
        else
          match GetHeaderByHash hc2 head with
          | (Some chead, hc') => store_currentHeader hc' (Some chead)
          | (None, hc') => hc'
          end in
      match CurrentHeader hc3 with
      | Some cur => Some (with_currentHeaderHash hc3 (HashOf cur))
      | None => None
      end
  end.

(** What [SetHead] does to the batch and the store, in order. *)
Inductive Event : Type :=
| EvDelFn (hash : Hash) (number : N)
| EvDeleteHeader (hash : Hash) (number : N)
| EvDeleteCanonicalHash (number : N)
| EvBatchWrite (b : Batch)
| EvWriteHeadHeaderHash (hash : Hash).

(** The rewind loop of [SetHead]; [None] when the step budget [fuel] runs
    out. *)
Fixpoint SetHead_loop (fuel : nat) (head : N) (delFn : option DeleteCallback)
    (hc : HeaderChain) (batch : Batch) (tr : list Event)
    : option (HeaderChain * Batch * list Event) :=
  match CurrentHeader hc with
  | Some hdr =>
      if (head <? big_Uint64 (Number hdr))%N then
        match fuel with
        | O => None
        | S fuel' =>
            let hash := HashOf hdr in
            let num := big_Uint64 (Number hdr) in
            let '(batch, tr) :=
              match delFn with
              | Some f => (batch ++ map OpDeleteForeign (f hash num),
                           tr ++ [EvDelFn hash num])
              | None => (batch, tr)
              end in
            let batch := DeleteHeader batch hash num in
            let tr := tr ++ [EvDeleteHeader hash num] in
            let '(parent, hc1) :=
              GetHeader hc (ParentHash hdr) (uint64_pred (big_Uint64 (Number hdr))) in
            SetHead_loop fuel' head delFn (store_currentHeader hc1 parent) batch tr
        end
      else Some (hc, batch, tr)
  | None => Some (hc, batch, tr)
  end.

(** [for i := height; i > head; i-- { DeleteCanonicalHash(batch, i) }],
    with [k] bounding the iterations ([k = height] is never exhausted). *)
Fixpoint rollback_canonical (k : nat) (head i : N) (batch : Batch) (tr : list Event)
    : Batch * list Event :=
  if (head <? i)%N then
    match k with
    | O => (batch, tr)
    | S k' =>
        rollback_canonical k' head (uint64_pred i) (DeleteCanonicalHash batch i)
                           (tr ++ [EvDeleteCanonicalHash i])
    end
  else (batch, tr).

(** [SetHead]: [Panic] is a panic of [CurrentHeader().Hash()], which
    can be one on a nil head only, when there is no genesis header to
    fall back on. *)
Definition SetHead (fuel : nat) (hc : HeaderChain) (head : N)
    (delFn : option DeleteCallback) : outcome (HeaderChain * list Event) :=
  let height :=
    match CurrentHeader hc with
    | Some hdr => big_Uint64 (Number hdr)
    | None => 0%N
    end in
  match SetHead_loop fuel head delFn hc NewBatch [] with
  | None => OutOfFuel
  | Some (hc1, batch, tr) =>
      let '(batch, tr) := rollback_canonical (N.to_nat height) head height batch tr in
      let hc2 := with_chainDb hc1 (batch_Write (chainDb hc1) batch) in
      let tr := tr ++ [EvBatchWrite batch] in
      let hc3 :=
        match CurrentHeader hc2 with
        | None => store_currentHeader hc2 (genesisHeader hc2)
        | Some _ => hc2
        end in
      match Hash_of_ptr (CurrentHeader hc3) with
      | None => Panic
      | Some hash =>
          let hc4 := with_currentHeaderHash hc3 hash in
          Done (with_chainDb hc4 (WriteHeadHeaderHash (chainDb hc4) (currentHeaderHash hc4)),
                tr ++ [EvWriteHeadHeaderHash (currentHeaderHash hc4)])
      end
  end.

(** *** Vocabulary of the statements *)

(** What [GetHeader] returns, leaving the cache as it is. *)
Definition peekHeader (hc : HeaderChain) (hash : Hash) (number : N) : option Header :=
  match lru_find (headerCache hc) hash with
  | Some h => Some h
  | None => ReadHeader (chainDb hc) hash number
  end.

(** The canonical header at height [k], read from the store alone. *)
Definition canonicalHeader (db : ChainDb) (k : N) : option Header :=
  let hash := ReadCanonicalHash db k in
  if bool_decide (hash = zeroHash) then None else ReadHeader db hash k.

(** The head of a chain opened over [db] with genesis header [g]: the
    header the head-block hash resolves to through the number index and
    the header store; [g] when that hash is unset, is the canonical hash
    at height 0, or does not resolve. *)
Definition openingHead (db : ChainDb) (g : Header) : Header :=
  let head := ReadHeadBlockHash db in
  if bool_decide (head = zeroHash) then g
  else
    match ReadHeaderNumber db head with
    | None => g
    | Some number =>
        if bool_decide (head = ReadCanonicalHash db 0) then g
        else default g (ReadHeader db head number)
    end.

(** The heights [H], [H-1], ..., [h+1]. *)
Definition heights_down (H h : N) : list N :=
  map (fun i => (H - N.of_nat i)%N) (seq 0 (N.to_nat (H - h))).

(** The heights [0], [1], ..., [H]. *)
Definition heights_upto (H : N) : list N :=
  map N.of_nat (seq 0 (S (N.to_nat H))).

(** Height [k] of the canonical chain is in order: the index names a
    stored header of that hash and number, whose parent hash is the
    canonical hash one below, and the header cache, where it has that
    hash, holds the same header. *)
Definition canonical_ok (hc : HeaderChain) (k : N) : bool :=
  match canonicalHeader (chainDb hc) k with
  | None => false
  | Some c =>
      bool_decide (HashOf c = ReadCanonicalHash (chainDb hc) k)
      && bool_decide (big_Uint64 (Number c) = k)
      && (bool_decide (k = 0%N)
          || bool_decide (ParentHash c = ReadCanonicalHash (chainDb hc) (k - 1)))
      && match lru_find (headerCache hc) (HashOf c) with
         | Some c' => bool_decide (c' = c)
         | None => true
         end
  end.

(** The canonical chain is a linear path from height 0 to the current
    head: every height up to the head's is in order, the head is the
    canonical header at its height, and no two heights share a hash. *)
Definition linear_chain (hc : HeaderChain) : bool :=
  match currentHeader hc with
  | None => false
  | Some hd =>
      let H := big_Uint64 (Number hd) in
      bool_decide (canonicalHeader (chainDb hc) H = Some hd)
      && forallb (canonical_ok hc) (heights_upto H)
      && bool_decide (NoDup (map (ReadCanonicalHash (chainDb hc)) (heights_upto H)))
  end.

(** What the rewind loop does from height [H] down to height [h+1]: per
    height the callback, when there is one, then the header deletion. *)
Definition rewind_header_events (cb : option DeleteCallback) (db : ChainDb) (H h : N)
    : list Event :=
  flat_map (fun k =>
              match cb with
              | Some _ => [EvDelFn (ReadCanonicalHash db k) k]
              | None => []
              end ++ [EvDeleteHeader (ReadCanonicalHash db k) k])
           (heights_down H h).

(** The deletions the loop puts into the batch. *)
Definition rewind_header_ops (cb : option DeleteCallback) (db : ChainDb) (H h : N)
    : Batch :=
  flat_map (fun k =>
              match cb with
              | Some f => map OpDeleteForeign (f (ReadCanonicalHash db k) k)
              | None => []
              end ++ [OpDeleteHeader (ReadCanonicalHash db k) k])
           (heights_down H h).

(** What a rewind from height [H] to height [h] does, in order: the
    loop over the headers, then the canonical-index deletions. *)
Definition rewind_events (cb : option DeleteCallback) (db : ChainDb) (H h : N)
    : list Event :=
  rewind_header_events cb db H h ++ map EvDeleteCanonicalHash (heights_down H h).

(** The batch such a rewind accumulates. *)
Definition rewind_batch (cb : option DeleteCallback) (db : ChainDb) (H h : N) : Batch :=
  rewind_header_ops cb db H h ++ map OpDeleteCanonicalHash (heights_down H h).

(** [linear_chain], height by height, as the proofs use it. *)
Definition chain_facts (hc : HeaderChain) (H : N) : Prop :=
  (forall k, (k <= H)%N ->
     exists c, canonicalHeader (chainDb hc) k = Some c /\
       HashOf c = ReadCanonicalHash (chainDb hc) k /\
       big_Uint64 (Number c) = k /\
       (k = 0%N \/ ParentHash c = ReadCanonicalHash (chainDb hc) (k - 1)) /\
       (forall v, lru_find (headerCache hc) (ReadCanonicalHash (chainDb hc) k) = Some v ->
                  v = c)) /\
  (forall j k, (j <= H)%N -> (k <= H)%N ->
     ReadCanonicalHash (chainDb hc) j = ReadCanonicalHash (chainDb hc) k -> j = k).

(** The rewind loop started on [hc0], a chain linear up to [H], stands
    at height [k] in state [hc]. *)
Definition rewind_inv (hc0 : HeaderChain) (H : N) (hc : HeaderChain) (k : N) : Prop :=
  chainDb hc = chainDb hc0 /\
  genesisHeader hc = genesisHeader hc0 /\
  currentHeader hc = canonicalHeader (chainDb hc0) k /\
  (forall j v, (j <= H)%N ->
     lru_find (headerCache hc) (ReadCanonicalHash (chainDb hc0) j) = Some v ->
     canonicalHeader (chainDb hc0) j = Some v).

(** The headers the chain knows, each with the hash it is filed under:
    those of the header cache and those of the store. *)
Definition known_headers (hc : HeaderChain) : list (Hash * Header) :=
  lru_items (headerCache hc)
  ++ map (fun e => (fst (fst e), snd e)) (map_to_list (db_headers (chainDb hc))).

(** The known headers form a tree: each is filed under its own hash, a
    header whose hash is another's parent hash has the number one below,
    and no two known headers share a hash. *)
Definition headers_wf (hc : HeaderChain) : bool :=
  let ks := known_headers hc in
  forallb (fun e => bool_decide (HashOf (snd e) = fst e)) ks
  && forallb (fun c =>
       forallb (fun p =>
         (negb (bool_decide (HashOf (snd p) = ParentHash (snd c)))
          || bool_decide (Number (snd p) = Number (snd c) - 1))
         && (negb (bool_decide (HashOf (snd p) = HashOf (snd c)))
             || bool_decide (snd p = snd c))) ks) ks.



(** A state [hc] reached from [hc0] by header lookups: the store is the
    same and the header cache holds known headers of [hc0] only. *)
Definition walk_inv (hc0 hc : HeaderChain) : Prop :=
  chainDb hc = chainDb hc0 /\
  (forall e, In e (lru_items (headerCache hc)) -> In e (known_headers hc0)).

(** A deletion of a batch that touches nothing at or below height [h]:
    a header or a canonical index entry of a number above [h], or a key
    of the collaborators. *)
Definition above_target (h : N) (op : BatchOp) : Prop :=
  match op with
  | OpDeleteHeader _ n => (h < n)%N
  | OpDeleteCanonicalHash n => (h < n)%N
  | OpDeleteForeign _ => True
  end.

(** The [m] heights below [k], nearest first: [k-1], [k-2], ..., [k-m]. *)
Definition heights_below (k : N) (m : nat) : list N :=
  map (fun i => (k - 1 - N.of_nat i)%N) (seq 0 m).

(** A state [hc] reached from [hc0], a chain linear up to [H], by header
    lookups: the store is the same and the header cache holds, under
    canonical hashes, canonical headers only. *)
Definition canonical_cache (hc0 : HeaderChain) (H : N) (hc : HeaderChain) : Prop :=
  chainDb hc = chainDb hc0 /\
  (forall j v, (j <= H)%N ->
     lru_find (headerCache hc) (ReadCanonicalHash (chainDb hc0) j) = Some v ->
     canonicalHeader (chainDb hc0) j = Some v).

End HeaderChain.

(** *** Sample data

    Hashes are numbers of 32 bytes, a header is its parent hash and its
    number, the hash of a header is its number plus 100, and [Hash()]
    of a nil header is 99.  The sample chain is the genesis header and
    three headers on top of it. *)

#[global] Instance sampleHeaders : HeaderSig N (N * Z) := {|
  zeroHash := 0%N;
  HashLength := 32;
  ParentHash := fun hd => fst hd;
  Number := fun hd => snd hd;
  HashOf := fun hd => (Z.to_N (snd hd) + 100)%N;
  nilHash := Some 99%N
|}.

Definition hdr0 : N * Z := (0%N, 0).
Definition hdr1 : N * Z := (100%N, 1).
Definition hdr2 : N * Z := (101%N, 2).
Definition hdr3 : N * Z := (102%N, 3).

(** The header chain is at height 3, the block chain at height 1; the
    collaborators hold data under the keys 1, 2 and 3. *)
Definition sampleChainDb : ChainDb (Hash := N) (Header := N * Z) :=
  mkChainDb
    (list_to_map [((100%N, 0%N), hdr0); ((101%N, 1%N), hdr1);
                  ((102%N, 2%N), hdr2); ((103%N, 3%N), hdr3)])
    (list_to_map [(100%N, 0%N); (101%N, 1%N); (102%N, 2%N); (103%N, 3%N)])
    (list_to_map [(0%N, 100%N); (1%N, 101%N); (2%N, 102%N); (3%N, 103%N)])
    (Some 103%N) (Some 101%N)
    (list_to_set [1%N; 2%N; 3%N]).

(** The chain with its head at the header of height 3, caches empty. *)
Definition sampleChain : HeaderChain (Hash := N) (Header := N * Z) :=
  mkHeaderChain sampleChainDb (Some hdr0) (Some hdr3) 103%N
                (lru_New headerCacheLimit) (lru_New numberCacheLimit).

(** The callback of a collaborator whose data is keyed by the number. *)
Definition sampleDelFn : DeleteCallback (Hash := N) := fun _ number => [number].

(** The chain as [NewHeaderChain] opens it over the sample store: the
    head is the header of the head block, at height 1, while the
    persisted head-header hash is that of height 3. *)
Definition restartedChain : HeaderChain (Hash := N) (Header := N * Z) :=
  mkHeaderChain sampleChainDb (Some hdr0) (Some hdr1) 101%N
                (mkLru headerCacheLimit [(101%N, hdr1); (100%N, hdr0)])
                (mkLru numberCacheLimit [(101%N, 1%N)]).

(** A store from which the headers of heights 1 and 2 are gone. *)
Definition prunedChain : HeaderChain (Hash := N) (Header := N * Z) :=
  mkHeaderChain
    (mkChainDb
       (list_to_map [((100%N, 0%N), hdr0); ((103%N, 3%N), hdr3)])
       (list_to_map [(100%N, 0%N); (103%N, 3%N)])
       (list_to_map [(0%N, 100%N); (3%N, 103%N)])
       (Some 103%N) (Some 103%N) ∅)
    (Some hdr0) (Some hdr3) 103%N
    (lru_New headerCacheLimit) (lru_New numberCacheLimit).

(** A store that lacks the header of height 2 only; its head block is
    the header of height 3. *)
Definition gapChainDb : ChainDb (Hash := N) (Header := N * Z) :=
  mkChainDb
    (list_to_map [((100%N, 0%N), hdr0); ((101%N, 1%N), hdr1); ((103%N, 3%N), hdr3)])
    (list_to_map [(100%N, 0%N); (101%N, 1%N); (103%N, 3%N)])
    (list_to_map [(0%N, 100%N); (1%N, 101%N); (3%N, 103%N)])
    (Some 103%N) (Some 103%N)
    (list_to_set [1%N; 2%N; 3%N]).

(** *** Sample data with a side branch

    Here a header is its own hash, its parent hash and its number.  The
    canonical chain is [a0], [a1], [a2]; the headers [b1] and [b2] form a
    side branch on top of [a0]. *)

#[global] Instance forkHeaders : HeaderSig N (N * N * Z) := {|
  zeroHash := 0%N;
  HashLength := 32;
  ParentHash := fun hd => snd (fst hd);
  Number := fun hd => snd hd;
  HashOf := fun hd => fst (fst hd);
  nilHash := Some 99%N
|}.

Definition b1 : N * N * Z := (201%N, 100%N, 1).
Definition b2 : N * N * Z := (202%N, 201%N, 2).


End Chain.

(** * Part I (c): the full node service, package [server] *)

Module Server.

Section ExtraData.

(** [params.MaximumExtraDataSize], and the RLP encoding of the version,
    the client name, the Go version and the operating system that
    [makeExtraData] falls back on: both come from outside the file. *)
Variable MaximumExtraDataSize : N.
Variable defaultExtraData : list byte.

(** A nil slice is the empty list. *)
Definition makeExtraData (extra : list byte) : list byte :=
  let extra := if (length extra =? 0)%nat then defaultExtraData else extra in
  if (MaximumExtraDataSize <? N.of_nat (length extra))%N then [] else extra.

End ExtraData.

End Server.

(** * Part II (a): properties of the node database *)

Module DiscoverSpec.

Import Discover.

Section KeyCodec.

Context `{NodeSig}.

Lemma bytes_Equal_true (a b : list byte) : bytes_Equal a b = true <-> a = b.
Proof. unfold bytes_Equal. apply bool_decide_eq_true. Qed.

Lemma bytes_Equal_refl (a : list byte) : bytes_Equal a a = true.
Proof. now apply bytes_Equal_true. Qed.

Lemma byte_eqb_refl (b : byte) : Byte.eqb b b = true.
Proof. now apply Byte.byte_dec_lb. Qed.

Lemma bytes_HasPrefix_app (p rest : list byte) : bytes_HasPrefix (p ++ rest) p = true.
Proof.
  induction p as [|b p IH]; simpl; [now destruct rest|].
  now rewrite byte_eqb_refl, IH.
Qed.

Lemma makeKey_nil (field : string) :
  makeKey nodeDBNilNodeID field = list_byte_of_string field.
Proof. unfold makeKey. now rewrite bytes_Equal_refl. Qed.

Lemma splitKey_bare (key : list byte) :
  bytes_HasPrefix key nodeDBItemPrefix = false ->
  splitKey key = Some (nodeDBNilNodeID, string_of_list_byte key).
Proof. intros Hp. unfold splitKey. now rewrite Hp. Qed.

Lemma splitKey_item (id : NodeID) (rest : list byte) :
  length id = idLen ->
  splitKey (nodeDBItemPrefix ++ id ++ rest) = Some (id, string_of_list_byte rest).
Proof.
  intros Hlen. unfold splitKey.
  rewrite bytes_HasPrefix_app. cbn [negb].
  rewrite drop_app_length.
  replace (length (id ++ rest) <? idLen)%nat with false.
  2:{ symmetry. apply Nat.ltb_ge. rewrite length_app. lia. }
  rewrite <- Hlen.
  now rewrite take_app_length, drop_app_length.
Qed.

(** C9, on the code.  [makeKey] returns for the nil identity only, the
    bare field name: for every other identity its body ends without a
    value, so it gives no key, where the claim has the item prefix, the
    identity and the field name.  [splitKey] is not at fault: it reads
    that key back as the identity and the field. *)
Theorem makeKey_returns_for_nil_only (id : NodeID) (field : string) :
  length id = idLen ->
  id <> nodeDBNilNodeID ->
  makeKey_body id field = None /\
  makeKey_body nodeDBNilNodeID field = Some (list_byte_of_string field) /\
  splitKey (nodeDBItemPrefix ++ id ++ list_byte_of_string field) = Some (id, field).
Proof.
  intros Hlen Hne. unfold makeKey_body. rewrite bytes_Equal_refl.
  split; [|split; [reflexivity|]].
  - destruct (bytes_Equal id nodeDBNilNodeID) eqn:Heq; [|reflexivity].
    now apply bytes_Equal_true in Heq.
  - rewrite splitKey_item by exact Hlen.
    now rewrite string_of_list_byte_of_string.
Qed.

(** Where the body of [makeKey] returns, the callers' [makeKey] is that
    value. *)
Lemma makeKey_body_Some (id : NodeID) (field : string) (key : list byte) :
  makeKey_body id field = Some key -> makeKey id field = key.
Proof.
  unfold makeKey_body, makeKey.
  destruct (bytes_Equal id nodeDBNilNodeID); [now intros [= <-] | discriminate].
Qed.

(** The key layout on its own: [makeKey] maps the nil identity to the
    bare field name, [splitKey] reads a bare key that does not start with
    the item prefix back as the nil identity and that field, and
    [splitKey] inverts the prefixed layout: item prefix, identity, field
    name. *)
Theorem splitKey_inverts_key_layout (id : NodeID) (field : string) :
  length id = idLen ->
  makeKey nodeDBNilNodeID field = list_byte_of_string field /\
  (bytes_HasPrefix (list_byte_of_string field) nodeDBItemPrefix = false ->
   splitKey (makeKey nodeDBNilNodeID field) = Some (nodeDBNilNodeID, field)) /\
  splitKey (nodeDBItemPrefix ++ id ++ list_byte_of_string field) = Some (id, field).
Proof.
  intros Hlen. split; [apply makeKey_nil|]. split.
  - intros Hp. rewrite makeKey_nil, splitKey_bare by exact Hp.
    now rewrite string_of_list_byte_of_string.
  - rewrite splitKey_item by exact Hlen.
    now rewrite string_of_list_byte_of_string.
Qed.

End KeyCodec.

Lemma splitKey_inverts_key_layout_sample :
  length idPeer = @idLen sampleSig /\
  @makeKey sampleSig (@nodeDBNilNodeID sampleSig) nodeDBDiscoverRoot
    = list_byte_of_string nodeDBDiscoverRoot /\
  @splitKey sampleSig (@makeKey sampleSig (@nodeDBNilNodeID sampleSig) nodeDBDiscoverRoot)
    = Some (@nodeDBNilNodeID sampleSig, nodeDBDiscoverRoot) /\
  @splitKey sampleSig (nodeDBItemPrefix ++ idPeer ++ list_byte_of_string nodeDBDiscoverRoot)
    = Some (idPeer, nodeDBDiscoverRoot).
Proof.
  split; [reflexivity|].
  destruct (@splitKey_inverts_key_layout sampleSig idPeer nodeDBDiscoverRoot eq_refl)
    as (H1 & H2 & H3).
  split; [exact H1|]. split; [apply H2; reflexivity | exact H3].
Defined.

Lemma makeKey_returns_for_nil_only_sample :
  length idPeer = @idLen sampleSig /\
  idPeer <> @nodeDBNilNodeID sampleSig /\
  @makeKey_body sampleSig idPeer nodeDBDiscoverRoot = None /\
  @makeKey_body sampleSig (@nodeDBNilNodeID sampleSig) nodeDBDiscoverRoot
    = Some (list_byte_of_string nodeDBDiscoverRoot) /\
  @splitKey sampleSig (nodeDBItemPrefix ++ idPeer ++ list_byte_of_string nodeDBDiscoverRoot)
    = Some (idPeer, nodeDBDiscoverRoot).
Proof.
  assert (Hlen : length idPeer = @idLen sampleSig) by reflexivity.
  assert (Hne : idPeer <> @nodeDBNilNodeID sampleSig) by (vm_compute; discriminate).
  split; [exact Hlen|]. split; [exact Hne|].
  exact (@makeKey_returns_for_nil_only sampleSig idPeer nodeDBDiscoverRoot Hlen Hne).
Defined.

(** For the nil identity and a field name that starts with the item
    prefix, [splitKey] does not give the pair back, it runs out of the
    key's bounds. *)
Lemma splitKey_makeKey_prefixed_field :
  @splitKey sampleSig (@makeKey sampleSig (@nodeDBNilNodeID sampleSig) "n:peers"%string)
  = None.
Proof. vm_compute. reflexivity. Qed.

Section Sweep.

Context `{NodeSig}.

Lemma wf_store_cons (e : list byte * list byte) (s : Store) :
  wf_store (e :: s) = true ->
  (exists id field, splitKey (fst e) = Some (id, field)) /\ wf_store s = true.
Proof.
  unfold wf_store. cbn [forallb]. intros Hwf.
  apply andb_true_iff in Hwf as [He Hs]. split; [|exact Hs].
  apply bool_decide_eq_true in He. destruct He as [[id field] He]. eauto.
Qed.

Lemma self_fold_delete (l : Store) (db : nodeDB) :
  self (fold_left (fun d e => with_lvl d (lvl_Delete (lvl d) (fst e))) l db) = self db.
Proof.
  revert db. induction l as [|e l IH]; intros db; cbn [fold_left]; [reflexivity|].
  now rewrite IH.
Qed.

Lemma self_deleteNode (db : nodeDB) (id : NodeID) : self (deleteNode db id) = self db.
Proof. apply self_fold_delete. Qed.

Lemma fold_delete_In (l : Store) :
  forall (db : nodeDB) (e : list byte * list byte),
  In e (lvl (fold_left (fun d x => with_lvl d (lvl_Delete (lvl d) (fst x))) l db)) ->
  In e (lvl db) /\ forall x, In x l -> bytes_Equal (fst e) (fst x) = false.
Proof.
  induction l as [|x l IH]; intros db e; cbn [fold_left].
  - intros Hin. split; [exact Hin | intros y []].
  - intros Hin. apply IH in Hin as [Hin Hrest].
    cbn [with_lvl lvl] in Hin. unfold lvl_Delete in Hin.
    apply filter_In in Hin as [Hin Hne]. split; [exact Hin|].
    intros y [<- | Hy]; [now apply negb_true_iff in Hne | now apply Hrest].
Qed.

(** [deleteNode] leaves entries that were there before, none of them
    under the identity's key prefix. *)
Lemma deleteNode_lvl (db : nodeDB) (id : NodeID) (e : list byte * list byte) :
  In e (lvl (deleteNode db id)) ->
  In e (lvl db) /\ bytes_HasPrefix (fst e) (makeKey id EmptyString) = false.
Proof.
  unfold deleteNode. intros Hin. apply fold_delete_In in Hin as [Hin Hne].
  split; [exact Hin|].
  destruct (bytes_HasPrefix (fst e) (makeKey id EmptyString)) eqn:Hp; [|reflexivity].
  assert (He : In e (lvl_prefix_iterator (lvl db) (makeKey id EmptyString))).
  { unfold lvl_prefix_iterator. apply filter_In. now split. }
  apply Hne in He. now rewrite bytes_Equal_refl in He.
Qed.

Lemma expireNodes_loop_self (th : Z) (it : Store) :
  forall (db : nodeDB) (deleted : list NodeID),
  wf_store it = true ->
  exists db' deleted',
    expireNodes_loop th it db deleted = Some (db', deleted') /\
    self db' = self db /\
    (forall e, In e (lvl db') -> In e (lvl db)) /\
    (In (self db) deleted -> In (self db) deleted') /\
    (forall key, In key (map fst it) ->
       splitKey key = Some (self db, nodeDBDiscoverRoot) ->
       In (self db) deleted' /\
       forall e, In e (lvl db') ->
         bytes_HasPrefix (fst e) (makeKey (self db) EmptyString) = false).
Proof.
  induction it as [|e rest IH]; intros db deleted Hwf.
  - exists db, deleted. cbn [expireNodes_loop map].
    do 2 (split; [reflexivity|]). do 2 (split; [auto|]). intros key [].
  - apply wf_store_cons in Hwf as [(id & field & Hsplit) Hrest].
    cbn [expireNodes_loop]. rewrite Hsplit.
    destruct (String.eqb field nodeDBDiscoverRoot) eqn:Hfield; cbn [negb].
    + destruct (negb (bytes_Equal id (self db)) && time_After (lastPong db id) th)
        eqn:Hskip.
      * destruct (IH db deleted Hrest)
          as (db' & del' & Hrun & Hself & Hsub & Hmono & Hkey).
        exists db', del'. repeat (split; [assumption|]).
        intros key [Hk | Hk] Hs; [|now apply (Hkey key)].
        subst key. rewrite Hsplit in Hs. injection Hs as Hid _. subst id.
        rewrite bytes_Equal_refl in Hskip. discriminate.
      * destruct (IH (deleteNode db id) (deleted ++ [id]) Hrest)
          as (db' & del' & Hrun & Hself & Hsub & Hmono & Hkey).
        rewrite self_deleteNode in Hself, Hmono, Hkey.
        exists db', del'. split; [exact Hrun|]. split; [exact Hself|]. split; [|split].
        -- intros x Hx. now apply Hsub, deleteNode_lvl in Hx as [Hx _].
        -- intros Hin. apply Hmono, in_or_app. now left.
        -- intros key [Hk | Hk] Hs; [|now apply (Hkey key)].
           subst key. rewrite Hsplit in Hs. injection Hs as Hid _. subst id. split.
           ++ apply Hmono, in_or_app. right. now left.
           ++ intros x Hx. now apply Hsub, deleteNode_lvl in Hx as [_ Hx].
    + destruct (IH db deleted Hrest)
        as (db' & del' & Hrun & Hself & Hsub & Hmono & Hkey).
      exists db', del'. repeat (split; [assumption|]).
      intros key [Hk | Hk] Hs; [|now apply (Hkey key)].
      subst key. rewrite Hsplit in Hs. injection Hs as _ Hf. subst field.
      now rewrite String.eqb_refl in Hfield.
Qed.

(** C1 (amended). When the store holds a node record under the local
    node's own identity, the sweep calls [deleteNode] on that identity,
    whatever its last-pong time, and no entry under that identity's key
    prefix is left afterwards: the freshness test guards the records of
    other identities only. *)
Theorem expireNodes_deletes_self (now : Z) (db : nodeDB) (key : list byte) :
  wf_store (lvl db) = true ->
  In key (map fst (lvl db)) ->
  splitKey key = Some (self db, nodeDBDiscoverRoot) ->
  exists db' deleted,
    expireNodes now db = Some (db', deleted) /\
    In (self db) deleted /\
    forall e, In e (lvl db') ->
      bytes_HasPrefix (fst e) (makeKey (self db) EmptyString) = false.
Proof.
  intros Hwf Hin Hsplit. unfold expireNodes.
  destruct (expireNodes_loop_self (time_Add now (- nodeDBNodeExpiration))
              (lvl db) db [] Hwf) as (db' & del' & Hrun & _ & _ & _ & Hkey).
  exists db', del'. split; [exact Hrun|]. now apply (Hkey key).
Qed.

End Sweep.

Lemma expireNodes_deletes_self_sample :
  @wf_store sampleSig (lvl sampleDB) = true /\
  In (@makeKey sampleSig idSelf nodeDBDiscoverRoot) (map fst (lvl sampleDB)) /\
  @splitKey sampleSig (@makeKey sampleSig idSelf nodeDBDiscoverRoot)
    = Some (self sampleDB, nodeDBDiscoverRoot) /\
  exists db' deleted,
    @expireNodes sampleSig sampleNow sampleDB = Some (db', deleted) /\
    In (self sampleDB) deleted /\
    forall e, In e (lvl db') ->
      bytes_HasPrefix (fst e) (@makeKey sampleSig (self sampleDB) EmptyString) = false.
Proof.
  assert (Hwf : @wf_store sampleSig (lvl sampleDB) = true) by (vm_compute; reflexivity).
  assert (Hin : In (@makeKey sampleSig idSelf nodeDBDiscoverRoot) (map fst (lvl sampleDB))).
  { cbn. right. right. right. right. now left. }
  assert (Hsplit : @splitKey sampleSig (@makeKey sampleSig idSelf nodeDBDiscoverRoot)
                   = Some (self sampleDB, nodeDBDiscoverRoot)) by (vm_compute; reflexivity).
  repeat (split; [assumption|]).
  exact (@expireNodes_deletes_self sampleSig sampleNow sampleDB _ Hwf Hin Hsplit).
Defined.

(** C1, as stated, fails.  The local node's own record answered a pong
    60 seconds before the sweep, well after the threshold, and the sweep
    still calls [deleteNode] on its identity and removes its entries: the
    fresh record of the peer is the only one left.  The same happens with
    the nil identity as the local one, where every key is a bare field
    name and [deleteNode] empties the store. *)
Lemma expireNodes_removes_fresh_self :
  time_After (@lastPong sampleSig sampleDB idSelf)
             (time_Add sampleNow (- nodeDBNodeExpiration)) = true /\
  @expireNodes sampleSig sampleNow sampleDB
    = Some (mkNodeDB sampleSwept idSelf false false, [idOld; idSelf]) /\
  time_After (@lastPong sampleSig nilSelfDB (@nodeDBNilNodeID sampleSig))
             (time_Add sampleNow (- nodeDBNodeExpiration)) = true /\
  @expireNodes sampleSig sampleNow nilSelfDB
    = Some (mkNodeDB [] (@nodeDBNilNodeID sampleSig) false false,
            [@nodeDBNilNodeID sampleSig]).
Proof. repeat split; vm_compute; reflexivity. Qed.

Section Seeds.

Context `{NodeSig}.

Lemma wf_store_Seek (s : Store) (key : list byte) :
  wf_store s = true -> wf_store (lvl_Seek s key) = true.
Proof.
  induction s as [|e s IH]; intros Hwf; cbn [lvl_Seek]; [reflexivity|].
  destruct (bytes_Compare (fst e) key); try exact Hwf.
  apply IH. unfold wf_store in *. cbn [forallb] in Hwf.
  now apply andb_true_iff in Hwf as [_ Hs].
Qed.

Lemma nextNode_total (it : Store) :
  wf_store it = true -> exists r, nextNode it = Some r.
Proof.
  induction it as [|e rest IH]; intros Hwf; cbn [nextNode]; [eauto|].
  apply wf_store_cons in Hwf as [(id & field & Hsplit) Hrest].
  rewrite Hsplit.
  destruct (negb (String.eqb field nodeDBDiscoverRoot)); [now apply IH|].
  destruct (rlp_DecodeNode (snd e)); [eauto | now apply IH].
Qed.

Lemma existsb_Node_ID_false (nd : Node) (nodes : list Node) :
  existsb (fun m => bytes_Equal (Node_ID m) (Node_ID nd)) nodes = false ->
  ~ In (Node_ID nd) (map Node_ID nodes).
Proof.
  intros Hex Hin. apply in_map_iff in Hin as (m & Hm & Hin).
  assert (Htrue : existsb (fun m => bytes_Equal (Node_ID m) (Node_ID nd)) nodes = true).
  { apply existsb_exists. exists m. split; [exact Hin|]. now apply bytes_Equal_true. }
  congruence.
Qed.

Lemma selected_ok_snoc (now maxAge n : Z) (db : nodeDB) (nodes : list Node) (nd : Node) :
  selected_ok now maxAge n db nodes ->
  (Z.of_nat (length nodes) <? n) = true ->
  bytes_Equal (Node_ID nd) (self db) = false ->
  (maxAge <? time_Sub now (lastPong db (Node_ID nd))) = false ->
  existsb (fun m => bytes_Equal (Node_ID m) (Node_ID nd)) nodes = false ->
  selected_ok now maxAge n db (nodes ++ [nd]).
Proof.
  intros (Hlen & Hnd & Hself & Hfresh) Hlt Hne Hage Hnew.
  apply Z.ltb_lt in Hlt. apply Z.ltb_ge in Hage.
  apply existsb_Node_ID_false in Hnew.
  unfold selected_ok. rewrite length_app, map_app. cbn [length map].
  split; [lia|]. split; [|split].
  - apply NoDup_app. split; [exact Hnd|]. split.
    + intros x Hx Hx'. apply list_elem_of_In in Hx.
      apply list_elem_of_singleton in Hx'. subst x. contradiction.
    + apply NoDup_singleton.
  - intros Hin. apply in_app_or in Hin as [Hin | [Heq | []]]; [contradiction|].
    assert (bytes_Equal (Node_ID nd) (self db) = true) by now apply bytes_Equal_true.
    congruence.
  - apply Forall_app. split; [exact Hfresh|]. constructor; [exact Hage | constructor].
Qed.

Lemma querySeeds_loop_sound (rnd : nat -> NodeID) (now maxAge n : Z) (db : nodeDB) :
  wf_store (lvl db) = true ->
  forall (k seeks : nat) (id : NodeID) (nodes : list Node),
  selected_ok now maxAge n db nodes ->
  exists nodes' seeks',
    querySeeds_loop rnd now maxAge n db k seeks id nodes = Some (nodes', seeks') /\
    selected_ok now maxAge n db nodes' /\
    (seeks' <= seeks + k)%nat.
Proof.
  intros Hwf. induction k as [|k IH]; intros seeks id nodes Hok.
  - exists nodes, seeks. cbn. split; [reflexivity|]. split; [exact Hok | lia].
  - cbn [querySeeds_loop].
    destruct (Z.of_nat (length nodes) <? n) eqn:Hlt; cbn [negb].
    2:{ exists nodes, seeks. split; [reflexivity|]. split; [exact Hok | lia]. }
    set (id' := set_first (rnd seeks)
                  (byte_add (hd Byte.x00 id) (byte_mod16 (hd Byte.x00 (rnd seeks))))).
    destruct (nextNode_total (lvl_Seek (lvl db) (makeKey id' nodeDBDiscoverRoot))
                (wf_store_Seek _ _ Hwf)) as [r Hr].
    rewrite Hr. destruct r as [nd|].
    + destruct (bytes_Equal (Node_ID nd) (self db)) eqn:Hself.
      { destruct (IH (S seeks) id' nodes Hok) as (ns & sk & Hrun & Hok' & Hsk).
        exists ns, sk. split; [exact Hrun|]. split; [exact Hok' | lia]. }
      destruct (maxAge <? time_Sub now (lastPong db (Node_ID nd))) eqn:Hage.
      { destruct (IH (S seeks) id' nodes Hok) as (ns & sk & Hrun & Hok' & Hsk).
        exists ns, sk. split; [exact Hrun|]. split; [exact Hok' | lia]. }
      destruct (existsb (fun m => bytes_Equal (Node_ID m) (Node_ID nd)) nodes) eqn:Hdup.
      { destruct (IH (S seeks) id' nodes Hok) as (ns & sk & Hrun & Hok' & Hsk).
        exists ns, sk. split; [exact Hrun|]. split; [exact Hok' | lia]. }
      destruct (IH (S seeks) id' (nodes ++ [nd])
                  (selected_ok_snoc _ _ _ _ _ _ Hok Hlt Hself Hage Hdup))
        as (ns & sk & Hrun & Hok' & Hsk).
      exists ns, sk. split; [exact Hrun|]. split; [exact Hok' | lia].
    + destruct (IH (S seeks) (set_first id' Byte.x00) nodes Hok)
        as (ns & sk & Hrun & Hok' & Hsk).
      exists ns, sk. split; [exact Hrun|]. split; [exact Hok' | lia].
Qed.

Lemma makeslice_ok_intro (size cap : Z) :
  0 <= cap -> size * cap <= maxAlloc -> makeslice_ok size cap = true.
Proof.
  intros Hcap Hmem. unfold makeslice_ok.
  apply andb_true_iff. split; [now apply Z.leb_le | now apply Z.leb_le].
Qed.

Lemma makeslice_ok_elim (size cap : Z) :
  makeslice_ok size cap = true -> 0 <= cap /\ size * cap <= maxAlloc.
Proof.
  unfold makeslice_ok. intros Hok. apply andb_true_iff in Hok as [Hcap Hmem].
  split; [now apply Z.leb_le | now apply Z.leb_le].
Qed.

Lemma wrap_int64_le (z : Z) : 0 <= z -> wrap_int64 z <= z.
Proof.
  intros Hz. unfold wrap_int64.
  assert (Hm : (z + 2 ^ 63) mod 2 ^ 64 <= z + 2 ^ 63) by (apply Z.mod_le; lia).
  lia.
Qed.

(** C8 (amended). For a count [n] that is not negative and that the
    runtime allocates a slice of pointers for, over a store whose keys
    follow the persisted layout, [querySeeds] returns (it does not panic)
    at most [n] nodes, pairwise distinct by identity, none the local
    node, each with a last pong at most [maxAge] before [now]; it makes
    at most [5*n] seeks. *)
Theorem querySeeds_sound (rnd : nat -> NodeID) (now : Z) (db : nodeDB) (n maxAge : Z) :
  0 <= n ->
  ptrSize * n <= maxAlloc ->
  wf_store (lvl db) = true ->
  exists nodes seeks,
    querySeeds rnd now db n maxAge = Some (nodes, seeks) /\
    Z.of_nat (length nodes) <= n /\
    NoDup (map Node_ID nodes) /\
    ~ In (self db) (map Node_ID nodes) /\
    Forall (fun nd => time_Sub now (lastPong db (Node_ID nd)) <= maxAge) nodes /\
    Z.of_nat seeks <= 5 * n.
Proof.
  intros Hn Hcap Hwf. unfold querySeeds.
  rewrite (makeslice_ok_intro ptrSize n Hn Hcap). cbn [negb].
  assert (Hinit : selected_ok now maxAge n db []).
  { unfold selected_ok. cbn [length map].
    split; [lia|]. split; [constructor|]. split; [intros []|constructor]. }
  destruct (querySeeds_loop_sound rnd now maxAge n db Hwf
              (Z.to_nat (wrap_int64 (n * 5))) 0%nat nodeDBNilNodeID [] Hinit)
    as (nodes & seeks & Hrun & (Hlen & Hnd & Hself & Hfresh) & Hsk).
  exists nodes, seeks. repeat (split; [assumption|]).
  pose proof (wrap_int64_le (n * 5) ltac:(lia)). lia.
Qed.

End Seeds.

Lemma querySeeds_sound_sample :
  0 <= 3 /\
  ptrSize * 3 <= maxAlloc /\
  @wf_store sampleSig (lvl sampleDB) = true /\
  exists nodes seeks,
    @querySeeds sampleSig (fun _ => idPeer) sampleNow sampleDB 3 Hour
      = Some (nodes, seeks) /\
    Z.of_nat (length nodes) <= 3 /\
    NoDup (map (@Node_ID sampleSig) nodes) /\
    ~ In (self sampleDB) (map (@Node_ID sampleSig) nodes) /\
    Forall (fun nd => time_Sub sampleNow (@lastPong sampleSig sampleDB (@Node_ID sampleSig nd))
                      <= Hour) nodes /\
    Z.of_nat seeks <= 5 * 3.
Proof.
  assert (Hn : 0 <= 3) by lia.
  assert (Hcap : ptrSize * 3 <= maxAlloc) by (vm_compute; discriminate).
  assert (Hwf : @wf_store sampleSig (lvl sampleDB) = true) by (vm_compute; reflexivity).
  split; [exact Hn|]. split; [exact Hcap|]. split; [exact Hwf|].
  exact (@querySeeds_sound sampleSig (fun _ => idPeer) sampleNow sampleDB 3 Hour
           Hn Hcap Hwf).
Defined.

(** C8, as stated for every [n], fails at a negative count and at a
    count too large for a slice: allocating the result slice panics,
    before any seek. *)
Lemma querySeeds_negative_count :
  @querySeeds sampleSig (fun _ => idPeer) sampleNow sampleDB (-1) Hour = None /\
  @querySeeds sampleSig (fun _ => idPeer) sampleNow sampleDB (2 ^ 61) Hour = None.
Proof. split; reflexivity. Qed.

Section Expirer.

Context `{NodeSig}.

Lemma expirer_turn_stays (c : channel) (now : Z) (s s' : system) :
  sys_expirer s = InSelect ->
  expirer_turn c now s = Some s' ->
  sys_expirer s' = InSelect.
Proof.
  intros Hs. unfold expirer_turn. rewrite Hs.
  destruct c; cbn.
  - destruct (quit (sys_db s)).
    + intros [= <-]. reflexivity.
    + destruct (expireNodes now (sys_db s)) as [[db' d]|]; [|discriminate].
      intros [= <-]. reflexivity.
  - intros [= <-]. exact Hs.
Qed.

(** Once started, the expirer is in its [select] after every event: no
    event makes it return. *)
Lemma expirer_never_returns (es : list event) :
  forall s s' : system,
  sys_expirer s = InSelect ->
  run s es = Some s' ->
  sys_expirer s' = InSelect.
Proof.
  induction es as [|e es IH]; intros s s' Hs; cbn [run].
  - intros [= <-]. exact Hs.
  - destruct (step s e) as [s1|] eqn:Hstep; [|discriminate].
    apply IH. destruct e as [| |c now]; cbn [step] in Hstep.
    + injection Hstep as <-. unfold ensureExpirer.
      destruct (runner (sys_db s)); [exact Hs | reflexivity].
    + unfold close in Hstep. destruct (quit (sys_db s)); [discriminate|].
      injection Hstep as <-. exact Hs.
    + destruct c.
      * now apply (expirer_turn_stays TickC now s).
      * destruct (quit (sys_db s)).
        -- now apply (expirer_turn_stays QuitC now s).
        -- injection Hstep as <-. exact Hs.
Qed.

(** C2, on the code: the expirer is started, [close] closes the quit
    channel, the channel is ready, the ticker fires.  The expirer is
    still in its [select], and the tick after the close ran one more
    sweep. *)
Theorem expirer_survives_close (s : Store) (me : NodeID) (t1 t2 : Z) :
  run (mkSystem (mkNodeDB s me false false) NotStarted 0)
      [CallEnsureExpirer; CallClose; Ready QuitC t1; Ready TickC t2]
  = Some (mkSystem (mkNodeDB s me true true) InSelect 1).
Proof. reflexivity. Qed.

End Expirer.

(** ** The integer codec

    [PutVarint] and [Varint] are inverse on [int64]: the zig-zag word is
    cut into groups of seven bits, least significant first. *)

Section Codec.

Lemma to_N_default_of_N (n : N) :
  (n < 256)%N -> Byte.to_N (default Byte.x00 (Byte.of_N n)) = n.
Proof.
  intros Hn. destruct (Byte.of_N n) as [b|] eqn:Hb; cbn [default].
  - now apply Byte.to_of_N.
  - apply Byte.of_N_None_iff in Hb. lia.
Qed.

Lemma Z_of_byte_default (v : Z) :
  0 <= v < 256 -> Z.of_N (Byte.to_N (default Byte.x00 (Byte.of_N (Z.to_N v)))) = v.
Proof. intros Hv. rewrite to_N_default_of_N by lia. lia. Qed.

(** A property of every 7-bit value, checked value by value. *)
Lemma forall_below_128 (P : Z -> bool) :
  forallb P (map Z.of_nat (seq 0 128)) = true ->
  forall m, 0 <= m < 128 -> P m = true.
Proof.
  intros Hall m Hm. rewrite forallb_forall in Hall. apply Hall.
  apply in_map_iff. exists (Z.to_nat m). split; [lia|]. apply in_seq. lia.
Qed.

(** A group with the continuation bit set is a byte of 128 or more, and
    masking the bit off gives the group back. *)
Lemma continuation_byte (m : Z) :
  0 <= m < 128 ->
  128 <= Z.lor m 128 < 256 /\ Z.land (Z.lor m 128) 127 = m.
Proof.
  intros Hm.
  pose proof (forall_below_128
    (fun m => (128 <=? Z.lor m 128) && (Z.lor m 128 <? 256)
              && (Z.land (Z.lor m 128) 127 =? m))
    ltac:(vm_compute; reflexivity) m Hm) as Hp.
  cbn beta in Hp. apply andb_true_iff in Hp as [Hp Hland].
  apply andb_true_iff in Hp as [Hlo Hhi]. lia.
Qed.

Lemma low7_high (x : Z) :
  0 <= x -> Z.lor (x mod 128) (Z.shiftl (Z.shiftr x 7) 7) = x.
Proof.
  intros Hx. apply Z.bits_inj'. intros n Hn. rewrite Z.lor_spec.
  change 128 with (2 ^ 7). destruct (Z.ltb_spec n 7).
  - rewrite Z.mod_pow2_bits_low, Z.shiftl_spec_low by lia. apply orb_false_r.
  - rewrite Z.mod_pow2_bits_high, Z.shiftl_spec, Z.shiftr_spec by lia.
    cbn [orb]. f_equal. lia.
Qed.

(** The decoder at byte [i], having read the low [7*i] bits into [acc],
    reads the encoding of the remaining bits [x] back. *)
Lemma Uvarint_loop_PutUvarint (k : nat) :
  forall (i : nat) (x acc : Z) (rest : list byte),
  (i + k = MaxVarintLen64)%nat ->
  (1 <= k)%nat ->
  0 <= x < 2 ^ (64 - 7 * Z.of_nat i) ->
  Uvarint_loop (PutUvarint_loop k x ++ rest) i acc (7 * Z.of_nat i)
  = (wrap_uint64 (Z.lor acc (Z.shiftl x (7 * Z.of_nat i))),
     Z.of_nat i + Z.of_nat (length (PutUvarint_loop k x))).
Proof.
  unfold MaxVarintLen64.
  induction k as [|k IH]; intros i x acc rest Hik Hk Hx; [lia|].
  cbn [PutUvarint_loop]. destruct (128 <=? x) eqn:Hbig.
  - apply Z.leb_le in Hbig.
    assert (Hi : (i <= 8)%nat).
    { destruct (le_gt_dec i 8) as [Hle|Hgt]; [exact Hle|exfalso].
      assert (i = 9%nat) by lia. subst i. cbn in Hx. lia. }
    assert (Hm : 0 <= x mod 128 < 128) by (apply Z.mod_pos_bound; lia).
    destruct (continuation_byte _ Hm) as [Hrange Hland].
    cbn [app Uvarint_loop length]. unfold MaxVarintLen64.
    replace (Nat.eqb i 10) with false by (symmetry; apply Nat.eqb_neq; lia).
    rewrite Z_of_byte_default by lia.
    replace (Z.lor (x mod 128) 128 <? 128) with false
      by (symmetry; apply Z.ltb_ge; lia).
    rewrite Hland.
    replace (7 * Z.of_nat i + 7) with (7 * Z.of_nat (S i)) by lia.
    rewrite IH; [| lia | lia |].
    2:{ rewrite Z.shiftr_div_pow2 by lia. split; [apply Z.div_pos; lia|].
        apply Z.div_lt_upper_bound; [lia|].
        replace (2 ^ 7 * 2 ^ (64 - 7 * Z.of_nat (S i)))
          with (2 ^ (64 - 7 * Z.of_nat i)); [lia|].
        rewrite <- Z.pow_add_r by lia. f_equal. lia. }
    f_equal; [|lia]. f_equal.
    rewrite <- Z.lor_assoc. f_equal.
    replace (7 * Z.of_nat (S i)) with (7 + 7 * Z.of_nat i) by lia.
    rewrite <- Z.shiftl_shiftl by lia. rewrite <- Z.shiftl_lor.
    now rewrite low7_high by lia.
  - apply Z.leb_gt in Hbig.
    cbn [app Uvarint_loop length]. unfold MaxVarintLen64.
    replace (Nat.eqb i 10) with false by (symmetry; apply Nat.eqb_neq; lia).
    rewrite Z_of_byte_default by lia.
    replace (x <? 128) with true by (symmetry; apply Z.ltb_lt; lia).
    replace (Nat.eqb i (10 - 1) && (1 <? x)) with false; [f_equal; lia|].
    symmetry. apply andb_false_iff.
    destruct (Nat.eqb i (10 - 1)) eqn:Hi; [right | now left].
    apply Nat.eqb_eq in Hi. cbn in Hi. subst i. cbn in Hx. apply Z.ltb_ge. lia.
Qed.

Lemma PutUvarint_loop_length (k : nat) (x : Z) :
  (1 <= k)%nat -> (1 <= length (PutUvarint_loop k x) <= k)%nat.
Proof.
  revert x. induction k as [|k IH]; intros x Hk; [lia|].
  cbn [PutUvarint_loop]. destruct (128 <=? x); cbn [length]; [|lia].
  destruct k as [|k]; [cbn; lia|]. specialize (IH (Z.shiftr x 7) ltac:(lia)). lia.
Qed.

Lemma Uvarint_PutUvarint (ux : Z) (rest : list byte) :
  0 <= ux < 2 ^ 64 ->
  Uvarint (PutUvarint_loop MaxVarintLen64 ux ++ rest)
  = (ux, Z.of_nat (length (PutUvarint_loop MaxVarintLen64 ux))).
Proof.
  intros Hux. unfold Uvarint.
  change 0 with (7 * Z.of_nat 0) at 2.
  rewrite Uvarint_loop_PutUvarint; [| reflexivity | unfold MaxVarintLen64; lia | cbn; lia].
  cbn [Z.of_nat Z.mul Z.add]. rewrite Z.shiftl_0_r, Z.lor_0_l.
  unfold wrap_uint64. now rewrite Z.mod_small by lia.
Qed.

(** The signed encoding inverts: the bytes written for an [int64] decode
    to it, and between one and ten bytes are read. *)
Lemma Varint_PutVarint (x : Z) (rest : list byte) :
  - 2 ^ 63 <= x < 2 ^ 63 ->
  exists n, Varint (PutVarint x ++ rest) = (x, n) /\ 1 <= n <= 10.
Proof.
  intros Hx. unfold PutVarint, Varint.
  set (ux := if x <? 0 then wrap_uint64 (Z.lnot (wrap_uint64 (Z.shiftl x 1)))
             else wrap_uint64 (Z.shiftl x 1)).
  assert (Hux : 0 <= ux < 2 ^ 64 /\ ux = if x <? 0 then - 2 * x - 1 else 2 * x).
  { unfold ux, wrap_uint64. rewrite Z.shiftl_mul_pow2 by lia. change (2 ^ 1) with 2.
    destruct (x <? 0) eqn:Hneg.
    - apply Z.ltb_lt in Hneg.
      assert (Hm : (x * 2) mod 2 ^ 64 = x * 2 + 2 ^ 64).
      { symmetry. apply (Z.mod_unique _ _ (-1)); lia. }
      rewrite Hm. unfold Z.lnot.
      assert (Hm2 : Z.pred (- (x * 2 + 2 ^ 64)) mod 2 ^ 64 = - 2 * x - 1).
      { symmetry. apply (Z.mod_unique _ _ (-1)); lia. }
      rewrite Hm2. lia.
    - apply Z.ltb_ge in Hneg. rewrite Z.mod_small by lia. lia. }
  destruct Hux as [Hrange Hval].
  rewrite Uvarint_PutUvarint by exact Hrange.
  pose proof (PutUvarint_loop_length MaxVarintLen64 ux ltac:(unfold MaxVarintLen64; lia))
    as Hlen. unfold MaxVarintLen64 in Hlen.
  exists (Z.of_nat (length (PutUvarint_loop MaxVarintLen64 ux))).
  split; [|unfold MaxVarintLen64; lia].
  f_equal. rewrite Z.shiftr_div_pow2 by lia. change (2 ^ 1) with 2.
  rewrite Z.bit0_odd. rewrite Hval. destruct (x <? 0) eqn:Hneg.
  - replace (- 2 * x - 1) with (1 + 2 * (- x - 1)) by lia.
    rewrite Z.odd_add_mul_2. cbn [Z.odd].
    replace ((1 + 2 * (- x - 1)) / 2) with (- x - 1); [lia|].
    apply (Z.div_unique _ _ _ 1); lia.
  - rewrite Z.odd_mul, andb_false_l by reflexivity || idtac.
    rewrite Z.mul_comm, Z.div_mul by lia. reflexivity.
Qed.

(** *** Big-endian words *)

Lemma Z_of_byte_of_Z (v : Z) : Z_of_byte (byte_of_Z v) = v mod 2 ^ 8.
Proof.
  unfold Z_of_byte, byte_of_Z. change 256 with (2 ^ 8).
  pose proof (Z.mod_pos_bound v (2 ^ 8) ltac:(lia)).
  apply Z_of_byte_default. change 256 with (2 ^ 8). lia.
Qed.

Lemma Z_of_byte_range (b : byte) : 0 <= Z_of_byte b < 256.
Proof. unfold Z_of_byte. pose proof (Byte.to_N_bounded b). lia. Qed.

(** Bit [n] of the byte of [v] at offset [s], put back at its offset. *)
Lemma testbit_byte_field (v s n : Z) :
  0 <= s -> 0 <= n ->
  Z.testbit (Z.shiftl (Z.shiftr v s mod 2 ^ 8) s) n
  = (s <=? n) && (n <? s + 8) && Z.testbit v n.
Proof.
  intros Hs Hn. destruct (Z.leb_spec s n); cbn [andb].
  - rewrite Z.shiftl_spec by lia. destruct (Z.ltb_spec n (s + 8)); cbn [andb].
    + rewrite Z.mod_pow2_bits_low, Z.shiftr_spec by lia. f_equal. lia.
    + now rewrite Z.mod_pow2_bits_high by lia.
  - now rewrite Z.shiftl_spec_low by lia.
Qed.

Lemma BigEndian_Uint32_PutUint32 (v : Z) (rest : list byte) :
  0 <= v < 2 ^ 32 ->
  BigEndian_Uint32 (BigEndian_PutUint32 v ++ rest) = Some v.
Proof.
  intros Hv. unfold BigEndian_PutUint32. cbn [app BigEndian_Uint32]. f_equal.
  rewrite !Z_of_byte_of_Z.
  rewrite <- (Z.shiftl_0_r (v mod 2 ^ 8)). rewrite <- (Z.shiftr_0_r v) at 1.
  apply Z.bits_inj'. intros n Hn.
  rewrite !Z.lor_spec, !testbit_byte_field by lia.
  destruct (Z.ltb_spec n 32).
  - destruct (Z.testbit v n); [|now rewrite !andb_false_r].
    rewrite !andb_true_r.
    destruct (Z.leb_spec 0 n), (Z.ltb_spec n (0 + 8)), (Z.leb_spec 8 n),
      (Z.ltb_spec n (8 + 8)), (Z.leb_spec 16 n), (Z.ltb_spec n (16 + 8)),
      (Z.leb_spec 24 n), (Z.ltb_spec n (24 + 8)); cbn; try reflexivity; lia.
  - assert (Hhigh : Z.testbit v n = false).
    { rewrite <- (Z.mod_small v (2 ^ 32)) by lia. apply Z.mod_pow2_bits_high. lia. }
    rewrite Hhigh. now rewrite !andb_false_r.
Qed.

Lemma BigEndian_PutUint32_length (v : Z) : length (BigEndian_PutUint32 v) = 4%nat.
Proof. reflexivity. Qed.

Lemma BigEndian_Uint32_range (b : list byte) (v : Z) :
  BigEndian_Uint32 b = Some v -> 0 <= v < 2 ^ 32.
Proof.
  destruct b as [|b0 [|b1 [|b2 [|b3 b]]]]; try discriminate.
  cbn [BigEndian_Uint32]. intros [= <-].
  pose proof (Z_of_byte_range b0). pose proof (Z_of_byte_range b1).
  pose proof (Z_of_byte_range b2). pose proof (Z_of_byte_range b3).
  assert (Hlor : forall x y, 0 <= x -> 0 <= y -> 0 <= Z.lor x y <= x + y).
  { intros x y Hx Hy. pose proof (Z.add_lor_land x y).
    assert (0 <= Z.land x y) by (apply Z.land_nonneg; lia).
    assert (0 <= Z.lor x y) by (apply Z.lor_nonneg; lia). lia. }
  rewrite !Z.shiftl_mul_pow2 by lia.
  pose proof (Hlor (Z_of_byte b3) (Z_of_byte b2 * 2 ^ 8) ltac:(lia) ltac:(lia)).
  pose proof (Hlor (Z.lor (Z_of_byte b3) (Z_of_byte b2 * 2 ^ 8))
                   (Z_of_byte b1 * 2 ^ 16) ltac:(lia) ltac:(lia)).
  pose proof (Hlor (Z.lor (Z.lor (Z_of_byte b3) (Z_of_byte b2 * 2 ^ 8))
                          (Z_of_byte b1 * 2 ^ 16))
                   (Z_of_byte b0 * 2 ^ 24) ltac:(lia) ltac:(lia)).
  lia.
Qed.

End Codec.

(** ** The store *)

Section StoreFacts.

Lemma byte_to_N_inj (x y : byte) : Byte.to_N x = Byte.to_N y -> x = y.
Proof.
  intros Heq. pose proof (Byte.of_to_N x) as Hx. rewrite Heq, Byte.of_to_N in Hx.
  now injection Hx.
Qed.

Lemma bytes_Compare_Eq (a b : list byte) : bytes_Compare a b = Eq -> a = b.
Proof.
  revert b. induction a as [|x a IH]; intros [|y b]; cbn [bytes_Compare];
    try discriminate; [reflexivity|].
  destruct (N.compare_spec (Byte.to_N x) (Byte.to_N y)) as [Hxy| |]; try discriminate.
  intros Hab. apply byte_to_N_inj in Hxy. apply IH in Hab. now subst.
Qed.

Lemma bytes_Compare_refl (a : list byte) : bytes_Compare a a = Eq.
Proof.
  induction a as [|x a IH]; [reflexivity|]. cbn [bytes_Compare].
  now rewrite N.compare_refl.
Qed.

Lemma bytes_Equal_false (a b : list byte) : bytes_Equal a b = false <-> a <> b.
Proof. unfold bytes_Equal. apply bool_decide_eq_false. Qed.

Lemma bytes_HasPrefix_nil (s : list byte) : bytes_HasPrefix s [] = true.
Proof. now destruct s. Qed.

(** Reading after writing: the key written reads the value written,
    every other key reads as before. *)
Lemma lvl_Get_Put (s : Store) (k v k' : list byte) :
  lvl_Get (lvl_Put s k v) k' = if bytes_Equal k k' then Some v else lvl_Get s k'.
Proof.
  unfold lvl_Get. induction s as [|e s IH]; cbn [lvl_Put find fst snd].
  - now destruct (bytes_Equal k k').
  - destruct (bytes_Compare (fst e) k) eqn:Hc; cbn [find fst snd].
    + apply bytes_Compare_Eq in Hc. rewrite Hc.
      now destruct (bytes_Equal k k').
    + assert (Hne : fst e <> k).
      { intros Heq. rewrite Heq, bytes_Compare_refl in Hc. discriminate. }
      destruct (bytes_Equal (fst e) k') eqn:He.
      * apply bytes_Equal_true in He.
        replace (bytes_Equal k k') with false; [reflexivity|].
        symmetry. apply bytes_Equal_false. congruence.
      * exact IH.
    + now destruct (bytes_Equal k k').
Qed.

(** Removing entries by key: a key that stays reads as before, a key
    removed reads as missing. *)
Lemma lvl_Get_filter (keep : list byte -> bool) (s : Store) (k : list byte) :
  lvl_Get (List.filter (fun e => keep (fst e)) s) k
  = if keep k then lvl_Get s k else None.
Proof.
  unfold lvl_Get. induction s as [|e s IH]; cbn [List.filter find].
  - now destruct (keep k).
  - destruct (keep (fst e)) eqn:Hk; cbn [find].
    + destruct (bytes_Equal (fst e) k) eqn:He; [|exact IH].
      apply bytes_Equal_true in He. now rewrite <- He, Hk.
    + destruct (bytes_Equal (fst e) k) eqn:He; [|exact IH].
      apply bytes_Equal_true in He. rewrite <- He, Hk in IH |- *. exact IH.
Qed.

Lemma List_filter_sublist (A : Type) (f : A -> bool) (l : list A) :
  sublist (List.filter f l) l.
Proof.
  induction l as [|a l IH]; [constructor|]. cbn [List.filter].
  destruct (f a); constructor; exact IH.
Qed.

End StoreFacts.

(** ** The fields of a node *)

Section Fields.

Context `{NodeSig}.

Lemma fetchInt64_after_store (db : nodeDB) (key key' : list byte) (n : Z) :
  - 2 ^ 63 <= n < 2 ^ 63 ->
  fetchInt64 (storeInt64 db key n) key'
  = if bytes_Equal key key' then n else fetchInt64 db key'.
Proof.
  intros Hn. unfold fetchInt64, storeInt64. cbn [with_lvl lvl].
  rewrite lvl_Get_Put. destruct (bytes_Equal key key'); [|reflexivity].
  destruct (Varint_PutVarint n [] Hn) as (read & Hdec & Hread).
  rewrite app_nil_r in Hdec. rewrite Hdec.
  replace (read <=? 0) with false by (symmetry; apply Z.leb_gt; lia). reflexivity.
Qed.

(** X1. An [int64] stored under a key is the value fetched under that
    key, whatever the store held before; the value fetched under every
    other key is as it was.  Nothing else of the database changes. *)
Theorem fetchInt64_storeInt64 (db : nodeDB) (key key' : list byte) (n : Z) :
  - 2 ^ 63 <= n < 2 ^ 63 ->
  fetchInt64 (storeInt64 db key n) key'
    = (if bytes_Equal key key' then n else fetchInt64 db key') /\
  self (storeInt64 db key n) = self db /\
  runner (storeInt64 db key n) = runner db /\
  quit (storeInt64 db key n) = quit db.
Proof.
  intros Hn. split; [now apply fetchInt64_after_store|]. now cbn.
Qed.

(** [time.Unix] on seconds whose count since year 1 fits [int64]. *)
Lemma time_Unix_in_range (sec : Z) :
  - 2 ^ 63 <= sec + unixToInternal < 2 ^ 63 -> time_Unix sec = sec * Second.
Proof.
  intros Hsec. unfold time_Unix, wrap_int64.
  rewrite Z.mod_small by lia. f_equal. lia.
Qed.

(** Past the range, [time.Unix] wraps: the largest [int64] second is an
    instant before the epoch. *)
Lemma time_Unix_wraps : time_Unix (2 ^ 63 - 1) < 0 /\ time_Unix (- 2 ^ 63) < 0.
Proof. split; vm_compute; reflexivity. Qed.

(** X2. The last ping of a node, after it was updated to the instant
    [t], is [time.Unix] of the whole seconds of [t]; for an instant a
    [time.Time] holds, whose seconds since year 1 fit [int64], it is [t]
    cut down to the whole second: at most [t], and less than a second
    before it.  The number of failed lookups of a node, after it was
    updated to [fails], is [fails]. *)
Theorem lastPing_updateLastPing (db : nodeDB) (id : NodeID) (t fails : Z) :
  - 2 ^ 63 <= Time_Unix t < 2 ^ 63 ->
  - 2 ^ 63 <= fails < 2 ^ 63 ->
  lastPing (updateLastPing db id t) id = time_Unix (Time_Unix t) /\
  (Time_Unix t + unixToInternal < 2 ^ 63 ->
   t - Second < lastPing (updateLastPing db id t) id <= t) /\
  findFails (updateFindFails db id fails) id = fails.
Proof.
  intros Ht Hf. unfold lastPing, updateLastPing, findFails, updateFindFails.
  rewrite !fetchInt64_after_store by assumption. rewrite !bytes_Equal_refl.
  split; [reflexivity|]. split; [|reflexivity].
  intros Hrep. rewrite time_Unix_in_range by (unfold unixToInternal in *; lia).
  unfold Time_Unix, Second.
  pose proof (Z.div_mod t 1000000000 ltac:(lia)).
  pose proof (Z.mod_pos_bound t 1000000000 ltac:(lia)). lia.
Qed.

(** X3. The ticket counters of a node, after they were updated to two
    [uint32] values, are these two values. *)
Theorem fetchTopicRegTickets_updateTopicRegTickets
    (db : nodeDB) (id : NodeID) (issued used : Z) :
  0 <= issued < 2 ^ 32 ->
  0 <= used < 2 ^ 32 ->
  fetchTopicRegTickets (updateTopicRegTickets db id issued used) id
  = Some (issued, used).
Proof.
  intros Hi Hu. unfold fetchTopicRegTickets, updateTopicRegTickets.
  cbn [with_lvl lvl]. rewrite lvl_Get_Put, bytes_Equal_refl.
  cbn [default from_option]. unfold Datatypes.id.
  rewrite length_app, !BigEndian_PutUint32_length. cbn [Nat.add Nat.eqb negb].
  unfold bytes_slice. rewrite length_app, !BigEndian_PutUint32_length.
  cbn [Nat.add Nat.leb andb Nat.sub skipn].
  rewrite skipn_O.
  rewrite (take_app_length' (BigEndian_PutUint32 issued)) by reflexivity.
  rewrite (drop_app_length' (BigEndian_PutUint32 issued)) by reflexivity.
  rewrite <- (app_nil_r (BigEndian_PutUint32 issued)) at 1.
  rewrite BigEndian_Uint32_PutUint32 by exact Hi.
  rewrite firstn_all2 by (rewrite BigEndian_PutUint32_length; lia).
  rewrite <- (app_nil_r (BigEndian_PutUint32 used)) at 1.
  now rewrite BigEndian_Uint32_PutUint32 by exact Hu.
Qed.

(** X4. Reading the ticket counters never panics and gives two [uint32]
    values, whatever is stored; they are both 0 when the node has no
    ticket entry and when the entry is not eight bytes long. *)
Theorem fetchTopicRegTickets_total (db : nodeDB) (id : NodeID) :
  exists issued used,
    fetchTopicRegTickets db id = Some (issued, used) /\
    0 <= issued < 2 ^ 32 /\ 0 <= used < 2 ^ 32 /\
    (forall blob, lvl_Get (lvl db) (makeKey id nodeDBTopicRegTickets) = Some blob ->
       length blob <> 8%nat -> issued = 0 /\ used = 0) /\
    (lvl_Get (lvl db) (makeKey id nodeDBTopicRegTickets) = None ->
       issued = 0 /\ used = 0).
Proof.
  unfold fetchTopicRegTickets.
  destruct (lvl_Get (lvl db) (makeKey id nodeDBTopicRegTickets)) as [blob|];
    cbn [default from_option]; unfold Datatypes.id.
  2:{ exists 0, 0. split; [reflexivity|]. split; [lia|]. split; [lia|].
      split; [intros blob; discriminate | intros _; split; reflexivity]. }
  destruct (length blob =? 8)%nat eqn:Hlen; cbn [negb].
  2:{ exists 0, 0. split; [reflexivity|]. split; [lia|]. split; [lia|].
      split; [intros b _ _; split; reflexivity | discriminate]. }
  apply Nat.eqb_eq in Hlen.
  destruct blob as [|b0 [|b1 [|b2 [|b3 [|b4 [|b5 [|b6 [|b7 [|b8 blob]]]]]]]]];
    try discriminate.
  unfold bytes_slice. cbn [length Nat.leb andb Nat.sub skipn firstn].
  destruct (BigEndian_Uint32 [b0; b1; b2; b3]) as [i|] eqn:Hi; [|discriminate].
  destruct (BigEndian_Uint32 [b4; b5; b6; b7]) as [u|] eqn:Hu; [|discriminate].
  exists i, u. split; [reflexivity|].
  split; [now apply (BigEndian_Uint32_range _ _ Hi)|].
  split; [now apply (BigEndian_Uint32_range _ _ Hu)|].
  split; [|discriminate]. intros blob' [= <-] Hne. now cbn in Hne.
Qed.

End Fields.

Lemma fetchInt64_storeInt64_sample :
  - 2 ^ 63 <= -42 < 2 ^ 63 /\
  fetchInt64 (storeInt64 sampleDB (@makeKey sampleSig idPeer nodeDBDiscoverPong) (-42))
             (@makeKey sampleSig idPeer nodeDBDiscoverPong) = -42.
Proof.
  assert (Hn : - 2 ^ 63 <= -42 < 2 ^ 63) by lia.
  split; [exact Hn|].
  destruct (fetchInt64_storeInt64 sampleDB
              (@makeKey sampleSig idPeer nodeDBDiscoverPong)
              (@makeKey sampleSig idPeer nodeDBDiscoverPong) (-42) Hn) as [Hfetch _].
  rewrite Hfetch. reflexivity.
Defined.

Lemma lastPing_updateLastPing_sample :
  - 2 ^ 63 <= Time_Unix (sampleNow + 123456789) < 2 ^ 63 /\
  - 2 ^ 63 <= 7 < 2 ^ 63 /\
  Time_Unix (sampleNow + 123456789) + unixToInternal < 2 ^ 63 /\
  @lastPing sampleSig (@updateLastPing sampleSig sampleDB idPeer (sampleNow + 123456789))
            idPeer = sampleNow /\
  sampleNow + 123456789 - Second
    < @lastPing sampleSig (@updateLastPing sampleSig sampleDB idPeer
                             (sampleNow + 123456789)) idPeer
    <= sampleNow + 123456789 /\
  @findFails sampleSig (@updateFindFails sampleSig sampleDB idPeer 7) idPeer = 7.
Proof.
  assert (Ht : - 2 ^ 63 <= Time_Unix (sampleNow + 123456789) < 2 ^ 63)
    by (vm_compute; split; [discriminate | reflexivity]).
  assert (Hf : - 2 ^ 63 <= 7 < 2 ^ 63) by lia.
  assert (Hrep : Time_Unix (sampleNow + 123456789) + unixToInternal < 2 ^ 63)
    by (vm_compute; reflexivity).
  split; [exact Ht|]. split; [exact Hf|]. split; [exact Hrep|].
  destruct (@lastPing_updateLastPing sampleSig sampleDB idPeer (sampleNow + 123456789) 7
              Ht Hf) as (Hping & Hnear & Hfails).
  split; [rewrite Hping; reflexivity|]. split; [exact (Hnear Hrep) | exact Hfails].
Defined.

Lemma fetchTopicRegTickets_updateTopicRegTickets_sample :
  0 <= 70000 < 2 ^ 32 /\ 0 <= 9 < 2 ^ 32 /\
  @fetchTopicRegTickets sampleSig
     (@updateTopicRegTickets sampleSig sampleDB idPeer 70000 9) idPeer
  = Some (70000, 9).
Proof.
  assert (Hi : 0 <= 70000 < 2 ^ 32) by lia.
  assert (Hu : 0 <= 9 < 2 ^ 32) by lia.
  split; [exact Hi|]. split; [exact Hu|].
  exact (@fetchTopicRegTickets_updateTopicRegTickets sampleSig sampleDB idPeer 70000 9 Hi Hu).
Defined.

(** ** Deletion and the sweep *)

Section Deletion.

Context `{NodeSig}.

(** Deleting the keys of [l] one by one leaves the entries whose key is
    none of them. *)
Lemma fold_delete_filter (l : Store) :
  forall db : nodeDB,
  lvl (fold_left (fun d x => with_lvl d (lvl_Delete (lvl d) (fst x))) l db)
  = List.filter (fun e => negb (existsb (fun x => bytes_Equal (fst e) (fst x)) l))
                (lvl db).
Proof.
  induction l as [|x l IH]; intros db; cbn [fold_left existsb].
  - induction (lvl db) as [|e s IHs]; [reflexivity|].
    cbn [List.filter negb]. f_equal. exact IHs.
  - rewrite IH. cbn [with_lvl lvl]. unfold lvl_Delete.
    induction (lvl db) as [|e s IHs]; [reflexivity|]. cbn [List.filter].
    destruct (bytes_Equal (fst e) (fst x)); cbn [negb orb List.filter]; [exact IHs|].
    destruct (existsb _ l); cbn [negb]; [exact IHs | now rewrite IHs].
Qed.

Lemma deleteNode_filter (db : nodeDB) (id : NodeID) :
  lvl (deleteNode db id)
  = List.filter (fun e => negb (bytes_HasPrefix (fst e) (makeKey id EmptyString)))
                (lvl db).
Proof.
  unfold deleteNode. rewrite fold_delete_filter. apply filter_ext_in.
  intros e He. f_equal. unfold lvl_prefix_iterator.
  destruct (bytes_HasPrefix (fst e) (makeKey id EmptyString)) eqn:Hp.
  - apply existsb_exists. exists e. split; [|apply bytes_Equal_refl].
    apply filter_In. now split.
  - destruct (existsb _ _) eqn:Hex; [|reflexivity].
    apply existsb_exists in Hex as (x & Hx & Heq).
    apply filter_In in Hx as [_ Hx]. apply bytes_Equal_true in Heq.
    rewrite Heq in Hp. congruence.
Qed.

Lemma deleteNode_fields (db : nodeDB) (id : NodeID) :
  self (deleteNode db id) = self db /\
  runner (deleteNode db id) = runner db /\
  quit (deleteNode db id) = quit db.
Proof.
  unfold deleteNode.
  generalize (lvl_prefix_iterator (lvl db) (makeKey id EmptyString)). intros l.
  revert db. induction l as [|x l IH]; intros db; cbn [fold_left]; [auto|].
  destruct (IH (with_lvl db (lvl_Delete (lvl db) (fst x)))) as (Hs & Hr & Hq).
  now rewrite Hs, Hr, Hq.
Qed.

Lemma deleteNode_nil_empty (db : nodeDB) : lvl (deleteNode db nodeDBNilNodeID) = [].
Proof.
  rewrite deleteNode_filter, makeKey_nil. cbn [list_byte_of_string].
  induction (lvl db) as [|e s IH]; [reflexivity|]. cbn [List.filter].
  now rewrite bytes_HasPrefix_nil.
Qed.

Lemma deleteNode_empty (db : nodeDB) (id : NodeID) :
  lvl db = [] -> lvl (deleteNode db id) = [].
Proof. intros Hnil. rewrite deleteNode_filter, Hnil. reflexivity. Qed.

(** After [deleteNode] a last-pong time is what it was, or the time read
    from a missing entry. *)
Lemma lastPong_deleteNode (db : nodeDB) (id id' : NodeID) :
  lastPong (deleteNode db id) id' = lastPong db id' \/
  lastPong (deleteNode db id) id' = 0.
Proof.
  unfold lastPong, fetchInt64. rewrite deleteNode_filter.
  rewrite (lvl_Get_filter
             (fun k => negb (bytes_HasPrefix k (makeKey id EmptyString)))).
  destruct (negb _); [now left | now right].
Qed.

(** X5. [deleteNode] removes the entries whose key starts with the key
    of the identity's empty field, and leaves all others as they are, in
    their order.  For the nil identity that key is empty, every key
    starts with it, and the store is emptied. *)
Theorem deleteNode_removes_prefix (db : nodeDB) (id : NodeID) :
  lvl (deleteNode db id)
  = List.filter (fun e => negb (bytes_HasPrefix (fst e) (makeKey id EmptyString)))
                (lvl db) /\
  lvl (deleteNode db nodeDBNilNodeID) = [].
Proof. split; [apply deleteNode_filter | apply deleteNode_nil_empty]. Qed.

Lemma expireNodes_loop_fresh (th : Z) (db : nodeDB) (it : Store) (deleted : list NodeID) :
  wf_store it = true ->
  (forall e id, In e it -> splitKey (fst e) = Some (id, nodeDBDiscoverRoot) ->
     id <> self db /\ time_After (lastPong db id) th = true) ->
  expireNodes_loop th it db deleted = Some (db, deleted).
Proof.
  induction it as [|e rest IH]; intros Hwf Hfresh; [reflexivity|].
  apply wf_store_cons in Hwf as [(id & field & Hsplit) Hrest].
  cbn [expireNodes_loop]. rewrite Hsplit.
  assert (IH' : expireNodes_loop th rest db deleted = Some (db, deleted)).
  { apply IH; [exact Hrest|]. intros e' id' Hin. apply Hfresh. now right. }
  destruct (String.eqb field nodeDBDiscoverRoot) eqn:Hfield; cbn [negb]; [|exact IH'].
  apply String.eqb_eq in Hfield. subst field.
  destruct (Hfresh e id (or_introl eq_refl) Hsplit) as [Hne Hafter].
  rewrite Hafter. replace (bytes_Equal id (self db)) with false; [exact IH'|].
  symmetry. now apply bytes_Equal_false.
Qed.

(** X6. When every node record of the store is of another identity than
    the local one and has a last pong after the expiry threshold, the
    sweep deletes nothing: the database is as before. *)
Theorem expireNodes_keeps_fresh_store (now : Z) (db : nodeDB) :
  wf_store (lvl db) = true ->
  (forall e id, In e (lvl db) -> splitKey (fst e) = Some (id, nodeDBDiscoverRoot) ->
     id <> self db /\
     time_After (lastPong db id) (time_Add now (- nodeDBNodeExpiration)) = true) ->
  expireNodes now db = Some (db, []).
Proof. intros Hwf Hfresh. unfold expireNodes. now apply expireNodes_loop_fresh. Qed.

Lemma expireNodes_loop_only_deletes (th : Z) (it : Store) :
  forall (db : nodeDB) (deleted : list NodeID),
  wf_store it = true ->
  exists db' deleted',
    expireNodes_loop th it db deleted = Some (db', deleted ++ deleted') /\
    self db' = self db /\ runner db' = runner db /\ quit db' = quit db /\
    sublist (lvl db') (lvl db) /\
    (forall id, In id deleted' ->
       exists key, In key (map fst it) /\ splitKey key = Some (id, nodeDBDiscoverRoot)).
Proof.
  induction it as [|e rest IH]; intros db deleted Hwf.
  - exists db, []. cbn [expireNodes_loop]. rewrite app_nil_r.
    do 5 (split; [reflexivity|]). intros id [].
  - apply wf_store_cons in Hwf as [(id & field & Hsplit) Hrest].
    cbn [expireNodes_loop]. rewrite Hsplit.
    assert (Hskip : exists db' deleted',
      expireNodes_loop th rest db deleted = Some (db', deleted ++ deleted') /\
      self db' = self db /\ runner db' = runner db /\ quit db' = quit db /\
      sublist (lvl db') (lvl db) /\
      (forall id, In id deleted' ->
         exists key, In key (map fst (e :: rest)) /\
                     splitKey key = Some (id, nodeDBDiscoverRoot))).
    { destruct (IH db deleted Hrest) as (db' & del' & Hrun & Hs & Hr & Hq & Hsub & Hdel).
      exists db', del'. repeat (split; [assumption|]).
      intros i Hi. destruct (Hdel i Hi) as (key & Hk & Hsp).
      exists key. split; [now right | exact Hsp]. }
    destruct (String.eqb field nodeDBDiscoverRoot) eqn:Hfield; cbn [negb];
      [|exact Hskip].
    destruct (negb (bytes_Equal id (self db)) && time_After (lastPong db id) th);
      [exact Hskip|].
    apply String.eqb_eq in Hfield. subst field.
    destruct (IH (deleteNode db id) (deleted ++ [id]) Hrest)
      as (db' & del' & Hrun & Hs & Hr & Hq & Hsub & Hdel).
    destruct (deleteNode_fields db id) as (Hs1 & Hr1 & Hq1).
    exists db', (id :: del'). rewrite Hrun, <- app_assoc. cbn [app].
    split; [reflexivity|]. split; [congruence|]. split; [congruence|].
    split; [congruence|]. split.
    + etransitivity; [exact Hsub|]. rewrite deleteNode_filter. apply List_filter_sublist.
    + intros i [<- | Hi].
      * exists (fst e). split; [now left | exact Hsplit].
      * destruct (Hdel i Hi) as (key & Hk & Hsp). exists key. split; [now right | exact Hsp].
Qed.

(** X7. The sweep only deletes.  Over a store of the persisted layout
    it returns; the entries left are entries of the store before, with
    their values and in their order; every identity [deleteNode] was
    called with was read off a node record's key of that store; the
    local identity and the state of the expirer are untouched. *)
Theorem expireNodes_only_deletes (now : Z) (db : nodeDB) :
  wf_store (lvl db) = true ->
  exists db' deleted,
    expireNodes now db = Some (db', deleted) /\
    self db' = self db /\ runner db' = runner db /\ quit db' = quit db /\
    sublist (lvl db') (lvl db) /\
    (forall id, In id deleted ->
       exists key, In key (map fst (lvl db)) /\
                   splitKey key = Some (id, nodeDBDiscoverRoot)).
Proof.
  intros Hwf. unfold expireNodes.
  destruct (expireNodes_loop_only_deletes (time_Add now (- nodeDBNodeExpiration))
              (lvl db) db [] Hwf) as (db' & del & Hrun & Hrest).
  exists db', del. split; [exact Hrun | exact Hrest].
Qed.

Lemma splitKey_root_key :
  splitKey (list_byte_of_string nodeDBDiscoverRoot)
  = Some (nodeDBNilNodeID, nodeDBDiscoverRoot).
Proof.
  rewrite splitKey_bare by reflexivity.
  now rewrite string_of_list_byte_of_string.
Qed.

(** On an empty store the sweep deletes nothing more. *)
Lemma expireNodes_loop_empty (th : Z) (it : Store) :
  forall (db : nodeDB) (deleted : list NodeID),
  wf_store it = true ->
  lvl db = [] ->
  exists db' deleted',
    expireNodes_loop th it db deleted = Some (db', deleted') /\
    lvl db' = [] /\
    self db' = self db /\ runner db' = runner db /\ quit db' = quit db /\
    (forall id, In id deleted -> In id deleted').
Proof.
  induction it as [|e rest IH]; intros db deleted Hwf Hnil.
  - exists db, deleted. cbn [expireNodes_loop]. repeat (split; [easy|]). auto.
  - apply wf_store_cons in Hwf as [(id & field & Hsplit) Hrest].
    cbn [expireNodes_loop]. rewrite Hsplit.
    destruct (negb (String.eqb field nodeDBDiscoverRoot)); [now apply IH|].
    destruct (negb (bytes_Equal id (self db)) && time_After (lastPong db id) th);
      [now apply IH|].
    destruct (IH (deleteNode db id) (deleted ++ [id]) Hrest (deleteNode_empty db id Hnil))
      as (db' & del' & Hrun & Hnil' & Hs & Hr & Hq & Hin).
    destruct (deleteNode_fields db id) as (Hs1 & Hr1 & Hq1).
    exists db', del'. split; [exact Hrun|]. split; [exact Hnil'|].
    split; [congruence|]. split; [congruence|]. split; [congruence|].
    intros i Hi. apply Hin, in_or_app. now left.
Qed.

Lemma expireNodes_loop_wipe (th : Z) (it : Store) :
  0 <= th ->
  forall (db : nodeDB) (deleted : list NodeID),
  wf_store it = true ->
  In (list_byte_of_string nodeDBDiscoverRoot) (map fst it) ->
  self db <> nodeDBNilNodeID ->
  time_After (lastPong db nodeDBNilNodeID) th = false ->
  exists db' deleted',
    expireNodes_loop th it db deleted = Some (db', deleted') /\
    lvl db' = [] /\
    self db' = self db /\ runner db' = runner db /\ quit db' = quit db /\
    In nodeDBNilNodeID deleted'.
Proof.
  intros Hth. induction it as [|e rest IH]; intros db deleted Hwf Hin Hself Hstale;
    [destruct Hin|].
  apply wf_store_cons in Hwf as [(id & field & Hsplit) Hrest].
  cbn [expireNodes_loop]. rewrite Hsplit.
  cbn [map] in Hin. destruct Hin as [Hkey | Hin].
  - rewrite Hkey, splitKey_root_key in Hsplit. injection Hsplit as <- <-.
    rewrite String.eqb_refl. cbn [negb]. rewrite Hstale, andb_false_r.
    destruct (expireNodes_loop_empty th rest (deleteNode db nodeDBNilNodeID)
                (deleted ++ [nodeDBNilNodeID]) Hrest (deleteNode_nil_empty db))
      as (db' & del' & Hrun & Hnil' & Hs & Hr & Hq & Hdel).
    destruct (deleteNode_fields db nodeDBNilNodeID) as (Hs1 & Hr1 & Hq1).
    exists db', del'. split; [exact Hrun|]. split; [exact Hnil'|].
    split; [congruence|]. split; [congruence|]. split; [congruence|].
    apply Hdel, in_or_app. right. now left.
  - destruct (negb (String.eqb field nodeDBDiscoverRoot)); [now apply IH|].
    destruct (negb (bytes_Equal id (self db)) && time_After (lastPong db id) th);
      [now apply IH|].
    destruct (deleteNode_fields db id) as (Hs1 & Hr1 & Hq1).
    destruct (IH (deleteNode db id) (deleted ++ [id]) Hrest Hin)
      as (db' & del' & Hrun & Hnil' & Hs & Hr & Hq & Hdel).
    + congruence.
    + destruct (lastPong_deleteNode db id nodeDBNilNodeID) as [-> | ->];
        [exact Hstale|]. unfold time_After. apply Z.ltb_ge. exact Hth.
    + exists db', del'. split; [exact Hrun|]. split; [exact Hnil'|].
      split; [congruence|]. split; [congruence|]. split; [congruence | exact Hdel].
Qed.

(** X8. A record under the bare root key is read as the record of the
    nil identity.  When the local identity is another one, the nil
    identity has no last pong after the threshold, and the clock is at
    least the expiry time past the epoch, the sweep calls [deleteNode] on
    the nil identity and leaves the store empty: the records of all
    nodes are gone, the fresh ones included. *)
Theorem expireNodes_bare_root_empties_store (now : Z) (db : nodeDB) :
  wf_store (lvl db) = true ->
  In (list_byte_of_string nodeDBDiscoverRoot) (map fst (lvl db)) ->
  self db <> nodeDBNilNodeID ->
  time_After (lastPong db nodeDBNilNodeID)
             (time_Add now (- nodeDBNodeExpiration)) = false ->
  nodeDBNodeExpiration <= now ->
  exists deleted,
    expireNodes now db = Some (with_lvl db [], deleted) /\
    In nodeDBNilNodeID deleted.
Proof.
  intros Hwf Hin Hself Hstale Hnow. unfold expireNodes.
  destruct (expireNodes_loop_wipe (time_Add now (- nodeDBNodeExpiration)) (lvl db)
              ltac:(unfold time_Add; lia) db [] Hwf Hin Hself Hstale)
    as (db' & del' & Hrun & Hnil & Hs & Hr & Hq & Hdel).
  exists del'. split; [|exact Hdel]. rewrite Hrun. f_equal. f_equal.
  destruct db' as [l s r q]. cbn in *. unfold with_lvl. now subst.
Qed.

End Deletion.

Lemma expireNodes_keeps_fresh_store_sample :
  @wf_store sampleSig (lvl freshDB) = true /\
  @expireNodes sampleSig sampleNow freshDB = Some (freshDB, []).
Proof.
  assert (Hwf : @wf_store sampleSig (lvl freshDB) = true) by (vm_compute; reflexivity).
  split; [exact Hwf|].
  apply (@expireNodes_keeps_fresh_store sampleSig sampleNow freshDB Hwf).
  intros e id [<- | [<- | []]] Hsplit.
  - vm_compute in Hsplit. inversion Hsplit; subst id.
    split; [vm_compute; discriminate | vm_compute; reflexivity].
  - vm_compute in Hsplit. discriminate.
Defined.

Lemma expireNodes_only_deletes_sample :
  @wf_store sampleSig (lvl sampleDB) = true /\
  exists db' deleted,
    @expireNodes sampleSig sampleNow sampleDB = Some (db', deleted) /\
    self db' = self sampleDB /\ runner db' = runner sampleDB /\
    quit db' = quit sampleDB /\
    sublist (lvl db') (lvl sampleDB) /\
    (forall id, In id deleted ->
       exists key, In key (map fst (lvl sampleDB)) /\
                   @splitKey sampleSig key = Some (id, nodeDBDiscoverRoot)).
Proof.
  assert (Hwf : @wf_store sampleSig (lvl sampleDB) = true) by (vm_compute; reflexivity).
  split; [exact Hwf|].
  exact (@expireNodes_only_deletes sampleSig sampleNow sampleDB Hwf).
Defined.

Lemma expireNodes_bare_root_empties_store_sample :
  @wf_store sampleSig (lvl bareRootDB) = true /\
  In (list_byte_of_string nodeDBDiscoverRoot) (map fst (lvl bareRootDB)) /\
  self bareRootDB <> @nodeDBNilNodeID sampleSig /\
  time_After (@lastPong sampleSig bareRootDB (@nodeDBNilNodeID sampleSig))
             (time_Add sampleNow (- nodeDBNodeExpiration)) = false /\
  nodeDBNodeExpiration <= sampleNow /\
  time_After (@lastPong sampleSig bareRootDB idPeer)
             (time_Add sampleNow (- nodeDBNodeExpiration)) = true /\
  exists deleted,
    @expireNodes sampleSig sampleNow bareRootDB = Some (with_lvl bareRootDB [], deleted) /\
    In (@nodeDBNilNodeID sampleSig) deleted.
Proof.
  assert (Hwf : @wf_store sampleSig (lvl bareRootDB) = true) by (vm_compute; reflexivity).
  assert (Hin : In (list_byte_of_string nodeDBDiscoverRoot) (map fst (lvl bareRootDB)))
    by (now left).
  assert (Hself : self bareRootDB <> @nodeDBNilNodeID sampleSig) by discriminate.
  assert (Hstale : time_After (@lastPong sampleSig bareRootDB (@nodeDBNilNodeID sampleSig))
                     (time_Add sampleNow (- nodeDBNodeExpiration)) = false)
    by (vm_compute; reflexivity).
  assert (Hnow : nodeDBNodeExpiration <= sampleNow) by (vm_compute; discriminate).
  split; [exact Hwf|]. split; [exact Hin|]. split; [exact Hself|].
  split; [exact Hstale|]. split; [exact Hnow|]. split; [vm_compute; reflexivity|].
  exact (@expireNodes_bare_root_empties_store sampleSig sampleNow bareRootDB
           Hwf Hin Hself Hstale Hnow).
Defined.

(** ** Iteration and seeds *)

Section NextNode.

Context `{NodeSig}.

(** X9. [nextNode] returns the node of the first entry, from the
    iterator's position on, whose key has the root field and whose value
    decodes, and nil when there is none: entries of other fields and
    records that do not decode are passed over. *)
Theorem nextNode_first_record (it : Store) :
  wf_store it = true ->
  nextNode it = Some (head (omap node_record it)).
Proof.
  induction it as [|e rest IH]; intros Hwf; [reflexivity|].
  apply wf_store_cons in Hwf as [(id & field & Hsplit) Hrest].
  cbn [nextNode omap list_omap]. unfold node_record at 1. rewrite Hsplit.
  destruct (String.eqb field nodeDBDiscoverRoot); cbn [negb]; [|now apply IH].
  destruct (rlp_DecodeNode (snd e)); [reflexivity | now apply IH].
Qed.

Lemma nextNode_none (it : Store) :
  wf_store it = true -> omap node_record it = [] -> nextNode it = Some None.
Proof.
  induction it as [|e rest IH]; intros Hwf Hnone; [reflexivity|].
  apply wf_store_cons in Hwf as [(id & field & Hsplit) Hrest].
  cbn [omap list_omap] in Hnone. unfold node_record at 1 in Hnone.
  cbn [nextNode]. rewrite Hsplit in Hnone |- *.
  destruct (String.eqb field nodeDBDiscoverRoot); cbn [negb]; [|now apply IH].
  destruct (rlp_DecodeNode (snd e)); [discriminate | now apply IH].
Qed.

Lemma omap_node_record_Seek (s : Store) (key : list byte) :
  omap node_record s = [] -> omap node_record (lvl_Seek s key) = [].
Proof.
  induction s as [|e s IH]; intros Hnone; [reflexivity|]. cbn [lvl_Seek].
  destruct (bytes_Compare (fst e) key); try exact Hnone.
  apply IH. cbn [omap list_omap] in Hnone.
  destruct (node_record e); [discriminate | exact Hnone].
Qed.

Lemma querySeeds_loop_no_records (rnd : nat -> NodeID) (now maxAge n : Z) (db : nodeDB) :
  wf_store (lvl db) = true ->
  omap node_record (lvl db) = [] ->
  0 < n ->
  forall (k seeks : nat) (id : NodeID),
  querySeeds_loop rnd now maxAge n db k seeks id [] = Some ([], (seeks + k)%nat).
Proof.
  intros Hwf Hnone Hn. induction k as [|k IH]; intros seeks id.
  - cbn [querySeeds_loop]. now rewrite Nat.add_0_r.
  - cbn [querySeeds_loop length].
    replace (Z.of_nat 0 <? n) with true by (symmetry; apply Z.ltb_lt; lia).
    cbn [negb]. rewrite nextNode_none.
    + rewrite IH. do 2 f_equal. lia.
    + now apply wf_store_Seek.
    + now apply omap_node_record_Seek.
Qed.

(** X10. Over a store that holds no node record that decodes, for a
    count [n] that is not negative and that the runtime allocates a
    slice of pointers for, [querySeeds] finds nothing and gives up only
    when its budget is spent: it returns the empty list after exactly
    [5*n] seeks. *)
Theorem querySeeds_no_records (rnd : nat -> NodeID) (now : Z) (db : nodeDB)
    (n maxAge : Z) :
  wf_store (lvl db) = true ->
  omap node_record (lvl db) = [] ->
  0 <= n ->
  ptrSize * n <= maxAlloc ->
  querySeeds rnd now db n maxAge = Some ([], Z.to_nat (n * 5)).
Proof.
  intros Hwf Hnone Hn Hcap. unfold querySeeds.
  rewrite (makeslice_ok_intro ptrSize n Hn Hcap). cbn [negb].
  assert (Hwrap : wrap_int64 (n * 5) = n * 5).
  { unfold wrap_int64. unfold ptrSize, maxAlloc in Hcap.
    rewrite Z.mod_small by lia. lia. }
  rewrite Hwrap. destruct (Z.eq_dec n 0) as [->|Hnz]; [reflexivity|].
  rewrite querySeeds_loop_no_records by (assumption || lia). reflexivity.
Qed.

End NextNode.

Lemma nextNode_first_record_sample :
  @wf_store sampleSig (lvl_Seek sampleStore (@makeKey sampleSig idOld nodeDBDiscoverPong))
    = true /\
  @nextNode sampleSig (lvl_Seek sampleStore (@makeKey sampleSig idOld nodeDBDiscoverPong))
    = Some (Some idSelf).
Proof.
  assert (Hwf : @wf_store sampleSig
                  (lvl_Seek sampleStore (@makeKey sampleSig idOld nodeDBDiscoverPong))
                = true) by (vm_compute; reflexivity).
  split; [exact Hwf|].
  rewrite (@nextNode_first_record sampleSig _ Hwf). vm_compute. reflexivity.
Defined.

Lemma querySeeds_no_records_sample :
  @wf_store sampleSig (lvl versionOnlyDB) = true /\
  omap (@node_record sampleSig) (lvl versionOnlyDB) = [] /\
  0 <= 4 /\ ptrSize * 4 <= maxAlloc /\
  @querySeeds sampleSig (fun _ => idPeer) sampleNow versionOnlyDB 4 Hour
    = Some ([], 20%nat).
Proof.
  assert (Hwf : @wf_store sampleSig (lvl versionOnlyDB) = true) by (vm_compute; reflexivity).
  assert (Hnone : omap (@node_record sampleSig) (lvl versionOnlyDB) = [])
    by (vm_compute; reflexivity).
  assert (Hn : 0 <= 4) by lia.
  assert (Hb : ptrSize * 4 <= maxAlloc) by (vm_compute; discriminate).
  split; [exact Hwf|]. split; [exact Hnone|]. split; [exact Hn|]. split; [exact Hb|].
  exact (@querySeeds_no_records sampleSig (fun _ => idPeer) sampleNow versionOnlyDB 4 Hour
           Hwf Hnone Hn Hb).
Defined.

(** ** Opening and closing *)

Section Opening.

Context `{NodeSig}.

(** X11. With the empty path [newNodeDB] gives an empty database in
    memory.  With another path it returns after at most one call of
    itself, and the store it returns holds the current version blob
    under the version key: a store without a version entry gets one and
    keeps its records, a store of the same version is kept as it is, and
    a store of another version is flushed, the version entry being all
    that is left. *)
Theorem newNodeDB_version (fuel : nat) (c : Ascii.ascii) (path : string)
    (disk : option Store) (version : Z) (self : NodeID) :
  newNodeDB fuel EmptyString disk version self = Done (mkNodeDB [] self false false) /\
  exists s,
    newNodeDB (S (S fuel)) (String c path) disk version self
      = Done (mkNodeDB s self false false) /\
    lvl_Get s nodeDBVersionKey = Some (PutVarint version) /\
    s = match lvl_Get (leveldb_OpenFile disk) nodeDBVersionKey with
        | None => lvl_Put (leveldb_OpenFile disk) nodeDBVersionKey (PutVarint version)
        | Some blob =>
            if bytes_Equal blob (PutVarint version) then leveldb_OpenFile disk
            else [(nodeDBVersionKey, PutVarint version)]
        end.
Proof.
  split; [reflexivity|]. unfold newNodeDB. cbn [String.eqb newPersistentNodeDB].
  destruct (lvl_Get (leveldb_OpenFile disk) nodeDBVersionKey) as [blob|] eqn:Hget.
  - destruct (bytes_Equal blob (PutVarint version)) eqn:Heq; cbn [negb].
    + eexists. split; [reflexivity|]. split; [|reflexivity].
      apply bytes_Equal_true in Heq. now subst blob.
    + eexists. split; [reflexivity|]. split; [|reflexivity].
      now rewrite lvl_Get_Put, bytes_Equal_refl.
  - eexists. split; [reflexivity|]. split; [|reflexivity].
    now rewrite lvl_Get_Put, bytes_Equal_refl.
Qed.

Lemma run_app (es1 es2 : list event) :
  forall s : system,
  run s (es1 ++ es2)
  = match run s es1 with Some s1 => run s1 es2 | None => None end.
Proof.
  induction es1 as [|e es1 IH]; intros s; cbn [app run]; [reflexivity|].
  destruct (step s e); [apply IH | reflexivity].
Qed.

Lemma step_quit (s s' : system) (e : event) :
  quit (sys_db s) = true -> step s e = Some s' -> quit (sys_db s') = true.
Proof.
  intros Hq. destruct e as [| |c now]; cbn [step].
  - intros [= <-]. unfold ensureExpirer. now destruct (runner (sys_db s)).
  - unfold close. now rewrite Hq.
  - assert (Hturn : expirer_turn c now s = Some s' -> quit (sys_db s') = true).
    { unfold expirer_turn. destruct (sys_expirer s); try (now intros [= <-]).
      destruct (snd <$> find _ expirer_select) as [[|]|]; try (now intros [= <-]).
      rewrite Hq. now intros [= <-]. }
    destruct c; [exact Hturn | now rewrite Hq].
Qed.

Lemma run_quit (es : list event) :
  forall s s' : system,
  quit (sys_db s) = true -> run s es = Some s' -> quit (sys_db s') = true.
Proof.
  induction es as [|e es IH]; intros s s' Hq; cbn [run].
  - now intros [= <-].
  - destruct (step s e) as [s1|] eqn:Hstep; [|discriminate].
    apply IH. now apply (step_quit s s1 e).
Qed.

(** X12. [close] can be called once: in every run, whatever happens
    before, between and after, the second call of [close] panics, on the
    quit channel that is closed already. *)
Theorem close_twice_panics (s : system) (es1 es2 es3 : list event) :
  run s (es1 ++ CallClose :: es2 ++ CallClose :: es3) = None.
Proof.
  rewrite run_app. destruct (run s es1) as [s1|]; [|reflexivity].
  cbn [run step]. destruct (close s1) as [s2|] eqn:Hclose; [|reflexivity].
  assert (Hq : quit (sys_db s2) = true).
  { unfold close in Hclose. destruct (quit (sys_db s1)); [discriminate|].
    now injection Hclose as <-. }
  rewrite run_app. destruct (run s2 es2) as [s3|] eqn:Hrun; [|reflexivity].
  apply (run_quit es2 s2 s3 Hq) in Hrun. cbn [run step]. unfold close.
  now rewrite Hrun.
Qed.

(** X13. Without a call of [ensureExpirer] there is no expirer and no
    sweep: whatever else happens, ticks of the clock included, the
    goroutine is not started, no sweep is run and the store is as it
    was. *)
Theorem no_sweep_before_ensureExpirer (es : list event) :
  forall s s' : system,
  sys_expirer s = NotStarted ->
  ~ In CallEnsureExpirer es ->
  run s es = Some s' ->
  sys_expirer s' = NotStarted /\
  sys_sweeps s' = sys_sweeps s /\
  lvl (sys_db s') = lvl (sys_db s).
Proof.
  induction es as [|e es IH]; intros s s' Hns Hno; cbn [run].
  - now intros [= <-].
  - destruct (step s e) as [s1|] eqn:Hstep; [|discriminate].
    assert (Hs1 : sys_expirer s1 = NotStarted /\ sys_sweeps s1 = sys_sweeps s /\
                  lvl (sys_db s1) = lvl (sys_db s)).
    { destruct e as [| |c now]; cbn [step] in Hstep.
      - exfalso. apply Hno. now left.
      - unfold close in Hstep. destruct (quit (sys_db s)); [discriminate|].
        injection Hstep as <-. now cbn.
      - assert (Hturn : expirer_turn c now s = Some s).
        { unfold expirer_turn. now rewrite Hns. }
        destruct c; [|destruct (quit (sys_db s))];
          rewrite ?Hturn in Hstep; injection Hstep as <-; auto. }
    destruct Hs1 as (He & Hsw & Hl). intros Hrun.
    apply IH in Hrun; [| exact He | intros Hin; apply Hno; now right].
    destruct Hrun as (He' & Hsw' & Hl'). repeat split; congruence.
Qed.

End Opening.

Lemma no_sweep_before_ensureExpirer_sample :
  sys_expirer (mkSystem sampleDB NotStarted 0) = NotStarted /\
  ~ In CallEnsureExpirer [Ready TickC sampleNow; CallClose; Ready TickC sampleNow] /\
  exists s',
    @run sampleSig (mkSystem sampleDB NotStarted 0)
         [Ready TickC sampleNow; CallClose; Ready TickC sampleNow] = Some s' /\
    sys_expirer s' = NotStarted /\
    sys_sweeps s' = 0%nat /\
    lvl (sys_db s') = sampleStore.
Proof.
  assert (Hns : sys_expirer (mkSystem sampleDB NotStarted 0) = NotStarted) by reflexivity.
  assert (Hno : ~ In CallEnsureExpirer
                    [Ready TickC sampleNow; CallClose; Ready TickC sampleNow]).
  { intros [Hin | [Hin | [Hin | []]]]; discriminate. }
  split; [exact Hns|]. split; [exact Hno|].
  eexists. split; [reflexivity|].
  exact (@no_sweep_before_ensureExpirer sampleSig _ _ _ Hns Hno eq_refl).
Defined.

(** ** Where the seeds come from *)

Section SeedsMore.

Context `{NodeSig}.

Lemma lvl_Seek_In (s : Store) (key : list byte) (e : list byte * list byte) :
  In e (lvl_Seek s key) -> In e s.
Proof.
  induction s as [|a s IH]; cbn [lvl_Seek]; [trivial|].
  destruct (bytes_Compare (fst a) key); try (intros Hin; exact Hin).
  intros Hin. right. now apply IH.
Qed.

Lemma nextNode_In (it : Store) (nd : Node) :
  nextNode it = Some (Some nd) ->
  exists e, In e it /\ node_record e = Some nd.
Proof.
  induction it as [|e rest IH]; cbn [nextNode]; [discriminate|].
  unfold node_record at 1.
  destruct (splitKey (fst e)) as [[id field]|] eqn:Hsplit; [|discriminate].
  assert (Hrest : nextNode rest = Some (Some nd) ->
                  exists e0, In e0 (e :: rest) /\ node_record e0 = Some nd).
  { intros Hn. destruct (IH Hn) as (e0 & Hin & Hrec). exists e0. split; [now right | exact Hrec]. }
  destruct (String.eqb field nodeDBDiscoverRoot) eqn:Hf; cbn [negb]; [|exact Hrest].
  destruct (rlp_DecodeNode (snd e)) as [n|] eqn:Hdec; [|exact Hrest].
  intros [= <-]. exists e. split; [now left|].
  unfold node_record. now rewrite Hsplit, Hf.
Qed.

Lemma querySeeds_loop_from_store (rnd : nat -> NodeID) (now maxAge n : Z) (db : nodeDB) :
  forall (k seeks : nat) (id : NodeID) (nodes nodes' : list Node) (seeks' : nat),
  Forall (fun nd => exists e, In e (lvl db) /\ node_record e = Some nd) nodes ->
  querySeeds_loop rnd now maxAge n db k seeks id nodes = Some (nodes', seeks') ->
  Forall (fun nd => exists e, In e (lvl db) /\ node_record e = Some nd) nodes' /\
  (seeks <= seeks')%nat /\
  ((Z.of_nat (length nodes') < n) -> seeks' = (seeks + k)%nat).
Proof.
  induction k as [|k IH]; intros seeks id nodes nodes' seeks' Hall; cbn [querySeeds_loop].
  - intros [= <- <-]. split; [exact Hall|]. split; lia.
  - destruct (Z.of_nat (length nodes) <? n) eqn:Hlt; cbn [negb].
    2:{ intros [= <- <-]. split; [exact Hall|]. split; [lia|].
        apply Z.ltb_ge in Hlt. lia. }
    set (id' := set_first (rnd seeks)
                  (byte_add (hd Byte.x00 id) (byte_mod16 (hd Byte.x00 (rnd seeks))))).
    destruct (nextNode (lvl_Seek (lvl db) (makeKey id' nodeDBDiscoverRoot)))
      as [[nd|]|] eqn:Hnext; [| |discriminate].
    + assert (Hskip : forall i, querySeeds_loop rnd now maxAge n db k (S seeks) i nodes
                        = Some (nodes', seeks') ->
        Forall (fun nd => exists e, In e (lvl db) /\ node_record e = Some nd) nodes' /\
        (seeks <= seeks')%nat /\
        ((Z.of_nat (length nodes') < n) -> seeks' = (seeks + S k)%nat)).
      { intros i Hrun. destruct (IH _ _ _ _ _ Hall Hrun) as (Ha & Hs & Hk).
        split; [exact Ha|]. split; [lia|]. intros Hl. rewrite (Hk Hl). lia. }
      destruct (bytes_Equal (Node_ID nd) (self db)); [apply Hskip|].
      destruct (maxAge <? time_Sub now (lastPong db (Node_ID nd))); [apply Hskip|].
      destruct (existsb _ nodes); [apply Hskip|].
      intros Hrun.
      assert (Hall' : Forall (fun nd => exists e, In e (lvl db) /\ node_record e = Some nd)
                        (nodes ++ [nd])).
      { apply Forall_app. split; [exact Hall|]. constructor; [|constructor].
        destruct (nextNode_In _ _ Hnext) as (e & Hin & Hrec).
        exists e. split; [now apply (lvl_Seek_In _ _ _ Hin) | exact Hrec]. }
      destruct (IH _ _ _ _ _ Hall' Hrun) as (Ha & Hs & Hk).
      split; [exact Ha|]. split; [lia|]. intros Hl. rewrite (Hk Hl). lia.
    + intros Hrun. destruct (IH _ _ _ _ _ Hall Hrun) as (Ha & Hs & Hk).
      split; [exact Ha|]. split; [lia|]. intros Hl. rewrite (Hk Hl). lia.
Qed.

(** X23. Every node [querySeeds] returns was decoded from a node
    record of the store.  It gives up only when its budget is spent: a
    result of fewer than [n] nodes comes after all the [5*n] seeks (as
    many as the [int] product allows) were made. *)
Theorem querySeeds_nodes_from_store (rnd : nat -> NodeID) (now : Z) (db : nodeDB)
    (n maxAge : Z) (nodes : list Node) (seeks : nat) :
  querySeeds rnd now db n maxAge = Some (nodes, seeks) ->
  Forall (fun nd => exists e, In e (lvl db) /\ node_record e = Some nd) nodes /\
  (Z.of_nat (length nodes) < n -> seeks = Z.to_nat (wrap_int64 (n * 5))).
Proof.
  unfold querySeeds. destruct (makeslice_ok ptrSize n); cbn [negb]; [|discriminate].
  intros Hrun.
  destruct (querySeeds_loop_from_store rnd now maxAge n db _ _ _ _ _ _
              ltac:(constructor) Hrun) as (Hall & _ & Hk).
  split; [exact Hall|]. intros Hl. now rewrite (Hk Hl).
Qed.

End SeedsMore.

Lemma querySeeds_nodes_from_store_sample :
  exists nodes seeks,
    @querySeeds sampleSig (fun _ => idPeer) sampleNow sampleDB 3 Hour
      = Some (nodes, seeks) /\
    Forall (fun nd => exists e, In e (lvl sampleDB) /\ @node_record sampleSig e = Some nd)
           nodes /\
    (Z.of_nat (length nodes) < 3 -> seeks = Z.to_nat (wrap_int64 (3 * 5))).
Proof.
  assert (Hrun : exists r,
            @querySeeds sampleSig (fun _ => idPeer) sampleNow sampleDB 3 Hour = Some r).
  { eexists. vm_compute. reflexivity. }
  destruct Hrun as [[nodes seeks] Hrun]. exists nodes, seeks. split; [exact Hrun|].
  exact (@querySeeds_nodes_from_store sampleSig (fun _ => idPeer) sampleNow sampleDB 3 Hour
           nodes seeks Hrun).
Defined.

End DiscoverSpec.

(** * Part II (b): properties of the header chain *)

Module ChainSpec.

Import Chain.

Section LruFacts.

Context {K V : Type} `{EqDecision K}.

Lemma find_key_filter_ne (l : list (K * V)) (k k' : K) :
  k <> k' ->
  find (fun e => bool_decide (fst e = k'))
       (List.filter (fun e => negb (bool_decide (fst e = k))) l)
  = find (fun e => bool_decide (fst e = k')) l.
Proof.
  intros Hne. induction l as [|[a v] l IH]; [reflexivity|].
  cbn [List.filter find fst]. destruct (bool_decide (a = k)) eqn:Hak; cbn [negb].
  - apply bool_decide_eq_true in Hak. subst a.
    rewrite (bool_decide_eq_false_2 (k = k')) by exact Hne. exact IH.
  - cbn [find fst]. destruct (bool_decide (a = k')); [reflexivity | exact IH].
Qed.

Lemma find_key_removelast (l : list (K * V)) (k : K) (e : K * V) :
  find (fun e => bool_decide (fst e = k)) (removelast l) = Some e ->
  find (fun e => bool_decide (fst e = k)) l = Some e.
Proof.
  induction l as [|a l IH]; [discriminate|].
  destruct l as [|b l]; [discriminate|].
  change (removelast (a :: b :: l)) with (a :: removelast (b :: l)).
  cbn [find]. destruct (bool_decide (fst a = k)); [trivial | exact IH].
Qed.

Lemma lru_find_front (size : nat) (l : list (K * V)) (k k' : K) (v : V) :
  lru_find (mkLru size ((k, v) :: l)) k'
  = if bool_decide (k = k') then Some v
    else snd <$> find (fun e => bool_decide (fst e = k')) l.
Proof.
  unfold lru_find. cbn [lru_items find fst].
  destruct (bool_decide (k = k')); reflexivity.
Qed.

Lemma lru_find_In (c : lruCache K V) (k : K) (v : V) :
  lru_find c k = Some v -> In (k, v) (lru_items c).
Proof.
  unfold lru_find. destruct (find _ _) as [[a b]|] eqn:Hf; [|discriminate].
  cbn. intros [= <-]. apply find_some in Hf as [Hin Hk].
  apply bool_decide_eq_true in Hk. cbn in Hk. now subst a.
Qed.

Lemma lru_Get_fst (c : lruCache K V) (k : K) : fst (lru_Get c k) = lru_find c k.
Proof. unfold lru_Get. now destruct (lru_find c k). Qed.

(** A lookup changes the order of the entries, not what a key maps to. *)
Lemma lru_Get_find (c : lruCache K V) (k k' : K) :
  lru_find (snd (lru_Get c k)) k' = lru_find c k'.
Proof.
  unfold lru_Get. destruct (lru_find c k) as [v|] eqn:Hk; [|reflexivity].
  cbn [snd]. rewrite lru_find_front.
  destruct (bool_decide (k = k')) eqn:Hkk.
  - apply bool_decide_eq_true in Hkk. now subst k'.
  - apply bool_decide_eq_false in Hkk. unfold lru_others, lru_find.
    now rewrite find_key_filter_ne.
Qed.

Lemma lru_Get_items (c : lruCache K V) (k : K) (e : K * V) :
  In e (lru_items (snd (lru_Get c k))) -> In e (lru_items c).
Proof.
  unfold lru_Get. destruct (lru_find c k) as [v|] eqn:Hk; [|trivial].
  cbn [snd lru_items]. intros [<- | Hin]; [now apply lru_find_In|].
  unfold lru_others in Hin. now apply filter_In in Hin as [Hin _].
Qed.

(** An insertion adds its own entry, and may evict others. *)
Lemma lru_Add_find (c : lruCache K V) (k k' : K) (v v' : V) :
  lru_find (lru_Add c k v) k' = Some v' ->
  (k' = k /\ v' = v) \/ lru_find c k' = Some v'.
Proof.
  unfold lru_Add. destruct (lru_find c k) as [w|] eqn:Hk.
  - rewrite lru_find_front. destruct (bool_decide (k = k')) eqn:Hkk.
    + apply bool_decide_eq_true in Hkk. intros [= <-]. now left.
    + apply bool_decide_eq_false in Hkk. unfold lru_others.
      rewrite find_key_filter_ne by exact Hkk. now right.
  - destruct (lru_size c <? length ((k, v) :: lru_items c))%nat.
    + unfold lru_find at 1. cbn [lru_items].
      destruct (find _ (removelast _)) as [e|] eqn:Hf; [|discriminate].
      apply find_key_removelast in Hf. cbn [fmap option_fmap option_map].
      intros [= <-]. revert Hf. cbn [find fst].
      destruct (bool_decide (k = k')) eqn:Hkk.
      * apply bool_decide_eq_true in Hkk. intros [= <-]. now left.
      * intros Hf. right. unfold lru_find. now rewrite Hf.
    + rewrite lru_find_front. destruct (bool_decide (k = k')) eqn:Hkk.
      * apply bool_decide_eq_true in Hkk. intros [= <-]. now left.
      * now right.
Qed.

Lemma In_removelast (A : Type) (l : list A) (x : A) : In x (removelast l) -> In x l.
Proof.
  induction l as [|a l IH]; [trivial|].
  destruct l as [|b l]; [intros []|].
  change (removelast (a :: b :: l)) with (a :: removelast (b :: l)).
  intros [<- | Hin]; [now left | right; now apply IH].
Qed.

Lemma lru_Add_items (c : lruCache K V) (k : K) (v : V) (e : K * V) :
  In e (lru_items (lru_Add c k v)) -> e = (k, v) \/ In e (lru_items c).
Proof.
  unfold lru_Add. destruct (lru_find c k) as [w|].
  - cbn [lru_items]. intros [<- | Hin]; [now left | right].
    unfold lru_others in Hin. now apply filter_In in Hin as [Hin _].
  - destruct (lru_size c <? length ((k, v) :: lru_items c))%nat; cbn [lru_items].
    + intros Hin. apply In_removelast in Hin as [<- | Hin]; [now left | now right].
    + intros [<- | Hin]; [now left | now right].
Qed.

End LruFacts.

Section ChainFacts.

Context {Hash Header : Type} `{Countable Hash} `{EqDecision Header}.
Context `{!HeaderSig Hash Header}.

Implicit Types (hc : HeaderChain (Hash := Hash) (Header := Header)).
Implicit Types (db : ChainDb (Hash := Hash) (Header := Header)).

(** ** Machine integers *)

Lemma big_Uint64_lt (z : Z) : (big_Uint64 z < 2 ^ 64)%N.
Proof. unfold big_Uint64. apply N.mod_upper_bound. discriminate. Qed.

Lemma uint64_pred_spec (n : N) : (0 < n < 2 ^ 64)%N -> uint64_pred n = (n - 1)%N.
Proof.
  intros Hn. unfold uint64_pred.
  replace (n + (2 ^ 64 - 1))%N with ((n - 1) + 1 * 2 ^ 64)%N by lia.
  rewrite N.Div0.mod_add. apply N.mod_small. lia.
Qed.

(** ** Heights *)

Lemma heights_down_nil (H' h : N) : (H' <= h)%N -> heights_down H' h = [].
Proof.
  intros Hle. unfold heights_down.
  replace (N.to_nat (H' - h)) with 0%nat by lia. reflexivity.
Qed.

Lemma heights_down_cons (H' h : N) :
  (h < H')%N -> heights_down H' h = H' :: heights_down (H' - 1) h.
Proof.
  intros Hlt. unfold heights_down.
  replace (N.to_nat (H' - h)) with (S (N.to_nat (H' - 1 - h))) by lia.
  cbn [seq map]. f_equal; [lia|].
  rewrite <- seq_shift, map_map. apply map_ext. intros i. lia.
Qed.

Lemma heights_down_In (H' h k : N) : In k (heights_down H' h) <-> (h < k <= H')%N.
Proof.
  unfold heights_down. rewrite in_map_iff. split.
  - intros (i & <- & Hi). apply in_seq in Hi. lia.
  - intros Hk. exists (N.to_nat (H' - k)). split; [lia|]. apply in_seq. lia.
Qed.

Lemma heights_down_NoDup (H' h : N) : NoDup (heights_down H' h).
Proof.
  remember (N.to_nat (H' - h)) as n eqn:Hn. revert H' Hn.
  induction n as [|n IH]; intros H' Hn.
  - rewrite heights_down_nil by lia. constructor.
  - rewrite heights_down_cons by lia. constructor.
    + intros Hin. apply list_elem_of_In, heights_down_In in Hin. lia.
    + apply IH. lia.
Qed.

Lemma heights_upto_In (H' k : N) : In k (heights_upto H') <-> (k <= H')%N.
Proof.
  unfold heights_upto. rewrite in_map_iff. split.
  - intros (i & <- & Hi). apply in_seq in Hi. lia.
  - intros Hk. exists (N.to_nat k). split; [lia|]. apply in_seq. lia.
Qed.

Lemma NoDup_map_inj_In (A B : Type) (f : A -> B) (l : list A) (a b : A) :
  NoDup (map f l) -> In a l -> In b l -> f a = f b -> a = b.
Proof.
  induction l as [|x l IH]; [intros _ []|].
  cbn [map]. intros Hnd Ha Hb Hab. apply NoDup_cons in Hnd as [Hx Hnd].
  destruct Ha as [<- | Ha], Hb as [<- | Hb]; auto.
  - exfalso. apply Hx, list_elem_of_In. rewrite Hab. now apply in_map.
  - exfalso. apply Hx, list_elem_of_In. rewrite <- Hab. now apply in_map.
Qed.

(** ** Header lookup *)

Lemma GetHeader_fst hc (hash : Hash) (number : N) :
  fst (GetHeader hc hash number) = peekHeader hc hash number.
Proof.
  unfold GetHeader, peekHeader.
  pose proof (lru_Get_fst (headerCache hc) hash) as Hg.
  destruct (lru_Get (headerCache hc) hash) as [[h|] c]; cbn [fst] in Hg; rewrite <- Hg.
  - reflexivity.
  - now destruct (ReadHeader (chainDb hc) hash number).
Qed.

(** [GetHeader] touches the header cache only. *)
Lemma GetHeader_frame hc (hash : Hash) (number : N) :
  let hc' := snd (GetHeader hc hash number) in
  chainDb hc' = chainDb hc /\
  genesisHeader hc' = genesisHeader hc /\
  currentHeader hc' = currentHeader hc /\
  currentHeaderHash hc' = currentHeaderHash hc /\
  numberCache hc' = numberCache hc.
Proof.
  unfold GetHeader.
  destruct (lru_Get (headerCache hc) hash) as [[h|] c]; [now cbn|].
  destruct (ReadHeader (chainDb hc) hash number); now cbn.
Qed.

(** After [GetHeader], what the cache maps a hash to was there before,
    or is the header just read from the store. *)
Lemma GetHeader_cache hc (hash : Hash) (number : N) (y : Hash) (v : Header) :
  lru_find (headerCache (snd (GetHeader hc hash number))) y = Some v ->
  lru_find (headerCache hc) y = Some v \/
  (y = hash /\ ReadHeader (chainDb hc) hash number = Some v).
Proof.
  unfold GetHeader.
  pose proof (lru_Get_find (headerCache hc) hash y) as Hg.
  destruct (lru_Get (headerCache hc) hash) as [[h|] c]; cbn [snd] in Hg.
  - cbn [snd headerCache with_headerCache]. rewrite Hg. now left.
  - destruct (ReadHeader (chainDb hc) hash number) as [h|] eqn:Hr.
    + cbn [snd headerCache with_headerCache]. intros Hf.
      apply lru_Add_find in Hf as [[-> ->] | Hf]; [now right | now left].
    + cbn [snd]. now left.
Qed.

Lemma GetHeader_items hc (hash : Hash) (number : N) (e : Hash * Header) :
  In e (lru_items (headerCache (snd (GetHeader hc hash number)))) ->
  In e (lru_items (headerCache hc)) \/
  (fst e = hash /\ ReadHeader (chainDb hc) hash number = Some (snd e)).
Proof.
  unfold GetHeader.
  pose proof (lru_Get_items (headerCache hc) hash e) as Hg.
  destruct (lru_Get (headerCache hc) hash) as [[h|] c]; cbn [snd] in Hg.
  - cbn [snd headerCache with_headerCache]. intros Hin. left. now apply Hg.
  - destruct (ReadHeader (chainDb hc) hash number) as [h|] eqn:Hr.
    + cbn [snd headerCache with_headerCache]. intros Hin.
      apply lru_Add_items in Hin as [-> | Hin]; [now right | now left].
    + cbn [snd]. now left.
Qed.

(** ** Batches *)

Lemma batch_Write_app db (a b : Batch) :
  batch_Write db (a ++ b) = batch_Write (batch_Write db a) b.
Proof. unfold batch_Write. apply fold_left_app. Qed.

Lemma batch_Write_heads db (b : Batch (Hash := Hash)) :
  db_headHeaderHash (batch_Write db b) = db_headHeaderHash db /\
  db_headBlockHash (batch_Write db b) = db_headBlockHash db /\
  db_numbers (batch_Write db b) = db_numbers db.
Proof.
  revert db. induction b as [|op b IH]; intros db; [now cbn|].
  cbn [batch_Write fold_left]. destruct (IH (apply_op db op)) as (H1 & H2 & H3).
  unfold batch_Write in *. rewrite H1, H2, H3. now destruct op.
Qed.


Lemma batch_Write_canonical_kept db (b : Batch (Hash := Hash)) (k : N) :
  ~ In (OpDeleteCanonicalHash k) b ->
  db_canonical (batch_Write db b) !! k = db_canonical db !! k.
Proof.
  revert db. induction b as [|op b IH]; intros db Hin; [reflexivity|].
  cbn [batch_Write fold_left]. unfold batch_Write in IH. rewrite IH.
  2:{ intros Hb. apply Hin. now right. }
  destruct op as [x n|n|f]; cbn; try reflexivity.
  apply lookup_delete_ne. intros ->. apply Hin. now left.
Qed.

Lemma batch_Write_headers_kept db (b : Batch (Hash := Hash)) (x : Hash) (n : N) :
  ~ In (OpDeleteHeader x n) b ->
  db_headers (batch_Write db b) !! (x, n) = db_headers db !! (x, n).
Proof.
  revert db. induction b as [|op b IH]; intros db Hin; [reflexivity|].
  cbn [batch_Write fold_left]. unfold batch_Write in IH. rewrite IH.
  2:{ intros Hb. apply Hin. now right. }
  destruct op as [y m|m|f]; cbn; try reflexivity.
  apply lookup_delete_ne. intros [= -> ->]. apply Hin. now left.
Qed.

(** ** The loops of [SetHead] *)

Lemma rollback_canonical_spec (h : N) (k : nat) :
  forall (i : N) (b : Batch (Hash := Hash)) (tr : list Event),
  (i < 2 ^ 64)%N ->
  (N.to_nat (i - h) <= k)%nat ->
  rollback_canonical k h i b tr
  = (b ++ map OpDeleteCanonicalHash (heights_down i h),
     tr ++ map EvDeleteCanonicalHash (heights_down i h)).
Proof.
  induction k as [|k IH]; intros i b tr Hi Hk; cbn [rollback_canonical].
  - replace (h <? i)%N with false by (symmetry; apply N.ltb_ge; lia).
    rewrite heights_down_nil by lia. cbn [map]. now rewrite !app_nil_r.
  - destruct (h <? i)%N eqn:Hlt.
    + apply N.ltb_lt in Hlt. rewrite uint64_pred_spec by lia.
      rewrite IH by lia. rewrite (heights_down_cons i h) by lia.
      unfold DeleteCanonicalHash. cbn [map]. now rewrite <- !app_assoc.
    + apply N.ltb_ge in Hlt. rewrite heights_down_nil by lia.
      cbn [map]. now rewrite !app_nil_r.
Qed.

(** The loop does nothing when the head is nil or not above the target. *)
Lemma SetHead_loop_stop (fuel : nat) (h : N) (cb : option DeleteCallback) hc
    (b : Batch) (tr : list Event) :
  (forall hd, currentHeader hc = Some hd -> (big_Uint64 (Number hd) <= h)%N) ->
  SetHead_loop fuel h cb hc b tr = Some (hc, b, tr).
Proof.
  intros Hcur. destruct fuel; cbn [SetHead_loop]; unfold CurrentHeader;
    destruct (currentHeader hc) as [hd|]; try reflexivity;
    (replace (h <? big_Uint64 (Number hd))%N with false;
     [reflexivity | symmetry; apply N.ltb_ge; now apply Hcur]).
Qed.

(** When the loop ends, the store, the genesis header and the recorded
    head hash are as before, and the head is nil or not above the
    target. *)
Lemma SetHead_loop_exit (fuel : nat) (h : N) (cb : option DeleteCallback) :
  forall hc (b : Batch) (tr : list Event) hc' b' tr',
  SetHead_loop fuel h cb hc b tr = Some (hc', b', tr') ->
  chainDb hc' = chainDb hc /\
  genesisHeader hc' = genesisHeader hc /\
  currentHeaderHash hc' = currentHeaderHash hc /\
  (forall hd, currentHeader hc' = Some hd -> (big_Uint64 (Number hd) <= h)%N).
Proof.
  induction fuel as [|fuel IH]; intros hc b tr hc' b' tr'; cbn [SetHead_loop];
    unfold CurrentHeader; destruct (currentHeader hc) as [hdr|] eqn:Hcur.
  - destruct (h <? big_Uint64 (Number hdr))%N eqn:Hlt; [discriminate|].
    intros [= <- <- <-]. repeat split; auto.
    intros hd. rewrite Hcur. intros [= <-]. now apply N.ltb_ge.
  - intros [= <- <- <-]. repeat split; auto. intros hd. rewrite Hcur. discriminate.
  - destruct (h <? big_Uint64 (Number hdr))%N eqn:Hlt.
    + destruct cb as [f|];
        destruct (GetHeader hc (ParentHash hdr) (uint64_pred (big_Uint64 (Number hdr))))
          as [parent hc1] eqn:Hget;
        pose proof (GetHeader_frame hc (ParentHash hdr)
                      (uint64_pred (big_Uint64 (Number hdr)))) as Hfr;
        rewrite Hget in Hfr; cbn [snd] in Hfr;
        destruct Hfr as (Hdb & Hgen & _ & Hhash & _);
        intros Hrun; apply IH in Hrun as (Hdb' & Hgen' & Hhash' & Hexit);
        cbn in Hdb', Hgen', Hhash';
        (repeat split; [congruence | congruence | congruence | exact Hexit]).
    + intros [= <- <- <-]. repeat split; auto.
      intros hd. rewrite Hcur. intros [= <-]. now apply N.ltb_ge.
  - intros [= <- <- <-]. repeat split; auto. intros hd. rewrite Hcur. discriminate.
Qed.

(** [SetHead] on a chain whose head is not above the target. *)
Lemma SetHead_noop (fuel : nat) hc (h : N) (cb : option DeleteCallback) (hd : Header) :
  currentHeader hc = Some hd ->
  (big_Uint64 (Number hd) <= h)%N ->
  SetHead fuel hc h cb
  = Done (with_chainDb (with_currentHeaderHash hc (HashOf hd))
                       (WriteHeadHeaderHash (chainDb hc) (HashOf hd)),
          [EvBatchWrite []; EvWriteHeadHeaderHash (HashOf hd)]).
Proof.
  intros Hcur Hle. unfold SetHead.
  rewrite SetHead_loop_stop.
  2:{ intros hd'. rewrite Hcur. now intros [= <-]. }
  unfold CurrentHeader. rewrite Hcur.
  rewrite rollback_canonical_spec by (pose proof (big_Uint64_lt (Number hd)); lia).
  rewrite heights_down_nil by exact Hle. unfold NewBatch. cbn [map app].
  cbn [batch_Write fold_left].
  destruct hc as [db g c ch hcache ncache]. cbn in Hcur |- *. subst c. reflexivity.
Qed.

(** C10 (amended). When the current head is not above the target,
    [SetHead] calls the callback not once and commits an empty batch:
    headers, indexes and the collaborators' data are as before, and so is
    the current head.  It then writes the head's hash as the persisted
    head-header hash, which is unchanged exactly when it already was that
    hash. *)
Theorem SetHead_at_or_above_head (fuel : nat) hc (h : N)
    (cb : option DeleteCallback) (hd : Header) :
  currentHeader hc = Some hd ->
  (big_Uint64 (Number hd) <= h)%N ->
  exists hc',
    SetHead fuel hc h cb
      = Done (hc', [EvBatchWrite []; EvWriteHeadHeaderHash (HashOf hd)]) /\
    currentHeader hc' = Some hd /\
    db_headers (chainDb hc') = db_headers (chainDb hc) /\
    db_numbers (chainDb hc') = db_numbers (chainDb hc) /\
    db_canonical (chainDb hc') = db_canonical (chainDb hc) /\
    db_foreign (chainDb hc') = db_foreign (chainDb hc) /\
    db_headBlockHash (chainDb hc') = db_headBlockHash (chainDb hc) /\
    db_headHeaderHash (chainDb hc') = Some (HashOf hd) /\
    (db_headHeaderHash (chainDb hc) = Some (HashOf hd) -> chainDb hc' = chainDb hc).
Proof.
  intros Hcur Hle. eexists. split; [now apply SetHead_noop|].
  cbn [with_chainDb with_currentHeaderHash currentHeader chainDb WriteHeadHeaderHash
       db_headers db_numbers db_canonical db_foreign db_headBlockHash db_headHeaderHash].
  split; [exact Hcur|]. do 6 (split; [reflexivity|]).
  intros Hhead. destruct (chainDb hc). cbn in *. now rewrite Hhead.
Qed.

(** What a completed [SetHead] leaves: a head that is not above the
    target or is the genesis header, nil when there is none, and its
    hash recorded in memory and in the store. *)
Lemma SetHead_Done_inv (fuel : nat) hc (h : N) (cb : option DeleteCallback)
    hc1 (tr1 : list Event) :
  SetHead fuel hc h cb = Done (hc1, tr1) ->
  exists hash,
    Hash_of_ptr (currentHeader hc1) = Some hash /\
    currentHeaderHash hc1 = hash /\
    db_headHeaderHash (chainDb hc1) = Some hash /\
    genesisHeader hc1 = genesisHeader hc /\
    (forall cur, currentHeader hc1 = Some cur ->
       (big_Uint64 (Number cur) <= h)%N \/ genesisHeader hc = Some cur) /\
    (currentHeader hc1 = None -> genesisHeader hc = None).
Proof.
  unfold SetHead.
  destruct (SetHead_loop fuel h cb hc NewBatch []) as [[[hcA bA] trA]|] eqn:Hloop;
    [|discriminate].
  apply SetHead_loop_exit in Hloop as (Hdb & HgenA & _ & Hexit).
  destruct (rollback_canonical _ h _ bA trA) as [b2 tr2]. unfold CurrentHeader.
  cbn [with_chainDb currentHeader].
  destruct (currentHeader hcA) as [c|] eqn:Hc.
  - cbn [with_chainDb currentHeader Hash_of_ptr]. rewrite Hc. cbn [Hash_of_ptr].
    intros Heq. inversion Heq; subst; clear Heq.
    exists (HashOf c). cbn. rewrite Hc. cbn.
    do 4 (split; [auto|]). split; [|discriminate].
    intros cur [= <-]. left. now apply Hexit.
  - cbn [with_chainDb store_currentHeader currentHeader genesisHeader]. rewrite HgenA.
    destruct (Hash_of_ptr (genesisHeader hc)) as [x|] eqn:Hx; [|discriminate].
    intros Heq. inversion Heq; subst; clear Heq.
    exists x. cbn. rewrite HgenA.
    do 4 (split; [auto|]). split.
    + intros cur Hcur. now right.
    + auto.
Qed.

(** [SetHead] on a chain with neither a head nor a genesis header, when
    [Hash()] returns on a nil header. *)
Lemma SetHead_noop_nil (fuel : nat) hc (h : N) (cb : option DeleteCallback) (x : Hash) :
  currentHeader hc = None ->
  genesisHeader hc = None ->
  nilHash = Some x ->
  SetHead fuel hc h cb
  = Done (with_chainDb (with_currentHeaderHash hc x)
                       (WriteHeadHeaderHash (chainDb hc) x),
          [EvBatchWrite []; EvWriteHeadHeaderHash x]).
Proof.
  intros Hcur Hgen Hnil. unfold SetHead.
  rewrite SetHead_loop_stop.
  2:{ intros hd'. rewrite Hcur. discriminate. }
  unfold CurrentHeader. rewrite Hcur.
  rewrite rollback_canonical_spec by (cbn; lia).
  rewrite heights_down_nil by lia. unfold NewBatch. cbn [map app].
  cbn [batch_Write fold_left with_chainDb currentHeader]. rewrite Hcur.
  cbn [store_currentHeader currentHeader with_chainDb genesisHeader]. rewrite Hgen.
  cbn [Hash_of_ptr]. rewrite Hnil.
  destruct hc as [db g c ch hcache ncache]. cbn in Hcur, Hgen |- *. subst c g.
  reflexivity.
Qed.

(** C6 (amended). With the genesis header at height 0, a second
    [SetHead] to the same target changes nothing: it ends in the state the first call
    left, with the same head, persisted head hash and canonical index,
    and all it does is commit an empty batch and write the same head
    hash again; the callback is not called. *)
Theorem SetHead_idempotent (fuel fuel' : nat) hc (h : N)
    (cb : option DeleteCallback) hc1 (tr1 : list Event) :
  (forall g, genesisHeader hc = Some g -> big_Uint64 (Number g) = 0%N) ->
  SetHead fuel hc h cb = Done (hc1, tr1) ->
  SetHead fuel' hc1 h cb
  = Done (hc1, [EvBatchWrite []; EvWriteHeadHeaderHash (currentHeaderHash hc1)]).
Proof.
  intros Hgen Hrun.
  apply SetHead_Done_inv in Hrun as (x & Hx & Hhash & Hhead & Hg1 & Hle & Hnil).
  destruct (currentHeader hc1) as [cur|] eqn:Hcur.
  - cbn [Hash_of_ptr] in Hx. injection Hx as <-.
    assert (Hle' : (big_Uint64 (Number cur) <= h)%N).
    { destruct (Hle cur eq_refl) as [Hle' | Hg]; [exact Hle'|].
      rewrite (Hgen cur Hg). lia. }
    rewrite (SetHead_noop fuel' hc1 h cb cur Hcur Hle'). rewrite Hhash.
    f_equal. f_equal.
    destruct hc1 as [db g c ch hcache ncache]. destruct db as [hs ns cs hh hb fo].
    cbn in *. now subst.
  - cbn [Hash_of_ptr] in Hx.
    assert (Hg : genesisHeader hc1 = None) by (rewrite Hg1; now apply Hnil).
    rewrite (SetHead_noop_nil fuel' hc1 h cb x Hcur Hg Hx). rewrite Hhash.
    f_equal. f_equal.
    destruct hc1 as [db g c ch hcache ncache]. destruct db as [hs ns cs hh hb fo].
    cbn in *. now subst.
Qed.

(** C5. When the rewind loop ends with a nil head, because a parent on
    the way down is in neither the cache nor the store, [SetHead] ends
    with the genesis header as current head and its hash as the persisted
    head-header hash. *)
Theorem SetHead_falls_back_to_genesis (fuel : nat) hc (h : N)
    (cb : option DeleteCallback) hc1 (b : Batch) (tr : list Event) (g : Header) :
  SetHead_loop fuel h cb hc NewBatch [] = Some (hc1, b, tr) ->
  currentHeader hc1 = None ->
  genesisHeader hc = Some g ->
  exists hc' tr',
    SetHead fuel hc h cb = Done (hc', tr') /\
    CurrentHeader hc' = Some g /\
    db_headHeaderHash (chainDb hc') = Some (HashOf g).
Proof.
  intros Hloop Hnil Hgen. unfold SetHead. rewrite Hloop.
  apply SetHead_loop_exit in Hloop as (_ & HgenA & _ & _).
  destruct (rollback_canonical _ h _ b tr) as [b2 tr2]. unfold CurrentHeader.
  cbn [with_chainDb currentHeader]. rewrite Hnil.
  cbn [with_chainDb store_currentHeader currentHeader genesisHeader]. rewrite HgenA, Hgen.
  eexists _, _. split; [reflexivity|]. cbn. split; reflexivity.
Qed.

(** ** Rewinding a linear chain *)

Lemma canonicalHeader_Some db (k : N) (c : Header) :
  canonicalHeader db k = Some c ->
  ReadCanonicalHash db k <> zeroHash /\
  ReadHeader db (ReadCanonicalHash db k) k = Some c.
Proof.
  unfold canonicalHeader.
  destruct (bool_decide (ReadCanonicalHash db k = zeroHash)) eqn:Hz; [discriminate|].
  apply bool_decide_eq_false in Hz. auto.
Qed.

Lemma canonical_ok_facts hc (k : N) :
  canonical_ok hc k = true ->
  exists c, canonicalHeader (chainDb hc) k = Some c /\
    HashOf c = ReadCanonicalHash (chainDb hc) k /\
    big_Uint64 (Number c) = k /\
    (k = 0%N \/ ParentHash c = ReadCanonicalHash (chainDb hc) (k - 1)) /\
    (forall v, lru_find (headerCache hc) (ReadCanonicalHash (chainDb hc) k) = Some v ->
               v = c).
Proof.
  unfold canonical_ok. destruct (canonicalHeader (chainDb hc) k) as [c|]; [|discriminate].
  intros Hok. apply andb_true_iff in Hok as [Hok Hcache].
  apply andb_true_iff in Hok as [Hok Hpar].
  apply andb_true_iff in Hok as [Hhash Hnum].
  apply bool_decide_eq_true in Hhash, Hnum.
  exists c. split; [reflexivity|]. split; [exact Hhash|]. split; [exact Hnum|]. split.
  - apply orb_true_iff in Hpar as [Hz | Hp]; apply bool_decide_eq_true in Hz || 
      apply bool_decide_eq_true in Hp; auto.
  - intros v Hv. rewrite <- Hhash in Hv. rewrite Hv in Hcache.
    now apply bool_decide_eq_true in Hcache.
Qed.

Lemma linear_chain_facts hc :
  linear_chain hc = true ->
  exists hd, currentHeader hc = Some hd /\
    canonicalHeader (chainDb hc) (big_Uint64 (Number hd)) = Some hd /\
    chain_facts hc (big_Uint64 (Number hd)).
Proof.
  unfold linear_chain. destruct (currentHeader hc) as [hd|]; [|discriminate].
  intros Hlin. apply andb_true_iff in Hlin as [Hlin Hnd].
  apply andb_true_iff in Hlin as [Hhead Hall].
  apply bool_decide_eq_true in Hhead, Hnd.
  exists hd. split; [reflexivity|]. split; [exact Hhead|]. split.
  - intros k Hk. apply canonical_ok_facts.
    rewrite forallb_forall in Hall. now apply Hall, heights_upto_In.
  - intros j k Hj Hk Heq.
    apply (NoDup_map_inj_In _ _ _ _ j k Hnd); [| |exact Heq]; now apply heights_upto_In.
Qed.

Lemma rewind_inv_init hc (H' : N) :
  chain_facts hc H' ->
  currentHeader hc = canonicalHeader (chainDb hc) H' ->
  rewind_inv hc H' hc H'.
Proof.
  intros [Hok _] Hcur. repeat split; auto.
  intros j v Hj Hv. destruct (Hok j Hj) as (c & Hc & _ & _ & _ & Hcache).
  rewrite Hc. f_equal. symmetry. now apply Hcache.
Qed.

(** One turn of the rewind loop on a linear chain: from the canonical
    header at [k] the loop moves to the canonical header at [k-1]. *)
Lemma rewind_step (hc0 hc : HeaderChain (Hash := Hash) (Header := Header))
    (H' k : N) (c : Header) :
  chain_facts hc0 H' ->
  (H' < 2 ^ 64)%N ->
  rewind_inv hc0 H' hc k ->
  (0 < k <= H')%N ->
  canonicalHeader (chainDb hc0) k = Some c ->
  exists p hc1,
    GetHeader hc (ParentHash c) (uint64_pred (big_Uint64 (Number c))) = (Some p, hc1) /\
    canonicalHeader (chainDb hc0) (k - 1) = Some p /\
    rewind_inv hc0 H' (store_currentHeader hc1 (Some p)) (k - 1).
Proof.
  intros [Hok Hinj] HH (Hdb & Hgen & Hcur & Hcache) Hk Hc.
  destruct (Hok k ltac:(lia)) as (c' & Hc' & _ & Hnum & Hpar & _).
  rewrite Hc in Hc'. injection Hc' as <-.
  destruct Hpar as [Hz | Hpar]; [lia|].
  destruct (Hok (k - 1)%N ltac:(lia)) as (p & Hp & _ & _ & _ & _).
  rewrite Hnum, Hpar, uint64_pred_spec by lia.
  destruct (GetHeader hc (ReadCanonicalHash (chainDb hc0) (k - 1)) (k - 1))
    as [r hc1] eqn:Hget.
  pose proof (GetHeader_fst hc (ReadCanonicalHash (chainDb hc0) (k - 1)) (k - 1)) as Hfst.
  pose proof (GetHeader_frame hc (ReadCanonicalHash (chainDb hc0) (k - 1)) (k - 1)) as Hfr.
  pose proof (GetHeader_cache hc (ReadCanonicalHash (chainDb hc0) (k - 1)) (k - 1)) as Hca.
  rewrite Hget in Hfst, Hfr, Hca. cbn [fst snd] in Hfst, Hfr, Hca.
  destruct Hfr as (Hdb1 & Hgen1 & _ & _ & _).
  apply canonicalHeader_Some in Hp as Hp'. destruct Hp' as [_ Hread].
  assert (Hr : r = Some p).
  { rewrite Hfst. unfold peekHeader.
    destruct (lru_find (headerCache hc) (ReadCanonicalHash (chainDb hc0) (k - 1)))
      as [v|] eqn:Hv.
    - apply Hcache in Hv; [|lia]. congruence.
    - now rewrite Hdb. }
  clear Hfst. subst r. exists p, hc1. split; [reflexivity|]. split; [exact Hp|].
  repeat split; cbn [store_currentHeader chainDb genesisHeader currentHeader headerCache];
    try congruence.
  intros j v Hj Hv. apply Hca in Hv as [Hv | [Heq Hv]].
  - now apply Hcache.
  - apply Hinj in Heq; [|lia|lia]. subst j. rewrite Hdb in Hv. congruence.
Qed.

Lemma SetHead_loop_linear (hc0 : HeaderChain (Hash := Hash) (Header := Header))
    (H' h : N) (cb : option DeleteCallback) :
  chain_facts hc0 H' ->
  (H' < 2 ^ 64)%N ->
  forall (n : nat) (k : N) hc (b : Batch) (tr : list Event) (fuel : nat),
  n = N.to_nat (k - h) ->
  (h <= k <= H')%N ->
  rewind_inv hc0 H' hc k ->
  (n <= fuel)%nat ->
  exists hc',
    SetHead_loop fuel h cb hc b tr
      = Some (hc', b ++ rewind_header_ops cb (chainDb hc0) k h,
              tr ++ rewind_header_events cb (chainDb hc0) k h) /\
    rewind_inv hc0 H' hc' h.
Proof.
  intros Hfacts HH. induction n as [|n IH]; intros k hc b tr fuel Hn Hk Hinv Hfuel.
  - assert (k = h) by lia. subst k.
    exists hc. split; [|exact Hinv].
    unfold rewind_header_ops, rewind_header_events.
    rewrite heights_down_nil by lia. cbn [flat_map]. rewrite !app_nil_r.
    apply SetHead_loop_stop. intros hd Hhd.
    destruct Hinv as (_ & _ & Hcur & _). rewrite Hcur in Hhd.
    destruct Hfacts as [Hok _].
    destruct (Hok h ltac:(lia)) as (c & Hc & _ & Hnum & _).
    rewrite Hc in Hhd. injection Hhd as <-. lia.
  - destruct fuel as [|fuel]; [lia|].
    pose proof Hfacts as [Hok _].
    destruct (Hok k ltac:(lia)) as (c & Hc & Hhash & Hnum & _).
    destruct (rewind_step hc0 hc H' k c Hfacts HH Hinv ltac:(lia) Hc)
      as (p & hc1 & Hget & Hp & Hinv1).
    specialize (IH (k - 1)%N (store_currentHeader hc1 (Some p))).
    cbn [SetHead_loop]. unfold CurrentHeader.
    destruct Hinv as (_ & _ & Hcur & _). rewrite Hcur, Hc.
    replace (h <? big_Uint64 (Number c))%N with true
      by (symmetry; apply N.ltb_lt; lia).
    rewrite Hget.
    unfold rewind_header_ops, rewind_header_events.
    rewrite (heights_down_cons k h) by lia. cbn [flat_map].
    rewrite Hhash, Hnum.
    destruct cb as [f|].
    + destruct (IH (DeleteHeader (b ++ map OpDeleteForeign
                                          (f (ReadCanonicalHash (chainDb hc0) k) k))
                                 (ReadCanonicalHash (chainDb hc0) k) k)
                   ((tr ++ [EvDelFn (ReadCanonicalHash (chainDb hc0) k) k])
                    ++ [EvDeleteHeader (ReadCanonicalHash (chainDb hc0) k) k])
                   fuel ltac:(lia) ltac:(lia) Hinv1 ltac:(lia))
        as (hc' & Hrun & Hinv').
      exists hc'. split; [|exact Hinv']. rewrite Hrun.
      unfold rewind_header_ops, rewind_header_events, DeleteHeader.
      now rewrite <- !app_assoc.
    + destruct (IH (DeleteHeader b (ReadCanonicalHash (chainDb hc0) k) k)
                   (tr ++ [EvDeleteHeader (ReadCanonicalHash (chainDb hc0) k) k])
                   fuel ltac:(lia) ltac:(lia) Hinv1 ltac:(lia))
        as (hc' & Hrun & Hinv').
      exists hc'. split; [|exact Hinv']. rewrite Hrun.
      unfold rewind_header_ops, rewind_header_events, DeleteHeader.
      now rewrite <- !app_assoc.
Qed.

Lemma rewind_batch_canonical_In (cb : option DeleteCallback) db (H' h k : N) :
  In (OpDeleteCanonicalHash k) (rewind_batch cb db H' h) <-> (h < k <= H')%N.
Proof.
  unfold rewind_batch, rewind_header_ops. rewrite in_app_iff, in_flat_map, in_map_iff.
  split.
  - intros [(j & _ & Hin) | (j & [= <-] & Hin)].
    + apply in_app_or in Hin as [Hin | [Heq | []]]; [|discriminate].
      destruct cb as [f|]; [|destruct Hin].
      apply in_map_iff in Hin as (x & Heq & _). discriminate.
    + now apply heights_down_In.
  - intros Hk. right. exists k. split; [reflexivity | now apply heights_down_In].
Qed.

Lemma rewind_batch_header_In (cb : option DeleteCallback) db (H' h n : N) (x : Hash) :
  In (OpDeleteHeader x n) (rewind_batch cb db H' h) -> (h < n <= H')%N.
Proof.
  unfold rewind_batch, rewind_header_ops. rewrite in_app_iff, in_flat_map, in_map_iff.
  intros [(j & Hj & Hin) | (j & Heq & _)]; [|discriminate].
  apply in_app_or in Hin as [Hin | [[= _ <-] | []]].
  - destruct cb as [f|]; [|destruct Hin].
    apply in_map_iff in Hin as (y & Heq & _). discriminate.
  - now apply heights_down_In.
Qed.

(** [SetHead] on a linear chain, rewinding from the head's height to a
    lower target [h]: what it does, and the state it leaves. *)
Lemma SetHead_linear (fuel : nat) hc (h : N) (cb : option DeleteCallback) (hd : Header) :
  linear_chain hc = true ->
  currentHeader hc = Some hd ->
  (h < big_Uint64 (Number hd))%N ->
  (N.to_nat (big_Uint64 (Number hd) - h) <= fuel)%nat ->
  exists hc' target,
    SetHead fuel hc h cb
      = Done (hc', rewind_events cb (chainDb hc) (big_Uint64 (Number hd)) h
                   ++ [EvBatchWrite (rewind_batch cb (chainDb hc) (big_Uint64 (Number hd)) h);
                       EvWriteHeadHeaderHash (ReadCanonicalHash (chainDb hc) h)]) /\
    canonicalHeader (chainDb hc) h = Some target /\
    HashOf target = ReadCanonicalHash (chainDb hc) h /\
    currentHeader hc' = Some target /\
    chainDb hc'
      = WriteHeadHeaderHash
          (batch_Write (chainDb hc) (rewind_batch cb (chainDb hc) (big_Uint64 (Number hd)) h))
          (ReadCanonicalHash (chainDb hc) h) /\
    (forall v, lru_find (headerCache hc') (ReadCanonicalHash (chainDb hc) h) = Some v ->
               v = target).
Proof.
  intros Hlin Hcur Hlt Hfuel.
  apply linear_chain_facts in Hlin as (hd' & Hcur' & Hhead & Hfacts).
  rewrite Hcur in Hcur'. injection Hcur' as <-.
  set (H' := big_Uint64 (Number hd)) in *.
  assert (HH : (H' < 2 ^ 64)%N) by apply big_Uint64_lt.
  assert (Hinit : rewind_inv hc H' hc H').
  { apply rewind_inv_init; [exact Hfacts | congruence]. }
  destruct (SetHead_loop_linear hc H' h cb Hfacts HH (N.to_nat (H' - h)) H' hc
              NewBatch [] fuel eq_refl ltac:(lia) Hinit Hfuel)
    as (hcA & Hloop & (HdbA & HgenA & HcurA & HcacheA)).
  pose proof Hfacts as [Hok _].
  destruct (Hok h ltac:(lia)) as (target & Htarget & Hhash & _ & _ & _).
  unfold SetHead. rewrite Hloop. unfold CurrentHeader. rewrite Hcur.
  fold H'. rewrite rollback_canonical_spec by lia.
  cbn [with_chainDb currentHeader]. rewrite HcurA, Htarget.
  cbn [with_chainDb currentHeader]. rewrite HcurA, Htarget. cbn [Hash_of_ptr].
  exists (with_chainDb
            (with_currentHeaderHash
               (with_chainDb hcA
                  (batch_Write (chainDb hcA)
                     (NewBatch ++ rewind_header_ops cb (chainDb hc) H' h
                      ++ map OpDeleteCanonicalHash (heights_down H' h))))
               (HashOf target))
            (WriteHeadHeaderHash
               (batch_Write (chainDb hcA)
                  (NewBatch ++ rewind_header_ops cb (chainDb hc) H' h
                   ++ map OpDeleteCanonicalHash (heights_down H' h)))
               (HashOf target))), target.
  split.
  - cbn [with_chainDb with_currentHeaderHash currentHeaderHash chainDb].
    unfold rewind_events, rewind_batch, NewBatch. cbn [app].
    rewrite Hhash. now rewrite <- !app_assoc.
  - split; [first [exact Htarget | reflexivity]|]. split; [exact Hhash|].
    cbn [with_chainDb with_currentHeaderHash currentHeader chainDb headerCache].
    split; [congruence|]. split.
    + unfold rewind_batch, NewBatch. cbn [app]. now rewrite HdbA, Hhash.
    + intros v Hv. apply HcacheA in Hv; [|lia]. congruence.
Qed.

(** C4. On a linear chain with its head at height [H] and a target
    [h < H], [SetHead] with a callback does, in this order and nothing
    else: for each height [k] from [H] down to [h+1] one call of the
    callback with the hash and number of the canonical header at [k],
    followed by the deletion of that header; the deletions of the
    canonical index entries from [H] down to [h+1]; one commit of the
    batch that holds all of these deletions; the write of the new head
    hash.  The heights visited are exactly those above [h] up to [H],
    each once. *)
Theorem SetHead_callback_once_per_height (fuel : nat) hc (h : N)
    (cb : DeleteCallback) (hd : Header) :
  linear_chain hc = true ->
  currentHeader hc = Some hd ->
  (h < big_Uint64 (Number hd))%N ->
  (N.to_nat (big_Uint64 (Number hd) - h) <= fuel)%nat ->
  (exists hc',
     SetHead fuel hc h (Some cb)
     = Done (hc',
             flat_map (fun k => [EvDelFn (ReadCanonicalHash (chainDb hc) k) k;
                                 EvDeleteHeader (ReadCanonicalHash (chainDb hc) k) k])
                      (heights_down (big_Uint64 (Number hd)) h)
             ++ map EvDeleteCanonicalHash (heights_down (big_Uint64 (Number hd)) h)
             ++ [EvBatchWrite
                   (flat_map (fun k =>
                                map OpDeleteForeign (cb (ReadCanonicalHash (chainDb hc) k) k)
                                ++ [OpDeleteHeader (ReadCanonicalHash (chainDb hc) k) k])
                             (heights_down (big_Uint64 (Number hd)) h)
                    ++ map OpDeleteCanonicalHash (heights_down (big_Uint64 (Number hd)) h));
                 EvWriteHeadHeaderHash (ReadCanonicalHash (chainDb hc) h)])) /\
  NoDup (heights_down (big_Uint64 (Number hd)) h) /\
  (forall k, In k (heights_down (big_Uint64 (Number hd)) h)
             <-> (h < k <= big_Uint64 (Number hd))%N) /\
  (forall k, (h < k <= big_Uint64 (Number hd))%N ->
     exists c, canonicalHeader (chainDb hc) k = Some c /\
               HashOf c = ReadCanonicalHash (chainDb hc) k /\
               big_Uint64 (Number c) = k).
Proof.
  intros Hlin Hcur Hlt Hfuel. split; [|split; [|split]].
  - destruct (SetHead_linear fuel hc h (Some cb) hd Hlin Hcur Hlt Hfuel)
      as (hc' & target & Hrun & _).
    exists hc'. rewrite Hrun. unfold rewind_events, rewind_batch,
      rewind_header_events, rewind_header_ops. cbn [app].
    now rewrite <- app_assoc.
  - apply heights_down_NoDup.
  - intros k. apply heights_down_In.
  - intros k Hk. apply linear_chain_facts in Hlin as (hd' & Hcur' & _ & [Hok _]).
    rewrite Hcur in Hcur'. injection Hcur' as <-.
    destruct (Hok k ltac:(lia)) as (c & Hc & Hhash & Hnum & _). eauto.
Qed.


(** ** The ancestor walk *)

Lemma known_headers_store hc (x : Hash) (n : N) (v : Header) :
  ReadHeader (chainDb hc) x n = Some v -> In (x, v) (known_headers hc).
Proof.
  unfold ReadHeader, known_headers. intros Hr. apply in_or_app. right.
  apply in_map_iff. exists ((x, n), v). split; [reflexivity|].
  apply list_elem_of_In. now apply elem_of_map_to_list.
Qed.

Lemma known_headers_cache hc (x : Hash) (v : Header) :
  lru_find (headerCache hc) x = Some v -> In (x, v) (known_headers hc).
Proof.
  intros Hf. unfold known_headers. apply in_or_app. left. now apply lru_find_In.
Qed.

Lemma headers_wf_facts hc :
  headers_wf hc = true ->
  (forall x v, In (x, v) (known_headers hc) -> HashOf v = x) /\
  (forall x c y p, In (x, c) (known_headers hc) -> In (y, p) (known_headers hc) ->
     HashOf p = ParentHash c -> Number p = Number c - 1) /\
  (forall x c y p, In (x, c) (known_headers hc) -> In (y, p) (known_headers hc) ->
     HashOf p = HashOf c -> p = c).
Proof.
  unfold headers_wf. intros Hwf. apply andb_true_iff in Hwf as [Hkey Hpair].
  rewrite forallb_forall in Hkey, Hpair.
  assert (Hpair' : forall e1 e2, In e1 (known_headers hc) -> In e2 (known_headers hc) ->
            (HashOf (snd e2) = ParentHash (snd e1) -> Number (snd e2) = Number (snd e1) - 1) /\
            (HashOf (snd e2) = HashOf (snd e1) -> snd e2 = snd e1)).
  { intros e1 e2 H1 H2. specialize (Hpair e1 H1). rewrite forallb_forall in Hpair.
    specialize (Hpair e2 H2). apply andb_true_iff in Hpair as [Hp Hq]. split.
    - intros Heq. rewrite (bool_decide_eq_true_2 _ Heq) in Hp. cbn in Hp.
      now apply bool_decide_eq_true in Hp.
    - intros Heq. rewrite (bool_decide_eq_true_2 _ Heq) in Hq. cbn in Hq.
      now apply bool_decide_eq_true in Hq. }
  split; [|split].
  - intros x v Hin. specialize (Hkey _ Hin). now apply bool_decide_eq_true in Hkey.
  - intros x c y p Hc Hp. apply (Hpair' (x, c) (y, p) Hc Hp).
  - intros x c y p Hc Hp. apply (Hpair' (x, c) (y, p) Hc Hp).
Qed.

Lemma walk_inv_refl hc : walk_inv hc hc.
Proof.
  split; [reflexivity|]. intros e He. unfold known_headers. apply in_or_app. now left.
Qed.

(** A header lookup in a state reached from [hc0] returns a known header
    of [hc0], or nothing when the store has none, and leaves such a state. *)
Lemma GetHeader_walk (hc0 hc hc1 : HeaderChain (Hash := Hash) (Header := Header))
    (x : Hash) (n : N) (r : option Header) :
  walk_inv hc0 hc ->
  GetHeader hc x n = (r, hc1) ->
  walk_inv hc0 hc1 /\
  (forall v, r = Some v -> In (x, v) (known_headers hc0)) /\
  (r = None -> ReadHeader (chainDb hc0) x n = None).
Proof.
  intros [Hdb Hitems] Hget.
  pose proof (GetHeader_fst hc x n) as Hfst.
  pose proof (GetHeader_frame hc x n) as Hfr.
  rewrite Hget in Hfst, Hfr. cbn [fst snd] in Hfst, Hfr.
  destruct Hfr as (Hdb1 & _). split; [split|split].
  - congruence.
  - intros e He. pose proof (GetHeader_items hc x n e) as Hit.
    rewrite Hget in Hit. cbn [snd] in Hit. destruct (Hit He) as [Hold | [Hx Hr]].
    + now apply Hitems.
    + destruct e as [y v]. cbn in Hx, Hr. subst y. rewrite Hdb in Hr.
      now apply (known_headers_store hc0 x n).
  - intros v ->. unfold peekHeader in Hfst.
    destruct (lru_find (headerCache hc) x) as [w|] eqn:Hw.
    + injection Hfst as ->. now apply Hitems, lru_find_In.
    + rewrite Hdb in Hfst. symmetry in Hfst. now apply (known_headers_store hc0 x n).
  - intros ->. unfold peekHeader in Hfst.
    destruct (lru_find (headerCache hc) x); [discriminate|]. now rewrite <- Hdb.
Qed.

Lemma GetBlockNumber_frame hc (hash : Hash) :
  chainDb (snd (GetBlockNumber hc hash)) = chainDb hc /\
  headerCache (snd (GetBlockNumber hc hash)) = headerCache hc.
Proof.
  unfold GetBlockNumber. destruct (lru_Get (numberCache hc) hash) as [[n|] c]; [now cbn|].
  destruct (ReadHeaderNumber (chainDb hc) hash); now cbn.
Qed.





End ChainFacts.



Lemma SetHead_callback_once_per_height_sample :
  linear_chain sampleChain = true /\
  currentHeader sampleChain = Some hdr3 /\
  (1 < big_Uint64 (Number hdr3))%N /\
  (N.to_nat (big_Uint64 (Number hdr3) - 1) <= 5)%nat /\
  exists hc',
    SetHead 5 sampleChain 1 (Some sampleDelFn)
    = Done (hc',
            [EvDelFn 103%N 3%N; EvDeleteHeader 103%N 3%N;
             EvDelFn 102%N 2%N; EvDeleteHeader 102%N 2%N;
             EvDeleteCanonicalHash 3%N; EvDeleteCanonicalHash 2%N;
             EvBatchWrite [OpDeleteForeign 3%N; OpDeleteHeader 103%N 3%N;
                           OpDeleteForeign 2%N; OpDeleteHeader 102%N 2%N;
                           OpDeleteCanonicalHash 3%N; OpDeleteCanonicalHash 2%N];
             EvWriteHeadHeaderHash 101%N]).
Proof.
  assert (H1 : linear_chain sampleChain = true) by (vm_compute; reflexivity).
  assert (H2 : currentHeader sampleChain = Some hdr3) by reflexivity.
  assert (H3 : (1 < big_Uint64 (Number hdr3))%N) by (vm_compute; reflexivity).
  assert (H4 : (N.to_nat (big_Uint64 (Number hdr3) - 1) <= 5)%nat) by (vm_compute; lia).
  repeat (split; [assumption|]).
  destruct (SetHead_callback_once_per_height 5 sampleChain 1 sampleDelFn hdr3 H1 H2 H3 H4)
    as [[hc' Hrun] _].
  exists hc'. exact Hrun.
Defined.

Lemma SetHead_falls_back_to_genesis_sample :
  exists hc1 b tr,
    SetHead_loop 5 1 (Some sampleDelFn) prunedChain NewBatch [] = Some (hc1, b, tr) /\
    currentHeader hc1 = None /\
    genesisHeader prunedChain = Some hdr0 /\
    exists hc' tr',
      SetHead 5 prunedChain 1 (Some sampleDelFn) = Done (hc', tr') /\
      CurrentHeader hc' = Some hdr0 /\
      db_headHeaderHash (chainDb hc') = Some (HashOf hdr0).
Proof.
  assert (Hloop : exists r,
            SetHead_loop 5 1 (Some sampleDelFn) prunedChain NewBatch [] = Some r /\
            currentHeader (fst (fst r)) = None).
  { eexists. split; vm_compute; reflexivity. }
  destruct Hloop as [[[hc1 b] tr] [Hloop Hnil]]. cbn [fst] in Hnil.
  exists hc1, b, tr. split; [exact Hloop|]. split; [exact Hnil|].
  split; [reflexivity|].
  exact (SetHead_falls_back_to_genesis 5 prunedChain 1 (Some sampleDelFn)
           hc1 b tr hdr0 Hloop Hnil eq_refl).
Defined.

Lemma SetHead_idempotent_sample :
  (forall g, genesisHeader sampleChain = Some g -> big_Uint64 (Number g) = 0%N) /\
  exists hc1 tr1,
    SetHead 5 sampleChain 1 (Some sampleDelFn) = Done (hc1, tr1) /\
    SetHead 0 hc1 1 (Some sampleDelFn)
    = Done (hc1, [EvBatchWrite []; EvWriteHeadHeaderHash (currentHeaderHash hc1)]).
Proof.
  assert (Hgen : forall g, genesisHeader sampleChain = Some g ->
                           big_Uint64 (Number g) = 0%N).
  { intros g [= <-]. reflexivity. }
  assert (Hrun : exists r, SetHead 5 sampleChain 1 (Some sampleDelFn) = Done r).
  { eexists. vm_compute. reflexivity. }
  destruct Hrun as [[hc1 tr1] Hrun].
  split; [exact Hgen|]. exists hc1, tr1. split; [exact Hrun|].
  exact (SetHead_idempotent 5 0 sampleChain 1 (Some sampleDelFn) hc1 tr1 Hgen Hrun).
Defined.


(** C6, as stated for every chain state, fails when the genesis header
    is not at height 0.  The store lacks the header of height 2; the
    chain is opened with its head at height 3 and [SetGenesis] makes the
    header of height 2 the genesis header.  The first [SetHead] to
    height 0 loses the head at the missing parent and falls back to that
    genesis header, above the target; the second one calls the callback
    twice, deletes two more headers, and moves the head and the
    persisted head hash to the header of height 0. *)
Lemma SetHead_twice_after_SetGenesis :
  exists hc0 hc1 tr1 hc2 tr2,
    NewHeaderChain gapChainDb = Some hc0 /\
    CurrentHeader hc0 = Some hdr3 /\
    SetHead 5 (SetGenesis hc0 (Some hdr2)) 0 (Some sampleDelFn) = Done (hc1, tr1) /\
    CurrentHeader hc1 = Some hdr2 /\
    db_headHeaderHash (chainDb hc1) = Some 102%N /\
    SetHead 5 hc1 0 (Some sampleDelFn) = Done (hc2, tr2) /\
    tr2 = [EvDelFn 102%N 2%N; EvDeleteHeader 102%N 2%N;
           EvDelFn 101%N 1%N; EvDeleteHeader 101%N 1%N;
           EvDeleteCanonicalHash 2%N; EvDeleteCanonicalHash 1%N;
           EvBatchWrite [OpDeleteForeign 2%N; OpDeleteHeader 102%N 2%N;
                         OpDeleteForeign 1%N; OpDeleteHeader 101%N 1%N;
                         OpDeleteCanonicalHash 2%N; OpDeleteCanonicalHash 1%N];
           EvWriteHeadHeaderHash 100%N] /\
    CurrentHeader hc2 = Some hdr0 /\
    db_headHeaderHash (chainDb hc2) = Some 100%N.
Proof.
  eexists _, _, _, _, _.
  split; [vm_compute; reflexivity|].
  split; [reflexivity|].
  split; [vm_compute; reflexivity|].
  split; [reflexivity|].
  split; [reflexivity|].
  split; [vm_compute; reflexivity|].
  split; [reflexivity|].
  split; reflexivity.
Qed.



Lemma SetHead_at_or_above_head_sample :
  currentHeader sampleChain = Some hdr3 /\
  (big_Uint64 (Number hdr3) <= 3)%N /\
  exists hc',
    SetHead 0 sampleChain 3 (Some sampleDelFn)
      = Done (hc', [EvBatchWrite []; EvWriteHeadHeaderHash (HashOf hdr3)]) /\
    currentHeader hc' = Some hdr3 /\
    db_headers (chainDb hc') = db_headers (chainDb sampleChain) /\
    db_numbers (chainDb hc') = db_numbers (chainDb sampleChain) /\
    db_canonical (chainDb hc') = db_canonical (chainDb sampleChain) /\
    db_foreign (chainDb hc') = db_foreign (chainDb sampleChain) /\
    db_headBlockHash (chainDb hc') = db_headBlockHash (chainDb sampleChain) /\
    db_headHeaderHash (chainDb hc') = Some (HashOf hdr3) /\
    (db_headHeaderHash (chainDb sampleChain) = Some (HashOf hdr3) ->
     chainDb hc' = chainDb sampleChain).
Proof.
  assert (H1 : currentHeader sampleChain = Some hdr3) by reflexivity.
  assert (H2 : (big_Uint64 (Number hdr3) <= 3)%N) by (vm_compute; discriminate).
  split; [exact H1|]. split; [exact H2|].
  exact (SetHead_at_or_above_head 0 sampleChain 3 (Some sampleDelFn) hdr3 H1 H2).
Defined.

(** C10, as stated, fails on the persisted head hash.  The sample store
    has its header chain at height 3 and its block chain at height 1;
    [NewHeaderChain] opens it with the head at height 1.  [SetHead] to
    height 2, not below the head, deletes nothing and leaves the head,
    and replaces the persisted head-header hash, that of height 3, by
    that of height 1. *)
Lemma SetHead_rewrites_persisted_head :
  NewHeaderChain sampleChainDb = Some restartedChain /\
  currentHeader restartedChain = Some hdr1 /\
  db_headHeaderHash (chainDb restartedChain) = Some 103%N /\
  exists hc' tr,
    SetHead 0 restartedChain 2 None = Done (hc', tr) /\
    currentHeader hc' = Some hdr1 /\
    db_headHeaderHash (chainDb hc') = Some 101%N.
Proof.
  split; [vm_compute; reflexivity|]. split; [reflexivity|]. split; [reflexivity|].
  eexists _, _. split; [vm_compute; reflexivity|]. split; reflexivity.
Qed.

(** ** More on the caches *)

Section LruMore.

Context {K V : Type} `{EqDecision K}.

Lemma filter_ne_id (l : list (K * V)) (k : K) :
  (forall e, In e l -> fst e <> k) ->
  List.filter (fun e => negb (bool_decide (fst e = k))) l = l.
Proof.
  induction l as [|e l IH]; intros Hne; [reflexivity|]. cbn [List.filter].
  rewrite (bool_decide_eq_false_2 (fst e = k)) by (apply Hne; now left).
  cbn [negb]. f_equal. apply IH. intros x Hx. apply Hne. now right.
Qed.

Lemma lru_find_None (c : lruCache K V) (k : K) :
  lru_find c k = None -> forall e, In e (lru_items c) -> fst e <> k.
Proof.
  unfold lru_find. intros Hf e He Hk.
  destruct (find _ (lru_items c)) eqn:Hfind; [discriminate|].
  apply (find_none _ _ Hfind) in He. apply bool_decide_eq_false in He. contradiction.
Qed.

(** A key at the front with no other entry of its own is served in place. *)
Lemma lru_Get_front (size : nat) (l : list (K * V)) (k : K) (v : V) :
  (forall e, In e l -> fst e <> k) ->
  lru_Get (mkLru size ((k, v) :: l)) k = (Some v, mkLru size ((k, v) :: l)).
Proof.
  intros Hne. unfold lru_Get. rewrite lru_find_front, bool_decide_eq_true_2 by reflexivity.
  unfold lru_others. cbn [lru_size lru_items List.filter fst].
  rewrite bool_decide_eq_true_2 by reflexivity. cbn [negb].
  now rewrite filter_ne_id.
Qed.

(** A served key goes to the front. *)
Lemma lru_Get_Some (c : lruCache K V) (k : K) (v : V) (c' : lruCache K V) :
  lru_Get c k = (Some v, c') -> c' = mkLru (lru_size c) ((k, v) :: lru_others c k).
Proof.
  unfold lru_Get. destruct (lru_find c k); [|discriminate]. now intros [= <- <-].
Qed.

Lemma lru_Get_hit_again (c : lruCache K V) (k : K) (v : V) (c' : lruCache K V) :
  lru_Get c k = (Some v, c') -> lru_Get c' k = (Some v, c').
Proof.
  intros Hget. apply lru_Get_Some in Hget. subst c'. apply lru_Get_front.
  intros e He. unfold lru_others in He. apply filter_In in He as [_ He].
  apply negb_true_iff, bool_decide_eq_false in He. exact He.
Qed.

Lemma lru_Get_miss (c : lruCache K V) (k : K) :
  lru_find c k = None -> lru_Get c k = (None, c).
Proof. intros Hf. unfold lru_Get. now rewrite Hf. Qed.

Lemma lru_Get_empty (size : nat) (k : K) :
  lru_Get (mkLru (V := V) size []) k = (None, mkLru size []).
Proof. reflexivity. Qed.

Lemma lru_Add_empty (size : nat) (k : K) (v : V) :
  (1 <= size)%nat -> lru_Add (mkLru size []) k v = mkLru size [(k, v)].
Proof.
  intros Hsize. unfold lru_Add. cbn [lru_find lru_items find fmap option_fmap option_map
    lru_size length].
  replace (size <? 1)%nat with false by (symmetry; apply Nat.ltb_ge; lia). reflexivity.
Qed.

(** A new key goes to the front, over entries that were there; in a
    cache of two entries or more the entry that was at the front stays. *)
Lemma lru_Add_new (c : lruCache K V) (k : K) (v : V) :
  (1 <= lru_size c)%nat ->
  lru_find c k = None ->
  exists rest,
    lru_Add c k v = mkLru (lru_size c) ((k, v) :: rest) /\
    (forall e, In e rest -> In e (lru_items c)) /\
    forall e rest0, (2 <= lru_size c)%nat -> lru_items c = e :: rest0 ->
      exists rest1, rest = e :: rest1.
Proof.
  intros Hsize Hnone. unfold lru_Add. rewrite Hnone.
  destruct (lru_size c <? length ((k, v) :: lru_items c))%nat eqn:Hfull.
  - apply Nat.ltb_lt in Hfull. cbn [length] in Hfull.
    destruct (lru_items c) as [|a l] eqn:Hitems; [cbn in Hfull; lia|].
    change (removelast ((k, v) :: a :: l)) with ((k, v) :: removelast (a :: l)).
    eexists. split; [reflexivity|]. split; [intros e; apply In_removelast|].
    intros e rest0 Hsize2 [= <- <-].
    destruct l as [|a' l]; [cbn in Hfull; lia|].
    change (removelast (a :: a' :: l)) with (a :: removelast (a' :: l)). eauto.
  - eexists. split; [reflexivity|]. split; [auto|]. intros e rest0 _ Hitems. eauto.
Qed.

Lemma lru_Add_then_Get (c : lruCache K V) (k : K) (v : V) :
  (1 <= lru_size c)%nat ->
  lru_find c k = None ->
  lru_Get (lru_Add c k v) k = (Some v, lru_Add c k v).
Proof.
  intros Hsize Hnone.
  destruct (lru_Add_new c k v Hsize Hnone) as (rest & -> & Hsub & _).
  apply lru_Get_front. intros e He. apply (lru_find_None c k Hnone). now apply Hsub.
Qed.

End LruMore.

Section ChainMore.

Context {Hash Header : Type} `{Countable Hash} `{EqDecision Header}.
Context `{!HeaderSig Hash Header}.

Implicit Types (hc : HeaderChain (Hash := Hash) (Header := Header)).
Implicit Types (db : ChainDb (Hash := Hash) (Header := Header)).

(** ** Opening a chain *)

Lemma GetHeader_fresh db (g c : option Header) (x : Hash) (size : nat)
    (ncache : lruCache Hash N) (hash : Hash) (number : N) :
  (1 <= size)%nat ->
  GetHeader (mkHeaderChain db g c x (lru_New size) ncache) hash number
  = match ReadHeader db hash number with
    | None => (None, mkHeaderChain db g c x (lru_New size) ncache)
    | Some h => (Some h, mkHeaderChain db g c x (mkLru size [(hash, h)]) ncache)
    end.
Proof.
  intros Hsize. unfold GetHeader. cbn [headerCache chainDb]. unfold lru_New.
  rewrite lru_Get_empty. destruct (ReadHeader db hash number); [|reflexivity].
  unfold with_headerCache.
  cbn [chainDb genesisHeader currentHeader currentHeaderHash headerCache numberCache].
  now rewrite lru_Add_empty.
Qed.

(** X14. [NewHeaderChain] fails, for want of a genesis header, exactly
    when the store has no canonical header at height 0.  Otherwise the
    chain it returns is over that store, its genesis header is that
    header, and its head is the header the head-block hash resolves to,
    or the genesis header when that hash is unset or does not resolve;
    the recorded head hash is the head's.  The persisted head-header
    hash is not read. *)
Theorem NewHeaderChain_opens db :
  match canonicalHeader db 0 with
  | None => NewHeaderChain db = None
  | Some g =>
      exists hc,
        NewHeaderChain db = Some hc /\
        chainDb hc = db /\
        genesisHeader hc = Some g /\
        currentHeader hc = Some (openingHead db g) /\
        currentHeaderHash hc = HashOf (openingHead db g)
  end.
Proof.
  unfold canonicalHeader, NewHeaderChain, GetHeaderByNumber, openingHead.
  cbn [chainDb].
  destruct (bool_decide (ReadCanonicalHash db 0 = zeroHash)) eqn:Hz; [reflexivity|].
  set (hash0 := ReadCanonicalHash db 0) in *.
  set (head := ReadHeadBlockHash db).
  rewrite GetHeader_fresh by (unfold headerCacheLimit; cbn; lia). cbn [chainDb].
  destruct (ReadHeader db hash0 0) as [g|] eqn:Hg; [|reflexivity].
  destruct (bool_decide (head = zeroHash)) eqn:Hhead.
  { eexists. split; [reflexivity|]. now cbn. }
  unfold GetHeaderByHash, GetBlockNumber.
  cbn [numberCache SetGenesis store_currentHeader with_headerCache chainDb lru_New].
  unfold lru_New. rewrite lru_Get_empty.
  destruct (ReadHeaderNumber db head) as [n|] eqn:Hn.
  2:{ eexists. split; [reflexivity|]. now cbn. }
  rewrite lru_Add_empty by (unfold numberCacheLimit; lia).
  unfold GetHeader, with_numberCache, store_currentHeader, SetGenesis.
  cbn [headerCache numberCache chainDb genesisHeader currentHeader currentHeaderHash].
  destruct (bool_decide (head = hash0)) eqn:Heq.
  - apply bool_decide_eq_true in Heq. rewrite Heq.
    rewrite lru_Get_front by (intros e []).
    eexists. split; [reflexivity|]. now cbn.
  - apply bool_decide_eq_false in Heq.
    rewrite lru_Get_miss.
    2:{ rewrite lru_find_front, bool_decide_eq_false_2 by congruence. reflexivity. }
    destruct (ReadHeader db head n) as [ch|];
      eexists; (split; [reflexivity|]); now cbn.
Qed.

(** ** Cached lookups *)

Lemma with_headerCache_id hc : with_headerCache hc (headerCache hc) = hc.
Proof. now destruct hc. Qed.

Lemma with_numberCache_id hc : with_numberCache hc (numberCache hc) = hc.
Proof. now destruct hc. Qed.

(** A header served in place by the cache is what [GetHeader] returns,
    whatever the number and the store. *)
Lemma GetHeader_hit hc (hash : Hash) (number : N) (header : Header) :
  lru_Get (headerCache hc) hash = (Some header, headerCache hc) ->
  GetHeader hc hash number = (Some header, hc).
Proof. intros Hget. unfold GetHeader. now rewrite Hget, with_headerCache_id. Qed.

Lemma GetBlockNumber_hit hc (hash : Hash) (number : N) :
  lru_Get (numberCache hc) hash = (Some number, numberCache hc) ->
  GetBlockNumber hc hash = (Some number, hc).
Proof. intros Hget. unfold GetBlockNumber. now rewrite Hget, with_numberCache_id. Qed.

(** After a lookup that found a header, the header cache serves it in
    place. *)
Lemma GetHeader_caches hc (hash : Hash) (number : N) (header : Header) hc1 :
  (1 <= lru_size (headerCache hc))%nat ->
  GetHeader hc hash number = (Some header, hc1) ->
  lru_Get (headerCache hc1) hash = (Some header, headerCache hc1) /\
  numberCache hc1 = numberCache hc.
Proof.
  intros Hsize. unfold GetHeader.
  destruct (lru_Get (headerCache hc) hash) as [[h|] c] eqn:Hget.
  - intros [= -> <-]. apply lru_Get_hit_again in Hget.
    cbn [headerCache with_headerCache numberCache]. now split.
  - destruct (ReadHeader (chainDb hc) hash number) as [h|]; [|discriminate].
    intros [= -> <-].
    assert (Hnone : lru_find (headerCache hc) hash = None).
    { pose proof (lru_Get_fst (headerCache hc) hash) as Hf. now rewrite Hget in Hf. }
    pose proof (lru_Add_then_Get (headerCache hc) hash header Hsize Hnone) as Hagain.
    cbn [headerCache with_headerCache numberCache]. now split.
Qed.

Lemma GetBlockNumber_caches hc (hash : Hash) (number : N) hc1 :
  (1 <= lru_size (numberCache hc))%nat ->
  GetBlockNumber hc hash = (Some number, hc1) ->
  lru_Get (numberCache hc1) hash = (Some number, numberCache hc1) /\
  headerCache hc1 = headerCache hc.
Proof.
  intros Hsize. unfold GetBlockNumber.
  destruct (lru_Get (numberCache hc) hash) as [[n|] c] eqn:Hget.
  - intros [= -> <-]. apply lru_Get_hit_again in Hget.
    cbn [numberCache with_numberCache headerCache]. now split.
  - destruct (ReadHeaderNumber (chainDb hc) hash) as [n|]; [|discriminate].
    intros [= -> <-].
    assert (Hnone : lru_find (numberCache hc) hash = None).
    { pose proof (lru_Get_fst (numberCache hc) hash) as Hf. now rewrite Hget in Hf. }
    pose proof (lru_Add_then_Get (numberCache hc) hash number Hsize Hnone) as Hagain.
    cbn [numberCache with_numberCache headerCache]. now split.
Qed.

(** X15. A header that [GetHeader] found under a hash is served from
    the cache from then on: asked again for that hash, with whatever
    number and whatever the store holds by then, [GetHeader] returns the
    same header and leaves the chain state as it is.  The number plays
    no part in a lookup the cache answers. *)
Theorem GetHeader_served_from_cache hc (hash : Hash) (number : N) (header : Header) hc1 :
  (1 <= lru_size (headerCache hc))%nat ->
  GetHeader hc hash number = (Some header, hc1) ->
  forall db (number' : N),
    GetHeader (with_chainDb hc1 db) hash number' = (Some header, with_chainDb hc1 db).
Proof.
  intros Hsize Hget db number'.
  apply GetHeader_caches in Hget as [Hcached _]; [|exact Hsize].
  now apply GetHeader_hit.
Qed.

(** X16. A header that [GetHeaderByHash] found is served from the two
    caches from then on: asked again for that hash, whatever the store
    holds by then, [GetHeaderByHash] returns the same header and leaves
    the chain state as it is. *)
Theorem GetHeaderByHash_served_from_cache hc (hash : Hash) (header : Header) hc1 :
  (1 <= lru_size (headerCache hc))%nat ->
  (1 <= lru_size (numberCache hc))%nat ->
  GetHeaderByHash hc hash = (Some header, hc1) ->
  forall db,
    GetHeaderByHash (with_chainDb hc1 db) hash = (Some header, with_chainDb hc1 db).
Proof.
  intros Hh Hn. unfold GetHeaderByHash.
  destruct (GetBlockNumber hc hash) as [[number|] hcn] eqn:Hnum; [|discriminate].
  apply GetBlockNumber_caches in Hnum as [Hncached Hhcache]; [|exact Hn].
  intros Hget db.
  apply GetHeader_caches in Hget as [Hhcached Hncache]; [|now rewrite Hhcache].
  rewrite (GetBlockNumber_hit (with_chainDb hc1 db) hash number)
    by (cbn [with_chainDb numberCache]; now rewrite Hncache).
  now apply GetHeader_hit.
Qed.

(** A header found goes to the front of the header cache; in a cache of
    two entries or more, the entry of another hash that was at the front
    is still served afterwards. *)
Lemma GetHeader_front hc (x : Hash) (n : N) (p : Header) hc1 :
  (1 <= lru_size (headerCache hc))%nat ->
  GetHeader hc x n = (Some p, hc1) ->
  lru_size (headerCache hc1) = lru_size (headerCache hc) /\
  (exists rest, lru_items (headerCache hc1) = (x, p) :: rest) /\
  forall (y : Hash) (w : Header) rest0,
    (2 <= lru_size (headerCache hc))%nat ->
    lru_items (headerCache hc) = (y, w) :: rest0 ->
    x <> y ->
    lru_find (headerCache hc1) y = Some w.
Proof.
  intros Hsize. unfold GetHeader.
  destruct (lru_Get (headerCache hc) x) as [[v|] c] eqn:Hget.
  - intros [= -> <-]. apply lru_Get_Some in Hget. subst c.
    cbn [headerCache with_headerCache lru_size lru_items].
    split; [reflexivity|]. split; [eauto|].
    intros y w rest0 _ Hitems Hne. rewrite lru_find_front.
    rewrite bool_decide_eq_false_2 by exact Hne.
    unfold lru_others. rewrite Hitems. cbn [List.filter fst].
    rewrite (bool_decide_eq_false_2 (y = x)) by congruence. cbn [negb find fst].
    now rewrite bool_decide_eq_true_2.
  - destruct (ReadHeader (chainDb hc) x n) as [v|]; [|discriminate].
    intros [= -> <-].
    assert (Hnone : lru_find (headerCache hc) x = None).
    { pose proof (lru_Get_fst (headerCache hc) x) as Hf. now rewrite Hget in Hf. }
    destruct (lru_Add_new (headerCache hc) x p Hsize Hnone)
      as (rest & Hadd & _ & Hsecond).
    cbn [headerCache with_headerCache]. rewrite Hadd. cbn [lru_size lru_items].
    split; [reflexivity|]. split; [eauto|].
    intros y w rest0 Hsize2 Hitems Hne.
    destruct (Hsecond _ _ Hsize2 Hitems) as [rest1 ->].
    rewrite lru_find_front, bool_decide_eq_false_2 by exact Hne.
    cbn [find fst]. now rewrite bool_decide_eq_true_2.
Qed.

(** ** What [SetHead] leaves alone *)

Lemma SetHead_loop_batch (fuel : nat) (h : N) (cb : option DeleteCallback) :
  forall hc (b : Batch) (tr : list Event) hc' b' tr',
  SetHead_loop fuel h cb hc b tr = Some (hc', b', tr') ->
  exists added, b' = b ++ added /\ Forall (above_target h) added.
Proof.
  induction fuel as [|fuel IH]; intros hc b tr hc' b' tr'; cbn [SetHead_loop];
    unfold CurrentHeader; destruct (currentHeader hc) as [hdr|].
  - destruct (h <? big_Uint64 (Number hdr))%N; [discriminate|].
    intros [= <- <- <-]. exists []. now rewrite app_nil_r.
  - intros [= <- <- <-]. exists []. now rewrite app_nil_r.
  - destruct (h <? big_Uint64 (Number hdr))%N eqn:Hlt.
    2:{ intros [= <- <- <-]. exists []. now rewrite app_nil_r. }
    apply N.ltb_lt in Hlt.
    destruct (GetHeader hc (ParentHash hdr) (uint64_pred (big_Uint64 (Number hdr))))
      as [parent hc1].
    destruct cb as [f|]; intros Hrun; apply IH in Hrun as (added & -> & Hall).
    + exists (map OpDeleteForeign (f (HashOf hdr) (big_Uint64 (Number hdr)))
              ++ [OpDeleteHeader (HashOf hdr) (big_Uint64 (Number hdr))] ++ added).
      unfold DeleteHeader. rewrite <- !app_assoc. split; [reflexivity|].
      apply Forall_app. split.
      * apply Forall_forall. intros op Hop. apply list_elem_of_In in Hop.
        apply in_map_iff in Hop as (x & <- & _). exact I.
      * constructor; [exact Hlt | exact Hall].
    + exists ([OpDeleteHeader (HashOf hdr) (big_Uint64 (Number hdr))] ++ added).
      unfold DeleteHeader. rewrite <- !app_assoc. split; [reflexivity|].
      constructor; [exact Hlt | exact Hall].
  - intros [= <- <- <-]. exists []. now rewrite app_nil_r.
Qed.

(** The batch a completed [SetHead] committed holds deletions above the
    target only. *)
Lemma SetHead_batch (fuel : nat) hc (h : N) (cb : option DeleteCallback) hc'
    (tr : list Event) :
  SetHead fuel hc h cb = Done (hc', tr) ->
  exists b x,
    Forall (above_target h) b /\
    chainDb hc' = WriteHeadHeaderHash (batch_Write (chainDb hc) b) x /\
    genesisHeader hc' = genesisHeader hc.
Proof.
  unfold SetHead.
  destruct (SetHead_loop fuel h cb hc NewBatch []) as [[[hcA bA] trA]|] eqn:Hloop;
    [|discriminate].
  pose proof (SetHead_loop_exit _ _ _ _ _ _ _ _ _ Hloop) as (Hdb & Hgen & _ & _).
  apply SetHead_loop_batch in Hloop as (added & -> & Hall). unfold NewBatch in *.
  cbn [app] in *.
  set (height := match CurrentHeader hc with
                 | Some hdr => big_Uint64 (Number hdr)
                 | None => 0%N
                 end).
  assert (Hh : (height < 2 ^ 64)%N).
  { unfold height. destruct (CurrentHeader hc); [apply big_Uint64_lt | reflexivity]. }
  rewrite rollback_canonical_spec by lia.
  assert (Hall' : Forall (above_target h)
                    (added ++ map OpDeleteCanonicalHash (heights_down height h))).
  { apply Forall_app. split; [exact Hall|]. apply Forall_forall. intros op Hop.
    apply list_elem_of_In, in_map_iff in Hop as (k & <- & Hk).
    apply heights_down_In in Hk. cbn. lia. }
  unfold CurrentHeader. cbn [with_chainDb currentHeader].
  destruct (currentHeader hcA) as [c|] eqn:Hc.
  - cbn [with_chainDb currentHeader]. rewrite Hc. cbn [Hash_of_ptr].
    intros Heq. inversion Heq; subst; clear Heq.
    eexists _, (HashOf c). split; [exact Hall'|]. cbn. rewrite Hdb.
    split; [reflexivity | exact Hgen].
  - cbn [with_chainDb store_currentHeader currentHeader genesisHeader].
    destruct (Hash_of_ptr (genesisHeader hcA)) as [x|] eqn:Hx; [|discriminate].
    intros Heq. inversion Heq; subst; clear Heq.
    eexists _, x. split; [exact Hall'|]. cbn. rewrite Hdb.
    split; [reflexivity | congruence].
Qed.

(** X17. Whatever the state of the chain, a [SetHead] that returns has
    touched nothing at or below its target: every canonical index entry
    and every stored header of a number up to the target is as before,
    and so are the head-block hash and the genesis header. *)
Theorem SetHead_keeps_below_target (fuel : nat) hc (h : N) (cb : option DeleteCallback)
    hc' (tr : list Event) :
  SetHead fuel hc h cb = Done (hc', tr) ->
  (forall k, (k <= h)%N ->
     db_canonical (chainDb hc') !! k = db_canonical (chainDb hc) !! k) /\
  (forall x k, (k <= h)%N ->
     db_headers (chainDb hc') !! (x, k) = db_headers (chainDb hc) !! (x, k)) /\
  db_headBlockHash (chainDb hc') = db_headBlockHash (chainDb hc) /\
  genesisHeader hc' = genesisHeader hc.
Proof.
  intros Hrun. apply SetHead_batch in Hrun as (b & cur & Hall & Hdb & Hgen).
  rewrite Hdb. cbn [WriteHeadHeaderHash db_canonical db_headers db_headBlockHash].
  rewrite Forall_forall in Hall.
  split; [|split; [|split]].
  - intros k Hk. apply batch_Write_canonical_kept. intros Hin.
    apply list_elem_of_In, Hall in Hin. cbn in Hin. lia.
  - intros x k Hk. apply batch_Write_headers_kept. intros Hin.
    apply list_elem_of_In, Hall in Hin. cbn in Hin. lia.
  - apply batch_Write_heads.
  - exact Hgen.
Qed.

(** ** [SetCurrentHeader] *)

(** X18. On a header, [SetCurrentHeader] makes that header the head,
    records its hash in memory and as the persisted head-header hash; a
    [SetHead] to that header's height or above right after it changes
    nothing at all, and all it does is commit an empty batch and write
    the same hash again. *)
Theorem SetHead_after_SetCurrentHeader (fuel : nat) hc (head : Header) (h : N)
    (cb : option DeleteCallback) :
  (big_Uint64 (Number head) <= h)%N ->
  exists hc1,
    SetCurrentHeader hc (Some head) = Some hc1 /\
    CurrentHeader hc1 = Some head /\
    currentHeaderHash hc1 = HashOf head /\
    db_headHeaderHash (chainDb hc1) = Some (HashOf head) /\
    SetHead fuel hc1 h cb
    = Done (hc1, [EvBatchWrite []; EvWriteHeadHeaderHash (HashOf head)]).
Proof.
  intros Hle. eexists. split; [reflexivity|].
  do 3 (split; [reflexivity|]).
  rewrite (SetHead_noop fuel _ h cb head); [reflexivity | reflexivity | exact Hle].
Qed.

(** ** Termination of the rewind *)

Lemma SetHead_loop_tree (hc0 : HeaderChain (Hash := Hash) (Header := Header))
    (h : N) (cb : option DeleteCallback) :
  headers_wf hc0 = true ->
  forall (n : nat) hc (c : Header) (x : Hash) (b : Batch) (tr : list Event) (fuel : nat),
  walk_inv hc0 hc ->
  currentHeader hc = Some c ->
  In (x, c) (known_headers hc0) ->
  0 <= Number c < 2 ^ 64 ->
  n = N.to_nat (big_Uint64 (Number c) - h) ->
  (n <= fuel)%nat ->
  exists r, SetHead_loop fuel h cb hc b tr = Some r.
Proof.
  intros Hwf. destruct (headers_wf_facts hc0 Hwf) as (Hkey & Hnum & _).
  assert (Hu : forall z, 0 <= z < 2 ^ 64 -> big_Uint64 z = Z.to_N z).
  { intros z Hz. unfold big_Uint64. rewrite Z.abs_eq by lia.
    apply N.mod_small. change (2 ^ 64)%N with (Z.to_N (2 ^ 64)). lia. }
  induction n as [|n IH]; intros hc c x b tr fuel Hinv Hcur Hknown Hrange Hn Hfuel.
  - exists (hc, b, tr). apply SetHead_loop_stop. intros hd. rewrite Hcur.
    intros [= <-]. lia.
  - destruct fuel as [|fuel]; [lia|]. cbn [SetHead_loop]. unfold CurrentHeader.
    rewrite Hcur.
    replace (h <? big_Uint64 (Number c))%N with true by (symmetry; apply N.ltb_lt; lia).
    destruct (GetHeader hc (ParentHash c) (uint64_pred (big_Uint64 (Number c))))
      as [[p|] hc1] eqn:Hget;
      destruct (GetHeader_walk hc0 hc hc1 _ _ _ Hinv Hget) as (Hinv1 & Hsome & _).
    + specialize (Hsome p eq_refl).
      assert (Hp : Number p = Number c - 1).
      { apply (Hnum x c (ParentHash c) p Hknown Hsome). now apply (Hkey _ _ Hsome). }
      assert (Hpos : 1 <= Number c).
      { rewrite (Hu _ Hrange) in Hn. lia. }
      assert (Hstep : forall b' tr', exists r,
                SetHead_loop fuel h cb (store_currentHeader hc1 (Some p)) b' tr' = Some r).
      { intros b' tr'. apply (IH _ p (ParentHash c) b' tr' fuel).
        - exact Hinv1.
        - reflexivity.
        - exact Hsome.
        - lia.
        - rewrite Hp, (Hu (Number c - 1)) by lia. rewrite (Hu _ Hrange) in Hn. lia.
        - lia. }
      destruct cb as [f|]; apply Hstep.
    + assert (Hstep : forall b' tr', exists r,
                SetHead_loop fuel h cb (store_currentHeader hc1 None) b' tr' = Some r).
      { intros b' tr'. exists (store_currentHeader hc1 None, b', tr').
        apply SetHead_loop_stop. cbn. discriminate. }
      destruct cb as [f|]; apply Hstep.
Qed.

(** X19. Over known headers that form a tree, with a known head of
    number [H] below 2^64 and a genesis header, [SetHead] returns within
    [H - h] turns of its loop, whatever the canonical index holds and
    whichever parents are missing: the head it leaves has a number of at
    most [h], or is the genesis header. *)
Theorem SetHead_returns_on_tree (fuel : nat) hc (h : N) (cb : option DeleteCallback)
    (hd g : Header) (x : Hash) :
  headers_wf hc = true ->
  currentHeader hc = Some hd ->
  In (x, hd) (known_headers hc) ->
  0 <= Number hd < 2 ^ 64 ->
  genesisHeader hc = Some g ->
  (N.to_nat (big_Uint64 (Number hd) - h) <= fuel)%nat ->
  exists hc' tr cur,
    SetHead fuel hc h cb = Done (hc', tr) /\
    currentHeader hc' = Some cur /\
    ((big_Uint64 (Number cur) <= h)%N \/ cur = g).
Proof.
  intros Hwf Hcur Hknown Hrange Hgen Hfuel.
  destruct (SetHead_loop_tree hc h cb Hwf _ hc hd x NewBatch [] fuel
              (walk_inv_refl hc) Hcur Hknown Hrange eq_refl Hfuel) as [[[hcA bA] trA] Hloop].
  assert (Hdone : exists r, SetHead fuel hc h cb = Done r).
  { unfold SetHead. rewrite Hloop.
    apply SetHead_loop_exit in Hloop as (_ & HgenA & _ & _).
    destruct (rollback_canonical _ h _ bA trA) as [b2 tr2]. unfold CurrentHeader.
    cbn [with_chainDb currentHeader].
    destruct (currentHeader hcA) as [c|] eqn:Hc.
    - cbn [with_chainDb currentHeader]. rewrite Hc. eauto.
    - cbn [with_chainDb store_currentHeader currentHeader genesisHeader].
      rewrite HgenA, Hgen. eauto. }
  destruct Hdone as [[hc' tr] Hdone].
  destruct (SetHead_Done_inv fuel hc h cb hc' tr Hdone)
    as (y & _ & _ & _ & _ & Hle & Hnil).
  destruct (currentHeader hc') as [cur|] eqn:Hc'.
  2:{ specialize (Hnil eq_refl). congruence. }
  exists hc', tr, cur. split; [exact Hdone|]. split; [exact Hc'|].
  destruct (Hle cur eq_refl) as [Hle' | Hg]; [now left | right; congruence].
Qed.

(** ** The header cache after a rewind *)

Lemma SetHead_loop_linear_cache (hc0 : HeaderChain (Hash := Hash) (Header := Header))
    (H' h : N) (cb : option DeleteCallback) :
  chain_facts hc0 H' ->
  (H' < 2 ^ 64)%N ->
  (h + 1 < H')%N ->
  forall (n : nat) (k : N) hc (b : Batch) (tr : list Event) (fuel : nat),
  n = N.to_nat (k - h) ->
  (h < k <= H')%N ->
  rewind_inv hc0 H' hc k ->
  (n <= fuel)%nat ->
  (2 <= lru_size (headerCache hc))%nat ->
  ((k < H')%N ->
   exists c rest,
     canonicalHeader (chainDb hc0) k = Some c /\
     lru_items (headerCache hc) = (ReadCanonicalHash (chainDb hc0) k, c) :: rest) ->
  exists hc' b' tr' gone,
    SetHead_loop fuel h cb hc b tr = Some (hc', b', tr') /\
    canonicalHeader (chainDb hc0) (h + 1) = Some gone /\
    lru_find (headerCache hc') (ReadCanonicalHash (chainDb hc0) (h + 1)) = Some gone.
Proof.
  intros Hfacts HH Hgap.
  induction n as [|n IH]; intros k hc b tr fuel Hn Hk Hinv Hfuel Hsize Hfront; [lia|].
  destruct fuel as [|fuel]; [lia|].
  pose proof Hfacts as [Hok Hinj].
  destruct (Hok k ltac:(lia)) as (c & Hc & Hhash & Hnum & Hpar & _).
  destruct Hpar as [Hz | Hpar]; [lia|].
  destruct (rewind_step hc0 hc H' k c Hfacts HH Hinv ltac:(lia) Hc)
    as (p & hc1 & Hget & Hp & Hinv1).
  destruct (GetHeader_front hc _ _ p hc1 ltac:(lia) Hget) as (Hsz1 & [rest1 Hitems1] & Hsecond).
  assert (Hstep : forall b1 tr1, exists hc' b' tr' gone,
            SetHead_loop fuel h cb (store_currentHeader hc1 (Some p)) b1 tr1
              = Some (hc', b', tr') /\
            canonicalHeader (chainDb hc0) (h + 1) = Some gone /\
            lru_find (headerCache hc') (ReadCanonicalHash (chainDb hc0) (h + 1))
              = Some gone).
  { intros b1 tr1. destruct (N.eq_dec (k - 1)%N h) as [Hlast | Hmore].
    - assert (Hk1 : (h + 1)%N = k) by lia. rewrite Hk1.
      destruct (Hfront ltac:(lia)) as (c' & rest & Hc' & Hitems).
      rewrite Hc in Hc'. injection Hc' as <-.
      exists (store_currentHeader hc1 (Some p)), b1, tr1, c.
      split; [|split; [exact Hc|]].
      + apply SetHead_loop_stop. cbn [store_currentHeader currentHeader].
        intros hd [= <-].
        destruct (Hok (k - 1)%N ltac:(lia)) as (p' & Hp' & _ & Hnum' & _).
        rewrite Hp in Hp'. injection Hp' as <-. lia.
      + cbn [store_currentHeader headerCache].
        apply (Hsecond _ _ rest Hsize Hitems). rewrite Hpar. intros Heq.
        apply Hinj in Heq; lia.
    - apply (IH (k - 1)%N (store_currentHeader hc1 (Some p)) b1 tr1 fuel);
        try lia; try exact Hinv1.
      + cbn [store_currentHeader headerCache]. lia.
      + intros _. exists p, rest1. split; [exact Hp|].
        cbn [store_currentHeader headerCache]. now rewrite Hitems1, Hpar. }
  cbn [SetHead_loop]. unfold CurrentHeader.
  destruct Hinv as (_ & _ & Hcur & _). rewrite Hcur, Hc.
  replace (h <? big_Uint64 (Number c))%N with true by (symmetry; apply N.ltb_lt; lia).
  rewrite Hget. destruct cb as [f|]; apply Hstep.
Qed.

(** [SetHead] leaves the header cache as its loop left it. *)
Lemma SetHead_headerCache (fuel : nat) hc (h : N) (cb : option DeleteCallback)
    hc' (tr : list Event) hcA (bA : Batch) (trA : list Event) :
  SetHead_loop fuel h cb hc NewBatch [] = Some (hcA, bA, trA) ->
  SetHead fuel hc h cb = Done (hc', tr) ->
  headerCache hc' = headerCache hcA.
Proof.
  intros Hloop. unfold SetHead. rewrite Hloop.
  destruct (rollback_canonical _ h _ bA trA) as [b2 tr2]. unfold CurrentHeader.
  cbn [with_chainDb currentHeader].
  destruct (currentHeader hcA) as [c|] eqn:Hc.
  - cbn [with_chainDb currentHeader]. rewrite Hc. cbn [Hash_of_ptr].
    intros Heq. inversion Heq; subst; clear Heq. reflexivity.
  - cbn [with_chainDb store_currentHeader currentHeader genesisHeader].
    destruct (Hash_of_ptr (genesisHeader hcA)); [|discriminate].
    intros Heq. inversion Heq; subst; clear Heq. reflexivity.
Qed.

Lemma batch_Write_headers_deleted db (b : Batch (Hash := Hash)) (x : Hash) (n : N) :
  In (OpDeleteHeader x n) b -> db_headers (batch_Write db b) !! (x, n) = None.
Proof.
  induction b as [|op b IH] using rev_ind; [intros []|].
  intros Hin. rewrite batch_Write_app. cbn [batch_Write fold_left].
  apply in_app_or in Hin as [Hin | [-> | []]].
  - specialize (IH Hin). destruct op as [y m|m|f]; cbn; try exact IH.
    destruct (decide ((y, m) = (x, n))) as [->|Hne];
      [apply lookup_delete_eq | now rewrite lookup_delete_ne].
  - cbn. apply lookup_delete_eq.
Qed.

Lemma rewind_batch_header_deleted (cb : option DeleteCallback) db (H' h k : N) :
  (h < k <= H')%N ->
  In (OpDeleteHeader (ReadCanonicalHash db k) k) (rewind_batch cb db H' h).
Proof.
  intros Hk. unfold rewind_batch, rewind_header_ops. apply in_or_app. left.
  apply in_flat_map. exists k. split; [now apply heights_down_In|].
  apply in_or_app. right. now left.
Qed.

(** X20. [SetHead] does not purge the header cache.  On a linear chain
    rewound by two heights or more, with a header cache of two entries
    or more, the header just above the new head is deleted from the
    store and is still returned by [GetHeader] under its hash. *)
Theorem SetHead_keeps_deleted_header_cached (fuel : nat) hc (h : N)
    (cb : option DeleteCallback) (hd : Header) :
  linear_chain hc = true ->
  currentHeader hc = Some hd ->
  (h + 1 < big_Uint64 (Number hd))%N ->
  (N.to_nat (big_Uint64 (Number hd) - h) <= fuel)%nat ->
  (2 <= lru_size (headerCache hc))%nat ->
  exists hc' tr gone,
    SetHead fuel hc h cb = Done (hc', tr) /\
    canonicalHeader (chainDb hc) (h + 1) = Some gone /\
    ReadHeader (chainDb hc') (HashOf gone) (h + 1) = None /\
    fst (GetHeader hc' (HashOf gone) (h + 1)) = Some gone.
Proof.
  intros Hlin Hcur Hlt Hfuel Hsize.
  destruct (SetHead_linear fuel hc h cb hd Hlin Hcur ltac:(lia) Hfuel)
    as (hc' & target & Hrun & _ & _ & _ & Hdb' & _).
  apply linear_chain_facts in Hlin as (hd' & Hcur' & Hhead & Hfacts).
  rewrite Hcur in Hcur'. injection Hcur' as <-.
  set (H' := big_Uint64 (Number hd)) in *.
  assert (HH : (H' < 2 ^ 64)%N) by apply big_Uint64_lt.
  assert (Hinit : rewind_inv hc H' hc H').
  { apply rewind_inv_init; [exact Hfacts | congruence]. }
  destruct (SetHead_loop_linear_cache hc H' h cb Hfacts HH Hlt (N.to_nat (H' - h)) H' hc
              NewBatch [] fuel eq_refl ltac:(lia) Hinit Hfuel Hsize ltac:(lia))
    as (hcA & bA & trA & gone & Hloop & Hgone & Hcache).
  pose proof (SetHead_headerCache fuel hc h cb hc' _ hcA bA trA Hloop Hrun) as Hhc.
  pose proof Hfacts as [Hok _].
  destruct (Hok (h + 1)%N ltac:(lia)) as (gone' & Hgone' & Hhash & _).
  rewrite Hgone in Hgone'. injection Hgone' as <-.
  eexists hc', _, gone. split; [exact Hrun|]. split; [exact Hgone|]. rewrite Hhash. split.
  - unfold ReadHeader. rewrite Hdb'. cbn [WriteHeadHeaderHash db_headers].
    apply batch_Write_headers_deleted, rewind_batch_header_deleted. lia.
  - rewrite GetHeader_fst. unfold peekHeader. now rewrite Hhc, Hcache.
Qed.

(** ** Ancestors on the canonical chain *)

Lemma heights_below_S (k : N) (m : nat) :
  heights_below k (S m) = (k - 1)%N :: heights_below (k - 1) m.
Proof.
  unfold heights_below. cbn [seq map]. f_equal; [lia|].
  rewrite <- seq_shift, map_map. apply map_ext. intros i. lia.
Qed.

(** Looking a canonical hash up gives the canonical header. *)
Lemma canonical_lookup (hc0 hc : HeaderChain (Hash := Hash) (Header := Header))
    (H' k : N) :
  chain_facts hc0 H' ->
  canonical_cache hc0 H' hc ->
  (k <= H')%N ->
  exists p hc1,
    GetHeader hc (ReadCanonicalHash (chainDb hc0) k) k = (Some p, hc1) /\
    canonicalHeader (chainDb hc0) k = Some p /\
    canonical_cache hc0 H' hc1.
Proof.
  intros [Hok Hinj] [Hdb Hcache] Hk.
  destruct (Hok k Hk) as (p & Hp & _).
  destruct (GetHeader hc (ReadCanonicalHash (chainDb hc0) k) k) as [r hc1] eqn:Hget.
  pose proof (GetHeader_fst hc (ReadCanonicalHash (chainDb hc0) k) k) as Hfst.
  pose proof (GetHeader_frame hc (ReadCanonicalHash (chainDb hc0) k) k) as Hfr.
  pose proof (GetHeader_cache hc (ReadCanonicalHash (chainDb hc0) k) k) as Hca.
  rewrite Hget in Hfst, Hfr, Hca. cbn [fst snd] in Hfst, Hfr, Hca.
  destruct Hfr as (Hdb1 & _).
  apply canonicalHeader_Some in Hp as Hp'. destruct Hp' as [_ Hread].
  assert (Hr : r = Some p).
  { rewrite Hfst. unfold peekHeader.
    destruct (lru_find (headerCache hc) (ReadCanonicalHash (chainDb hc0) k)) as [v|] eqn:Hv.
    - apply Hcache in Hv; [|lia]. congruence.
    - now rewrite Hdb. }
  clear Hfst. subst r. exists p, hc1. split; [reflexivity|]. split; [exact Hp|].
  split; [congruence|].
  intros j v Hj Hv. apply Hca in Hv as [Hv | [Heq Hv]].
  - now apply Hcache.
  - apply Hinj in Heq; [|lia|lia]. subst j. rewrite Hdb in Hv. congruence.
Qed.

Lemma GetBlockHashesFromHash_loop_canonical
    (hc0 : HeaderChain (Hash := Hash) (Header := Header)) (H' : N) :
  chain_facts hc0 H' ->
  (H' < 2 ^ 64)%N ->
  (forall g, canonicalHeader (chainDb hc0) 0 = Some g -> Number g = 0) ->
  forall (j : nat) (k : N) hc (c : Header) (chain : list Hash),
  canonical_cache hc0 H' hc ->
  (1 <= k <= H')%N ->
  canonicalHeader (chainDb hc0) k = Some c ->
  fst (GetBlockHashesFromHash_loop j hc c chain)
  = chain ++ map (ReadCanonicalHash (chainDb hc0))
                 (heights_below k (Nat.min j (N.to_nat k))).
Proof.
  intros Hfacts HH Hgen. pose proof Hfacts as [Hok _].
  induction j as [|j IH]; intros k hc c chain Hinv Hk Hc.
  - cbn. now rewrite app_nil_r.
  - cbn [GetBlockHashesFromHash_loop].
    destruct (Hok k ltac:(lia)) as (c' & Hc' & _ & Hnum & Hpar & _).
    rewrite Hc in Hc'. injection Hc' as <-.
    destruct Hpar as [Hz | Hpar]; [lia|].
    rewrite Hnum, Hpar, uint64_pred_spec by lia.
    destruct (canonical_lookup hc0 hc H' (k - 1) Hfacts Hinv ltac:(lia))
      as (p & hc1 & Hget & Hp & Hinv1).
    rewrite Hget.
    destruct (Hok (k - 1)%N ltac:(lia)) as (p' & Hp' & _ & Hnump & _).
    rewrite Hp in Hp'. injection Hp' as <-.
    replace (Nat.min (S j) (N.to_nat k)) with (S (Nat.min j (N.to_nat (k - 1)))) by lia.
    rewrite heights_below_S. cbn [map].
    destruct (big_Sign (Number p) =? 0) eqn:Hsign.
    + apply Z.eqb_eq in Hsign. unfold big_Sign in Hsign.
      apply (proj1 (Z.sgn_null_iff _)) in Hsign.
      assert (Hk1 : (k - 1 = 0)%N).
      { rewrite <- Hnump, Hsign. reflexivity. }
      rewrite Hk1. replace (Nat.min j (N.to_nat 0)) with 0%nat by lia.
      reflexivity.
    + assert (Hk1 : (1 <= k - 1)%N).
      { destruct (N.eq_dec (k - 1)%N 0%N) as [Hz|Hnz]; [|lia].
        rewrite Hz in Hp. apply Hgen in Hp. rewrite Hp in Hsign. discriminate. }
      rewrite (IH (k - 1)%N hc1 p _ Hinv1 ltac:(lia) Hp).
      now rewrite <- app_assoc.
Qed.

(** X21. On a linear chain whose head, of height [H] at least 1,
    resolves through the number index and whose genesis header has
    number 0, and for a bound [max] that the runtime allocates a slice
    of hashes for, [GetBlockHashesFromHash] from the head's hash returns
    the canonical hashes of the heights [H-1], [H-2], ... in this order:
    [max] of them, or all [H] down to the genesis hash when [max] is
    larger. *)
Theorem GetBlockHashesFromHash_canonical hc (max : N) (hd : Header) :
  linear_chain hc = true ->
  currentHeader hc = Some hd ->
  (1 <= big_Uint64 (Number hd))%N ->
  (forall g, canonicalHeader (chainDb hc) 0 = Some g -> Number g = 0) ->
  fst (GetBlockNumber hc (HashOf hd)) = Some (big_Uint64 (Number hd)) ->
  makeslice_ok (Z.of_nat HashLength) (wrap_int64 (Z.of_N max)) = true ->
  fst <$> GetBlockHashesFromHash hc (HashOf hd) max
  = Some (map (ReadCanonicalHash (chainDb hc))
              (heights_below (big_Uint64 (Number hd))
                             (N.to_nat (N.min max (big_Uint64 (Number hd)))))).
Proof.
  intros Hlin Hcur Hpos Hgen Hnumber Hcap.
  apply linear_chain_facts in Hlin as (hd' & Hcur' & Hhead & Hfacts).
  rewrite Hcur in Hcur'. injection Hcur' as <-.
  set (H' := big_Uint64 (Number hd)) in *.
  assert (HH : (H' < 2 ^ 64)%N) by apply big_Uint64_lt.
  pose proof Hfacts as [Hok _].
  destruct (Hok H' ltac:(lia)) as (c & Hc & Hhash & _ & _ & Hcached).
  rewrite Hhead in Hc. injection Hc as <-.
  unfold GetBlockHashesFromHash, GetHeaderByHash.
  pose proof (GetBlockNumber_frame hc (HashOf hd)) as [Hdb Hcache].
  destruct (GetBlockNumber hc (HashOf hd)) as [r hcn]. cbn [fst snd] in *. subst r.
  assert (Hinv : canonical_cache hc H' hcn).
  { split; [exact Hdb|]. intros j v Hj Hv. rewrite Hcache in Hv.
    destruct (Hok j Hj) as (cj & Hcj & _ & _ & _ & Hcachedj).
    rewrite Hcj. f_equal. symmetry. now apply Hcachedj. }
  rewrite Hhash.
  destruct (canonical_lookup hc hcn H' H' Hfacts Hinv ltac:(lia))
    as (p & hc1 & Hget & Hp & Hinv1).
  rewrite Hhead in Hp. injection Hp as <-. rewrite Hget, Hcap. cbn [negb].
  unfold fmap, option_fmap, option_map.
  rewrite (GetBlockHashesFromHash_loop_canonical hc H' Hfacts HH Hgen
             (N.to_nat max) H' hc1 hd [] Hinv1 ltac:(lia) Hhead).
  cbn [app]. do 3 f_equal. lia.
Qed.

(** ** Linear chains are kept linear *)

Lemma NoDup_map_inj_on (A B : Type) (f : A -> B) (l : list A) :
  (forall a b, In a l -> In b l -> f a = f b -> a = b) ->
  NoDup l -> NoDup (map f l).
Proof.
  induction l as [|x l IH]; intros Hinj Hnd; [constructor|].
  apply NoDup_cons in Hnd as [Hx Hnd]. cbn [map]. constructor.
  - intros Hin. apply list_elem_of_In, in_map_iff in Hin as (y & Heq & Hy).
    apply Hinj in Heq; [|now right|now left]. subst y.
    apply Hx. now apply list_elem_of_In.
  - apply IH; [|exact Hnd]. intros a b Ha Hb. apply Hinj; now right.
Qed.

Lemma heights_upto_NoDup (H' : N) : NoDup (heights_upto H').
Proof.
  unfold heights_upto. apply NoDup_map_inj_on.
  - intros a b _ _ Hab. lia.
  - apply NoDup_ListNoDup, seq_NoDup.
Qed.

(** The facts of a linear chain give [linear_chain] back. *)
Lemma linear_chain_intro hc (hd : Header) :
  currentHeader hc = Some hd ->
  canonicalHeader (chainDb hc) (big_Uint64 (Number hd)) = Some hd ->
  chain_facts hc (big_Uint64 (Number hd)) ->
  linear_chain hc = true.
Proof.
  intros Hcur Hhead [Hok Hinj]. unfold linear_chain. rewrite Hcur.
  apply andb_true_iff. split; [apply andb_true_iff; split|].
  - now apply bool_decide_eq_true_2.
  - apply forallb_forall. intros k Hk. apply heights_upto_In in Hk.
    destruct (Hok k Hk) as (c & Hc & Hhash & Hnum & Hpar & Hcache).
    unfold canonical_ok. rewrite Hc.
    rewrite (bool_decide_eq_true_2 _ Hhash), (bool_decide_eq_true_2 _ Hnum).
    cbn [andb].
    assert (Hp : bool_decide (k = 0%N)
                 || bool_decide (ParentHash c = ReadCanonicalHash (chainDb hc) (k - 1))
                 = true).
    { apply orb_true_iff. destruct Hpar as [Hz | Hp];
        [left | right]; now apply bool_decide_eq_true_2. }
    rewrite Hp. cbn [andb]. rewrite Hhash.
    destruct (lru_find (headerCache hc) (ReadCanonicalHash (chainDb hc) k)) as [v|] eqn:Hv;
      [|reflexivity].
    apply bool_decide_eq_true_2. now apply Hcache.
  - apply bool_decide_eq_true_2. apply NoDup_map_inj_on; [|apply heights_upto_NoDup].
    intros a b Ha Hb. apply Hinj; now apply heights_upto_In.
Qed.

(** X24. On a linear chain, [GetHeaderByNumber] at a height up to the
    head's returns the canonical header of that height, and the chain it
    leaves is linear still: the lookup may fill the header cache, and
    what it puts there agrees with the canonical chain. *)
Theorem GetHeaderByNumber_canonical hc (k : N) (hd : Header) :
  linear_chain hc = true ->
  currentHeader hc = Some hd ->
  (k <= big_Uint64 (Number hd))%N ->
  exists c,
    fst (GetHeaderByNumber hc k) = Some c /\
    canonicalHeader (chainDb hc) k = Some c /\
    big_Uint64 (Number c) = k /\
    linear_chain (snd (GetHeaderByNumber hc k)) = true.
Proof.
  intros Hlin Hcur Hk.
  apply linear_chain_facts in Hlin as (hd' & Hcur' & Hhead & Hfacts).
  rewrite Hcur in Hcur'. injection Hcur' as <-.
  set (H' := big_Uint64 (Number hd)) in *.
  assert (Hinv : canonical_cache hc H' hc).
  { split; [reflexivity|]. intros j v Hj Hv. destruct Hfacts as [Hok _].
    destruct (Hok j Hj) as (cj & Hcj & _ & _ & _ & Hcached).
    rewrite Hcj. f_equal. symmetry. now apply Hcached. }
  destruct (canonical_lookup hc hc H' k Hfacts Hinv Hk) as (c & hc1 & Hget & Hc & Hinv1).
  pose proof Hfacts as [Hok Hinj].
  destruct (Hok k Hk) as (c' & Hc' & _ & Hnum & _).
  rewrite Hc in Hc'. injection Hc' as <-.
  apply canonicalHeader_Some in Hc as Hnz. destruct Hnz as [Hnz _].
  unfold GetHeaderByNumber. rewrite bool_decide_eq_false_2 by exact Hnz.
  rewrite Hget. cbn [fst snd]. exists c. split; [reflexivity|]. split; [exact Hc|].
  split; [exact Hnum|].
  pose proof (GetHeader_frame hc (ReadCanonicalHash (chainDb hc) k) k) as Hfr.
  rewrite Hget in Hfr. cbn [snd] in Hfr. destruct Hfr as (Hdb1 & _ & Hcur1 & _).
  destruct Hinv1 as [_ Hcache1].
  apply (linear_chain_intro hc1 hd); [congruence | now rewrite Hdb1 |].
  fold H'. split.
  - intros j Hj. destruct (Hok j Hj) as (cj & Hcj & Hhash & Hnumj & Hpar & _).
    exists cj. rewrite Hdb1. repeat (split; [assumption|]).
    intros v Hv. apply Hcache1 in Hv; [|exact Hj]. congruence.
  - intros a b Ha Hb. rewrite Hdb1. now apply Hinj.
Qed.

(** X25. [SetHead] keeps a linear chain linear.  From a linear chain
    with its head at height [H] it returns, for every target [h], a
    linear chain with its head at the lower of [h] and [H]: the store
    below, the canonical index and what the header cache holds agree, so
    that a further [SetHead] or lookup finds the same invariant. *)
Theorem SetHead_keeps_chain_linear (fuel : nat) hc (h : N) (cb : option DeleteCallback)
    (hd : Header) :
  linear_chain hc = true ->
  currentHeader hc = Some hd ->
  (N.to_nat (big_Uint64 (Number hd) - h) <= fuel)%nat ->
  exists hc' tr target,
    SetHead fuel hc h cb = Done (hc', tr) /\
    currentHeader hc' = Some target /\
    big_Uint64 (Number target) = N.min h (big_Uint64 (Number hd)) /\
    linear_chain hc' = true.
Proof.
  intros Hlin Hcur Hfuel.
  destruct (N.le_gt_cases (big_Uint64 (Number hd)) h) as [Hle | Hlt].
  - eexists _, _, hd. split; [exact (SetHead_noop fuel hc h cb hd Hcur Hle)|].
    cbn [with_chainDb with_currentHeaderHash currentHeader].
    split; [exact Hcur|]. split; [lia|]. exact Hlin.
  - pose proof Hlin as Hlin0.
    destruct (SetHead_linear fuel hc h cb hd Hlin Hcur Hlt Hfuel)
      as (hc' & target & Hrun & Htarget & Hhash & Hcur' & Hdb' & _).
    apply linear_chain_facts in Hlin as (hd' & Hcur0 & Hhead & Hfacts).
    rewrite Hcur in Hcur0. injection Hcur0 as <-.
    set (H' := big_Uint64 (Number hd)) in *.
    assert (HH : (H' < 2 ^ 64)%N) by apply big_Uint64_lt.
    assert (Hinit : rewind_inv hc H' hc H').
    { apply rewind_inv_init; [exact Hfacts | congruence]. }
    destruct (SetHead_loop_linear hc H' h cb Hfacts HH (N.to_nat (H' - h)) H' hc
                NewBatch [] fuel eq_refl ltac:(lia) Hinit Hfuel)
      as (hcA & Hloop & (_ & _ & _ & HcacheA)).
    pose proof (SetHead_headerCache fuel hc h cb hc' _ hcA _ _ Hloop Hrun) as Hhc.
    pose proof Hfacts as [Hok Hinj].
    assert (Hcanon : forall k, (k <= h)%N ->
              ReadCanonicalHash (chainDb hc') k = ReadCanonicalHash (chainDb hc) k).
    { intros k Hk. unfold ReadCanonicalHash. rewrite Hdb'.
      cbn [WriteHeadHeaderHash db_canonical].
      rewrite batch_Write_canonical_kept; [reflexivity|].
      intros Hin. apply rewind_batch_canonical_In in Hin. lia. }
    assert (Hheader : forall k, (k <= h)%N ->
              canonicalHeader (chainDb hc') k = canonicalHeader (chainDb hc) k).
    { intros k Hk. unfold canonicalHeader. rewrite (Hcanon k Hk).
      destruct (bool_decide _); [reflexivity|].
      unfold ReadHeader. rewrite Hdb'. cbn [WriteHeadHeaderHash db_headers].
      apply batch_Write_headers_kept. intros Hin.
      apply rewind_batch_header_In in Hin. lia. }
    destruct (Hok h ltac:(lia)) as (t & Ht & _ & Hnum & _).
    rewrite Htarget in Ht. injection Ht as <-.
    eexists hc', _, target. split; [exact Hrun|]. split; [exact Hcur'|].
    split; [lia|].
    apply (linear_chain_intro hc' target Hcur').
    + rewrite Hnum, (Hheader h) by lia. exact Htarget.
    + rewrite Hnum. split.
      * intros k Hk. destruct (Hok k ltac:(lia)) as (c & Hc & Hch & Hcn & Hpar & _).
        exists c. rewrite (Hheader k Hk), (Hcanon k Hk).
        split; [exact Hc|]. split; [exact Hch|]. split; [exact Hcn|]. split.
        -- destruct Hpar as [Hz | Hp]; [now left | right].
           rewrite (Hcanon (k - 1)%N) by lia. exact Hp.
        -- intros v Hv. rewrite Hhc in Hv. apply HcacheA in Hv; [|lia]. congruence.
      * intros a b Ha Hb. rewrite (Hcanon a Ha), (Hcanon b Hb).
        apply Hinj; lia.
Qed.

End ChainMore.

Lemma GetHeader_served_from_cache_sample :
  (1 <= lru_size (headerCache sampleChain))%nat /\
  exists hc1,
    GetHeader sampleChain 103%N 3%N = (Some hdr3, hc1) /\
    GetHeader (with_chainDb hc1 (chainDb prunedChain)) 103%N 7%N
    = (Some hdr3, with_chainDb hc1 (chainDb prunedChain)).
Proof.
  assert (Hsize : (1 <= lru_size (headerCache sampleChain))%nat)
    by (change (1 <= 512)%nat; lia).
  assert (Hget : exists hc1, GetHeader sampleChain 103%N 3%N = (Some hdr3, hc1)).
  { eexists. vm_compute. reflexivity. }
  destruct Hget as [hc1 Hget].
  split; [exact Hsize|]. exists hc1. split; [exact Hget|].
  exact (GetHeader_served_from_cache sampleChain 103%N 3%N hdr3 hc1 Hsize Hget
           (chainDb prunedChain) 7%N).
Defined.

Lemma GetHeaderByHash_served_from_cache_sample :
  (1 <= lru_size (headerCache sampleChain))%nat /\
  (1 <= lru_size (numberCache sampleChain))%nat /\
  exists hc1,
    GetHeaderByHash sampleChain 102%N = (Some hdr2, hc1) /\
    GetHeaderByHash (with_chainDb hc1 (chainDb prunedChain)) 102%N
    = (Some hdr2, with_chainDb hc1 (chainDb prunedChain)).
Proof.
  assert (Hh : (1 <= lru_size (headerCache sampleChain))%nat)
    by (change (1 <= 512)%nat; lia).
  assert (Hn : (1 <= lru_size (numberCache sampleChain))%nat)
    by (change (1 <= 2048)%nat; lia).
  assert (Hget : exists hc1, GetHeaderByHash sampleChain 102%N = (Some hdr2, hc1)).
  { eexists. vm_compute. reflexivity. }
  destruct Hget as [hc1 Hget].
  split; [exact Hh|]. split; [exact Hn|]. exists hc1. split; [exact Hget|].
  exact (GetHeaderByHash_served_from_cache sampleChain 102%N hdr2 hc1 Hh Hn Hget
           (chainDb prunedChain)).
Defined.

Lemma SetHead_keeps_below_target_sample :
  exists hc' tr,
    SetHead 5 sampleChain 1 (Some sampleDelFn) = Done (hc', tr) /\
    (forall k, (k <= 1)%N ->
       db_canonical (chainDb hc') !! k = db_canonical (chainDb sampleChain) !! k) /\
    (forall x k, (k <= 1)%N ->
       db_headers (chainDb hc') !! (x, k) = db_headers (chainDb sampleChain) !! (x, k)) /\
    db_headBlockHash (chainDb hc') = db_headBlockHash (chainDb sampleChain) /\
    genesisHeader hc' = genesisHeader sampleChain.
Proof.
  assert (Hrun : exists r, SetHead 5 sampleChain 1 (Some sampleDelFn) = Done r).
  { eexists. vm_compute. reflexivity. }
  destruct Hrun as [[hc' tr] Hrun]. exists hc', tr. split; [exact Hrun|].
  exact (SetHead_keeps_below_target 5 sampleChain 1 (Some sampleDelFn) hc' tr Hrun).
Defined.

Lemma SetHead_after_SetCurrentHeader_sample :
  (big_Uint64 (Number hdr2) <= 2)%N /\
  exists hc1,
    SetCurrentHeader sampleChain (Some hdr2) = Some hc1 /\
    CurrentHeader hc1 = Some hdr2 /\
    db_headHeaderHash (chainDb hc1) = Some 102%N /\
    SetHead 0 hc1 2 None = Done (hc1, [EvBatchWrite []; EvWriteHeadHeaderHash 102%N]).
Proof.
  assert (Hle : (big_Uint64 (Number hdr2) <= 2)%N) by (vm_compute; discriminate).
  split; [exact Hle|].
  destruct (SetHead_after_SetCurrentHeader 0 sampleChain hdr2 2 None Hle)
    as (hc1 & Hset & Hcur & _ & Hhash & Hrun).
  exists hc1. split; [exact Hset|]. split; [exact Hcur|]. split; [exact Hhash | exact Hrun].
Defined.

Lemma SetHead_returns_on_tree_sample :
  headers_wf prunedChain = true /\
  currentHeader prunedChain = Some hdr3 /\
  In (103%N, hdr3) (known_headers prunedChain) /\
  0 <= Number hdr3 < 2 ^ 64 /\
  genesisHeader prunedChain = Some hdr0 /\
  (N.to_nat (big_Uint64 (Number hdr3) - 1) <= 2)%nat /\
  exists hc' tr cur,
    SetHead 2 prunedChain 1 None = Done (hc', tr) /\
    currentHeader hc' = Some cur /\
    ((big_Uint64 (Number cur) <= 1)%N \/ cur = hdr0).
Proof.
  assert (Hwf : headers_wf prunedChain = true) by (vm_compute; reflexivity).
  assert (Hcur : currentHeader prunedChain = Some hdr3) by reflexivity.
  assert (Hknown : In (103%N, hdr3) (known_headers prunedChain)).
  { vm_compute. right. now left. }
  assert (Hrange : 0 <= Number hdr3 < 2 ^ 64) by (cbn; lia).
  assert (Hgen : genesisHeader prunedChain = Some hdr0) by reflexivity.
  assert (Hfuel : (N.to_nat (big_Uint64 (Number hdr3) - 1) <= 2)%nat) by (vm_compute; lia).
  split; [exact Hwf|]. split; [exact Hcur|]. split; [exact Hknown|].
  split; [exact Hrange|]. split; [exact Hgen|]. split; [exact Hfuel|].
  exact (SetHead_returns_on_tree 2 prunedChain 1 None hdr3 hdr0 103%N
           Hwf Hcur Hknown Hrange Hgen Hfuel).
Defined.

Lemma SetHead_keeps_deleted_header_cached_sample :
  linear_chain sampleChain = true /\
  currentHeader sampleChain = Some hdr3 /\
  (1 + 1 < big_Uint64 (Number hdr3))%N /\
  (N.to_nat (big_Uint64 (Number hdr3) - 1) <= 5)%nat /\
  (2 <= lru_size (headerCache sampleChain))%nat /\
  exists hc' tr,
    SetHead 5 sampleChain 1 None = Done (hc', tr) /\
    canonicalHeader (chainDb sampleChain) 2 = Some hdr2 /\
    ReadHeader (chainDb hc') 102%N 2 = None /\
    fst (GetHeader hc' 102%N 2) = Some hdr2.
Proof.
  assert (H1 : linear_chain sampleChain = true) by (vm_compute; reflexivity).
  assert (H2 : currentHeader sampleChain = Some hdr3) by reflexivity.
  assert (H3 : (1 + 1 < big_Uint64 (Number hdr3))%N) by (vm_compute; reflexivity).
  assert (H4 : (N.to_nat (big_Uint64 (Number hdr3) - 1) <= 5)%nat) by (vm_compute; lia).
  assert (H5 : (2 <= lru_size (headerCache sampleChain))%nat)
    by (change (2 <= 512)%nat; lia).
  split; [exact H1|]. split; [exact H2|]. split; [exact H3|]. split; [exact H4|].
  split; [exact H5|].
  destruct (SetHead_keeps_deleted_header_cached 5 sampleChain 1 None hdr3 H1 H2 H3 H4 H5)
    as (hc' & tr & gone & Hrun & Hgone & Hread & Hget).
  assert (Hg : gone = hdr2).
  { assert (Hc : canonicalHeader (chainDb sampleChain) (1 + 1) = Some hdr2)
      by (vm_compute; reflexivity).
    congruence. }
  subst gone. exists hc', tr. split; [exact Hrun|]. split; [exact Hgone|].
  split; [exact Hread | exact Hget].
Defined.

Lemma GetBlockHashesFromHash_canonical_sample :
  linear_chain sampleChain = true /\
  currentHeader sampleChain = Some hdr3 /\
  (1 <= big_Uint64 (Number hdr3))%N /\
  (forall g, canonicalHeader (chainDb sampleChain) 0 = Some g -> Number g = 0) /\
  fst (GetBlockNumber sampleChain (HashOf hdr3)) = Some (big_Uint64 (Number hdr3)) /\
  makeslice_ok (Z.of_nat HashLength) (wrap_int64 (Z.of_N 2)) = true /\
  makeslice_ok (Z.of_nat HashLength) (wrap_int64 (Z.of_N 9)) = true /\
  fst <$> GetBlockHashesFromHash sampleChain (HashOf hdr3) 2 = Some [102%N; 101%N] /\
  fst <$> GetBlockHashesFromHash sampleChain (HashOf hdr3) 9
    = Some [102%N; 101%N; 100%N].
Proof.
  assert (H1 : linear_chain sampleChain = true) by (vm_compute; reflexivity).
  assert (H2 : currentHeader sampleChain = Some hdr3) by reflexivity.
  assert (H3 : (1 <= big_Uint64 (Number hdr3))%N) by (vm_compute; discriminate).
  assert (H4 : forall g, canonicalHeader (chainDb sampleChain) 0 = Some g -> Number g = 0).
  { intros g Hg. vm_compute in Hg. injection Hg as <-. reflexivity. }
  assert (H5 : fst (GetBlockNumber sampleChain (HashOf hdr3))
               = Some (big_Uint64 (Number hdr3))) by (vm_compute; reflexivity).
  assert (H6 : makeslice_ok (Z.of_nat HashLength) (wrap_int64 (Z.of_N 2)) = true)
    by (vm_compute; reflexivity).
  assert (H7 : makeslice_ok (Z.of_nat HashLength) (wrap_int64 (Z.of_N 9)) = true)
    by (vm_compute; reflexivity).
  split; [exact H1|]. split; [exact H2|]. split; [exact H3|]. split; [exact H4|].
  split; [exact H5|]. split; [exact H6|]. split; [exact H7|]. split.
  - rewrite (GetBlockHashesFromHash_canonical sampleChain 2 hdr3 H1 H2 H3 H4 H5 H6).
    vm_compute. reflexivity.
  - rewrite (GetBlockHashesFromHash_canonical sampleChain 9 hdr3 H1 H2 H3 H4 H5 H7).
    vm_compute. reflexivity.
Defined.

Lemma GetHeaderByNumber_canonical_sample :
  linear_chain sampleChain = true /\
  currentHeader sampleChain = Some hdr3 /\
  (2 <= big_Uint64 (Number hdr3))%N /\
  fst (GetHeaderByNumber sampleChain 2) = Some hdr2 /\
  linear_chain (snd (GetHeaderByNumber sampleChain 2)) = true.
Proof.
  assert (H1 : linear_chain sampleChain = true) by (vm_compute; reflexivity).
  assert (H2 : currentHeader sampleChain = Some hdr3) by reflexivity.
  assert (H3 : (2 <= big_Uint64 (Number hdr3))%N) by (vm_compute; discriminate).
  split; [exact H1|]. split; [exact H2|]. split; [exact H3|].
  destruct (GetHeaderByNumber_canonical sampleChain 2 hdr3 H1 H2 H3)
    as (c & Hget & Hc & _ & Hlin).
  assert (Hc2 : canonicalHeader (chainDb sampleChain) 2 = Some hdr2)
    by (vm_compute; reflexivity).
  split; [congruence | exact Hlin].
Defined.

Lemma SetHead_keeps_chain_linear_sample :
  linear_chain sampleChain = true /\
  currentHeader sampleChain = Some hdr3 /\
  (N.to_nat (big_Uint64 (Number hdr3) - 1) <= 5)%nat /\
  exists hc' tr target,
    SetHead 5 sampleChain 1 (Some sampleDelFn) = Done (hc', tr) /\
    currentHeader hc' = Some target /\
    big_Uint64 (Number target) = 1%N /\
    linear_chain hc' = true.
Proof.
  assert (H1 : linear_chain sampleChain = true) by (vm_compute; reflexivity).
  assert (H2 : currentHeader sampleChain = Some hdr3) by reflexivity.
  assert (H3 : (N.to_nat (big_Uint64 (Number hdr3) - 1) <= 5)%nat) by (vm_compute; lia).
  split; [exact H1|]. split; [exact H2|]. split; [exact H3|].
  exact (SetHead_keeps_chain_linear 5 sampleChain 1 (Some sampleDelFn) hdr3 H1 H2 H3).
Defined.

End ChainSpec.

(** * Part II (c): properties of the node service *)

Module ServerSpec.

Import Server.

(** X22. The extra data [makeExtraData] returns is never longer than
    the maximum size: it is the data given when that is not empty and
    fits, the default encoding when the data given is empty and the
    default fits, and nil otherwise. *)
Theorem makeExtraData_within_limit (limit : N) (dflt extra : list byte) :
  (N.of_nat (length (makeExtraData limit dflt extra)) <= limit)%N /\
  (extra <> [] -> (N.of_nat (length extra) <= limit)%N ->
   makeExtraData limit dflt extra = extra) /\
  (extra = [] -> (N.of_nat (length dflt) <= limit)%N ->
   makeExtraData limit dflt extra = dflt) /\
  ((limit < N.of_nat (length extra))%N -> makeExtraData limit dflt extra = []).
Proof.
  unfold makeExtraData. destruct extra as [|b extra]; cbn [length Nat.eqb].
  - split; [|split; [|split]].
    + destruct (N.ltb_spec limit (N.of_nat (length dflt))); cbn [length]; lia.
    + intros Hne. now destruct Hne.
    + intros _ Hfit. now replace (limit <? N.of_nat (length dflt))%N with false
        by (symmetry; apply N.ltb_ge; exact Hfit).
    + cbn. lia.
  - split; [|split; [|split]].
    + destruct (N.ltb_spec limit (N.of_nat (S (length extra)))); cbn [length]; lia.
    + intros _ Hfit. now replace (limit <? N.of_nat (S (length extra)))%N with false
        by (symmetry; apply N.ltb_ge; exact Hfit).
    + discriminate.
    + intros Hlong. now replace (limit <? N.of_nat (S (length extra)))%N with true
        by (symmetry; apply N.ltb_lt; exact Hlong).
Qed.

End ServerSpec.
